(** * Retrieval-augmented caching engine: [rag-service.js], [database.js]
      and the [/analyze] handler of [server.js]

    A shallow embedding of the similarity search, of the cosine score and of
    the orchestrator [processDocumentWithRAG], with the properties the
    specification states about them.

    JavaScript numbers are kept abstract behind the interface [Arith]; the
    code is translated once, over that interface, and read at two
    instances: [binary64] (IEEE 754 doubles, what the program runs on,
    executable) and [exactR] (the real numbers, the arithmetic the
    specification's formulas are written in). *)

From Stdlib Require Import String.
From Stdlib Require Import ZArith List Bool Lia.
From Stdlib Require Import Reals Lra Psatz.
From Stdlib Require Import SpecFloat.
From Stdlib Require Import Sorted Permutation.
Import ListNotations.

Set Implicit Arguments.
Local Open Scope Z_scope.

(** ** Numbers *)

(** The operations of a JavaScript number that the code uses:
    [+ - * /], [Math.sqrt], [===], [>=], [>], and the two literals [0]
    and [0.95]. *)
Class Arith : Type := {
  num : Type;
  num_zero : num;
  num_095 : num;
  num_add : num -> num -> num;
  num_sub : num -> num -> num;
  num_mul : num -> num -> num;
  num_div : num -> num -> num;
  num_sqrt : num -> num;
  num_seq : num -> num -> bool;
  num_ge : num -> num -> bool;
  num_gt : num -> num -> bool
}.

(** IEEE 754 binary64, the number type of the running program. *)
Module B64.
Definition prec : Z := 53.
Definition emax : Z := 1024.

Definition of_Z (z : Z) : spec_float := binary_normalize prec emax z 0 false.
Definition zero : spec_float := S754_zero false.
Definition is_zero (x : spec_float) : bool :=
  match x with S754_zero _ => true | _ => false end.
Definition one : spec_float := S754_finite false 4503599627370496 (-52).
(** The double nearest to 0.95, [0x3FEE666666666666]. *)
Definition c095 : spec_float := S754_finite false 8556839292003942 (-53).
(** The double nearest to 0.85. *)
Definition c085 : spec_float := S754_finite false 7656119366529843 (-53).
(** [1e200], the double [0x1.4e718d7d7625ap+664]. *)
Definition big : spec_float := S754_finite false 5883593420661338 612.
(** The successor of [1.0], printed [1.0000000000000002]. *)
Definition one_plus_ulp : spec_float :=
  S754_finite false 4503599627370497 (-52).
End B64.

Definition binary64 : Arith := {|
  num := spec_float;
  num_zero := B64.zero;
  num_095 := B64.c095;
  num_add := SFadd B64.prec B64.emax;
  num_sub := SFsub B64.prec B64.emax;
  num_mul := SFmul B64.prec B64.emax;
  num_div := SFdiv B64.prec B64.emax;
  num_sqrt := SFsqrt B64.prec B64.emax;
  num_seq := SFeqb;
  num_ge := fun x y => SFleb y x;
  num_gt := fun x y => SFltb y x
|}.

(** A double that takes part in comparisons: valid, and not [NaN]. *)
Definition ordered_double (x : spec_float) : bool :=
  valid_binary B64.prec B64.emax x
  && match x with S754_nan => false | _ => true end.

(** The place of an ordered double in the order of the doubles. *)
Definition key (x : spec_float) : Z :=
  match x with
  | S754_zero _ => 0
  | S754_infinity s => if s then - 2 ^ 70 else 2 ^ 70
  | S754_nan => 0
  | S754_finite s m e =>
      let k := (e + 1075) * 2 ^ 53 + Zpos m in
      if s then - k else k
  end.

(** Exact real arithmetic. *)
Definition Rgeb (x y : R) : bool := if Rle_dec y x then true else false.
Definition Rgtb (x y : R) : bool := if Rlt_dec y x then true else false.
Definition Reqb (x y : R) : bool := if Req_dec_T x y then true else false.

Definition exactR : Arith := {|
  num := R;
  num_zero := 0%R;
  num_095 := (95 / 100)%R;
  num_add := Rplus;
  num_sub := Rminus;
  num_mul := Rmult;
  num_div := Rdiv;
  num_sqrt := sqrt;
  num_seq := Reqb;
  num_ge := Rgeb;
  num_gt := Rgtb
|}.

(** ** [database.js]: the cosine score *)

(** A value read from the [embedding] JSON column or returned by the
    embedding service: an array of numbers, or anything else. *)
Inductive jsvalue (T : Type) : Type :=
| JArray (elems : list T)
| JNotArray.
Arguments JNotArray {T}.

Section Cosine.
Context {A : Arith}.

(** One turn of the [for] loop of [calculateCosineSimilarity]. *)
Definition cosine_step (acc : num * num * num) (xy : num * num)
  : num * num * num :=
  let '(dotProduct, magnitude1, magnitude2) := acc in
  let '(x, y) := xy in
  (num_add dotProduct (num_mul x y),
   num_add magnitude1 (num_mul x x),
   num_add magnitude2 (num_mul y y)).

Definition cosine_loop (vec1 vec2 : list num) : num * num * num :=
  fold_left cosine_step (combine vec1 vec2) (num_zero, num_zero, num_zero).

Definition calculateCosineSimilarity (vec1 vec2 : jsvalue num) : num :=
  match vec1, vec2 with
  | JArray v1, JArray v2 =>
      if negb (Nat.eqb (length v1) (length v2)) then num_zero
      else
        let '(dotProduct, magnitude1, magnitude2) := cosine_loop v1 v2 in
        if num_seq magnitude1 num_zero || num_seq magnitude2 num_zero
        then num_zero
        else num_div dotProduct
               (num_mul (num_sqrt magnitude1) (num_sqrt magnitude2))
  | _, _ => num_zero
  end.
End Cosine.


(** ** JavaScript arrays: [sort] and [slice] *)

(** An argument that is an integer or [NaN], as [parseInt] returns. *)
Inductive jsint : Type :=
| JNaN
| JInt (z : Z).

Section Arrays.
Variable T : Type.

(** [Array.prototype.sort] is stable; for a consistent comparator every
    stable sort returns the same array, here by insertion from the right.
    [after x y] reads "the comparator puts [x] after [y]", that is
    [comparefn(x, y) > 0]. *)
Variable after : T -> T -> bool.

Fixpoint sort_insert (x : T) (l : list T) : list T :=
  match l with
  | [] => [x]
  | y :: l' => if after x y then y :: sort_insert x l' else x :: l
  end.

Definition stable_sort (l : list T) : list T :=
  fold_right sort_insert [] l.

(** Where a stable sort puts [a] before [b]: the comparator does not put
    [a] after [b], and when it cannot tell them apart they are in the order
    of the input. *)
Definition placed (input_order : T -> T -> Prop) (a b : T) : Prop :=
  after a b = false /\ (after b a = false -> input_order a b).

(** [arr.slice(0, end)]: [end] goes through ToIntegerOrInfinity ([NaN]
    becomes 0), and a negative [end] counts from the end of the array. *)
Definition slice0 (l : list T) (finish : jsint) : list T :=
  let len := Z.of_nat (length l) in
  let relativeEnd := match finish with JNaN => 0 | JInt z => z end in
  let final :=
    if relativeEnd <? 0 then Z.max (len + relativeEnd) 0
    else Z.min relativeEnd len in
  firstn (Z.to_nat final) l.
End Arrays.

(** ** The [documents] table and the search results *)

Section Search.
Context {A : Arith}.

(** A row of [documents] (schema of [init.sql]); [created_at] is a
    timestamp in seconds. The column [id] is [doc_id] here. *)
Record document : Type := mkDocument {
  doc_id : Z;
  filename : string;
  file_hash : string;
  file_size : Z;
  mime_type : string;
  extracted_text : string;
  ai_summary : string;
  embedding : jsvalue num;
  embedding_model : string;
  created_at : Z
}.

(** An entry pushed on [similarities]. *)
Record similar : Type := mkSimilar {
  sim_id : Z;
  sim_filename : string;
  sim_file_hash : string;
  sim_ai_summary : string;
  sim_created_at : Z;
  similarity_score : num
}.

Definition similar_of (doc : document) (similarity : num) : similar :=
  {| sim_id := doc_id doc;
     sim_filename := filename doc;
     sim_file_hash := file_hash doc;
     sim_ai_summary := ai_summary doc;
     sim_created_at := created_at doc;
     similarity_score := similarity |}.

(** The [for (const doc of allDocs)] loop of [findSimilarDocuments], with
    its [break]. [similarities] is the array built so far. The [try] around
    the body never catches: [calculateCosineSimilarity] does not throw. *)
Fixpoint scan (embedding0 : jsvalue num) (threshold : num)
    (allDocs : list document) (similarities : list similar)
  : list similar :=
  match allDocs with
  | [] => similarities
  | doc :: rest =>
      let similarity := calculateCosineSimilarity embedding0 (embedding doc) in
      if num_ge similarity threshold then
        let similarities' := similarities ++ [similar_of doc similarity] in
        if num_gt similarity num_095 then similarities'
        else scan embedding0 threshold rest similarities'
      else scan embedding0 threshold rest similarities
  end.

(** The comparator [(a, b) => b.similarity_score - a.similarity_score]. *)
Definition comparefn (a b : similar) : num :=
  num_sub (similarity_score b) (similarity_score a).

Definition sorts_after (a b : similar) : bool :=
  num_gt (comparefn a b) num_zero.

(** [findSimilarDocuments] from the rows the query returned on. *)
Definition rank (embedding0 : jsvalue num) (threshold : num)
    (allDocs : list document) : list similar :=
  stable_sort sorts_after (scan embedding0 threshold allDocs []).

Definition findSimilarDocuments_rows (embedding0 : jsvalue num)
    (threshold : num) (limit : jsint) (allDocs : list document)
  : list similar :=
  match allDocs with
  | [] => []
  | _ => slice0 (rank embedding0 threshold allDocs) limit
  end.

(** [SELECT ... FROM documents ORDER BY created_at DESC]; rows of equal
    [created_at] are kept in table order. *)
Definition older (x y : document) : bool := created_at x <? created_at y.

Definition select_all_documents (table : list document) : list document :=
  stable_sort older table.
End Search.

(** ** The world outside the engine, and the effects of a request *)

Inductive outcome (T : Type) : Type :=
| Ok (v : T)
| Throw (message : string).
Arguments Throw {T}.

(** What holds of the value a computation returned. *)
Definition returned {T : Type} (o : outcome T) (P : T -> Prop) : Prop :=
  match o with
  | Ok v => P v
  | Throw _ => False
  end.

(** The kinds of statement sent through [executeQuery]. *)
Inductive query : Type :=
| QDocumentByHash
| QRagSetting
| QAllDocuments
| QInsertDocument.

(** An upload, as multer hands it to the handler. *)
Record file : Type := mkFile {
  originalname : string;
  size : Z;
  mimetype : string;
  buffer : string
}.

Section Orchestrator.
Context {A : Arith}.

(** The argument of [insertDocument]. *)
Record new_document : Type := mkNew {
  new_filename : string;
  new_file_hash : string;
  new_file_size : Z;
  new_mime_type : string;
  new_extracted_text : string;
  new_ai_summary : string;
  new_embedding : jsvalue num;
  new_embedding_model : string
}.

(** What a request asks of its collaborators, in order. *)
Inductive event : Type :=
| EvGenerate (text : string)
| EvHashLookup (hash : string)
| EvEmbedding (text : string)
| EvSetting (key : string)
| EvScan
| EvInsert (d : new_document).

Record database : Type := mkDb {
  documents : list document;
  rag_settings : list (string * string);
  auto_increment : Z
}.

Record state : Type := mkState {
  db : database;
  trace : list event
}.

(** Everything the code calls and does not define: the digest, the two
    Ollama services, the parsers, whether a statement reaches MySQL, the
    clock, and the rows other requests commit while this one awaits. *)
Record world : Type := mkWorld {
  sha256_hex : string -> string;
  ollama_embeddings : string -> option (jsvalue num);
  summarize : nat -> string -> string;
  parseFloat : string -> num;
  parseInt : string -> jsint;
  query_fails : query -> bool;
  now : Z;
  committed_before_scan : list new_document;
  committed_before_insert : list new_document
}.

(** Module constants of [rag-service.js] and the environment the handler
    reads at each request. *)
Record config : Type := mkConfig {
  RAG_ENABLED : bool;
  env_RAG_ENABLED : bool;
  SIMILARITY_THRESHOLD : num;
  MAX_SIMILAR_DOCUMENTS : Z;
  EMBEDDING_MODEL : string
}.

(** A computation that may throw; effects done before a throw stay. *)
Definition M (T : Type) : Type := state -> outcome T * state.

Definition ret {T} (v : T) : M T := fun s => (Ok v, s).
Definition throw {T} (message : string) : M T := fun s => (Throw message, s).
Definition bind {T U} (m : M T) (k : T -> M U) : M U :=
  fun s => match m s with
           | (Ok v, s') => k v s'
           | (Throw e, s') => (Throw e, s')
           end.
Definition try_catch {T} (m : M T) (handler : string -> M T) : M T :=
  fun s => match m s with
           | (Ok v, s') => (Ok v, s')
           | (Throw e, s') => handler e s'
           end.
Definition emit (e : event) : M unit :=
  fun s => (Ok tt, {| db := db s; trace := trace s ++ [e] |}).
Definition get_db : M database := fun s => (Ok (db s), s).
Definition put_db (d : database) : M unit :=
  fun s => (Ok tt, {| db := d; trace := trace s |}).
End Orchestrator.

Declare Scope m_scope.
Delimit Scope m_scope with M.
Notation "x <- m ;; k" := (bind m (fun x => k))
  (at level 61, m at next level, right associativity) : m_scope.
Notation "m ;;; k" := (bind m (fun _ => k))
  (at level 61, right associativity) : m_scope.

Section Engine.
Context {A : Arith}.
Variable W : world.
Variable C : config.
Local Open Scope m_scope.

(** *** [database.js] *)

(** The [INSERT]: the row gets the next [AUTO_INCREMENT] id and the current
    timestamp; the [UNIQUE] index on [file_hash] rejects a second row with
    the same hash. *)
Definition has_hash (h : string) (d : document) : bool :=
  String.eqb (file_hash d) h.

Definition row_of (d : new_document) (i : Z) : document :=
  {| doc_id := i;
     filename := new_filename d;
     file_hash := new_file_hash d;
     file_size := new_file_size d;
     mime_type := new_mime_type d;
     extracted_text := new_extracted_text d;
     ai_summary := new_ai_summary d;
     embedding := new_embedding d;
     embedding_model := new_embedding_model d;
     created_at := now W |}.

Definition db_insert (d : new_document) (b : database)
  : option (Z * database) :=
  if existsb (has_hash (new_file_hash d)) (documents b) then None
  else Some (auto_increment b,
             {| documents := documents b ++ [row_of d (auto_increment b)];
                rag_settings := rag_settings b;
                auto_increment := auto_increment b + 1 |}).

(** [executeQuery] rethrows what the driver throws. *)
Definition executeQuery (q : query) : M unit :=
  if query_fails W q then throw "Database query error" else ret tt.

Definition getDocumentByHash (fileHash : string) : M (option document) :=
  emit (EvHashLookup fileHash) ;;;
  executeQuery QDocumentByHash ;;;
  b <- get_db ;;
  ret (find (has_hash fileHash) (documents b)).

Definition insertDocument (d : new_document) : M Z :=
  emit (EvInsert d) ;;;
  executeQuery QInsertDocument ;;;
  b <- get_db ;;
  match db_insert d b with
  | Some (insertId, b') => put_db b' ;;; ret insertId
  | None => throw "Duplicate entry for key 'documents.file_hash'"
  end.

Fixpoint assoc (key : string) (rows : list (string * string))
  : option string :=
  match rows with
  | [] => None
  | (k, v) :: rest => if String.eqb k key then Some v else assoc key rest
  end.

Definition getRagSetting (key : string) : M (option string) :=
  emit (EvSetting key) ;;;
  executeQuery QRagSetting ;;;
  b <- get_db ;;
  ret (assoc key (rag_settings b)).

Definition findSimilarDocuments (embedding0 : jsvalue num)
    (threshold : num) (limit : jsint) : M (list similar) :=
  try_catch
    (emit EvScan ;;;
     executeQuery QAllDocuments ;;;
     b <- get_db ;;
     ret (findSimilarDocuments_rows embedding0 threshold limit
            (select_all_documents (documents b))))
    (fun _ => ret []).

(** *** [rag-service.js] *)

Definition generateFileHash (buf : string) : string := sha256_hex W buf.

(** The request to [/api/embeddings]: [None] is a failed request, a value
    that is not an array is the "Invalid embedding response" case. *)
Definition generateEmbedding (text : string) : M (jsvalue num) :=
  emit (EvEmbedding text) ;;;
  match ollama_embeddings W text with
  | Some (JArray v) => ret (JArray v)
  | _ => throw "Failed to generate embedding"
  end.

(** Rows committed by other requests while this one awaits: the same
    [INSERT], a rejected one leaving the table as it was. *)
Definition after_commits (ds : list new_document) (b : database)
  : database :=
  fold_left (fun b d => match db_insert d b with
                        | Some (_, b') => b'
                        | None => b
                        end) ds b.

Definition others_commit (ds : list new_document) : M unit :=
  b <- get_db ;;
  put_db (after_commits ds b).

Record rag_result : Type := mkResult {
  isFromRAG : bool;
  aiSummary : option string;
  similarDocuments : list similar;
  exactMatch : option bool;
  matchedDocument : option (Z * string * Z);
  bestMatch : option (string * num * Z);
  fileHash : option string;
  result_embedding : option (jsvalue num);
  needsAiGeneration : bool;
  newDocumentId : option Z;
  error : option string
}.

Definition plain_result (summary : option string) : rag_result :=
  {| isFromRAG := false; aiSummary := summary; similarDocuments := [];
     exactMatch := None; matchedDocument := None; bestMatch := None;
     fileHash := None; result_embedding := None;
     needsAiGeneration := false; newDocumentId := None; error := None |}.

(** [await getRagSetting(key) || DEFAULT] followed by [parseFloat] or
    [parseInt]: an absent or empty setting gives the module constant,
    which the parser gives back as it is. *)
Definition threshold_of (setting : option string) : num :=
  match setting with
  | Some s => if String.eqb s "" then SIMILARITY_THRESHOLD C
              else parseFloat W s
  | None => SIMILARITY_THRESHOLD C
  end.

Definition maxDocs_of (setting : option string) : jsint :=
  match setting with
  | Some s => if String.eqb s "" then JInt (MAX_SIMILAR_DOCUMENTS C)
              else parseInt W s
  | None => JInt (MAX_SIMILAR_DOCUMENTS C)
  end.

Definition newline : string := String (Ascii.ascii_of_nat 10) EmptyString.

(** The template [`[Similar to: ${filename}]\n\n${ai_summary}`]. *)
Definition similar_annotation (matched : string) (summary : string)
  : string :=
  ("[Similar to: " ++ matched ++ "]" ++ newline ++ newline ++ summary)%string.

Definition new_of (f : file) (h text summary : string)
    (e : jsvalue num) : new_document :=
  {| new_filename := originalname f;
     new_file_hash := h;
     new_file_size := size f;
     new_mime_type := mimetype f;
     new_extracted_text := text;
     new_ai_summary := summary;
     new_embedding := e;
     new_embedding_model := EMBEDDING_MODEL C |}.

Definition processDocumentWithRAG (f : file) (extractedText : string)
    (aiSummary0 : option string) : M rag_result :=
  try_catch
    (if negb (RAG_ENABLED C) then ret (plain_result aiSummary0)
     else
       let fileHash0 := generateFileHash (buffer f) in
       existingDoc <- getDocumentByHash fileHash0 ;;
       match existingDoc with
       | Some existing =>
           ret {| isFromRAG := true;
                  aiSummary := Some (ai_summary existing);
                  similarDocuments := [];
                  exactMatch := Some true;
                  matchedDocument :=
                    Some (doc_id existing, filename existing,
                          created_at existing);
                  bestMatch := None; fileHash := None;
                  result_embedding := None; needsAiGeneration := false;
                  newDocumentId := None; error := None |}
       | None =>
           embedding0 <- generateEmbedding extractedText ;;
           others_commit (committed_before_scan W) ;;;
           thresholdSetting <- getRagSetting "similarity_threshold" ;;
           maxDocsSetting <- getRagSetting "max_similar_documents" ;;
           let threshold := threshold_of thresholdSetting in
           let maxDocs := maxDocs_of maxDocsSetting in
           similarDocs <- findSimilarDocuments embedding0 threshold maxDocs ;;
           let highestSimilarity :=
             match similarDocs with
             | best :: _ => similarity_score best
             | [] => num_zero
             end in
           let useExistingSummary := num_ge highestSimilarity threshold in
           match useExistingSummary, similarDocs with
           | true, best :: _ =>
               others_commit (committed_before_insert W) ;;;
               insertDocument
                 (new_of f fileHash0 extractedText
                    (similar_annotation (sim_filename best)
                       (sim_ai_summary best))
                    embedding0) ;;;
               ret {| isFromRAG := true;
                      aiSummary := Some (sim_ai_summary best);
                      similarDocuments := similarDocs;
                      exactMatch := Some false;
                      matchedDocument := None;
                      bestMatch :=
                        Some (sim_filename best, similarity_score best,
                              sim_created_at best);
                      fileHash := None; result_embedding := None;
                      needsAiGeneration := false;
                      newDocumentId := None; error := None |}
           | _, _ =>
               match aiSummary0 with
               | None =>
                   ret {| isFromRAG := false;
                          aiSummary := None;
                          similarDocuments := similarDocs;
                          exactMatch := Some false;
                          matchedDocument := None; bestMatch := None;
                          fileHash := Some fileHash0;
                          result_embedding := Some embedding0;
                          needsAiGeneration := true;
                          newDocumentId := None; error := None |}
               | Some summary =>
                   others_commit (committed_before_insert W) ;;;
                   documentId <-
                     insertDocument
                       (new_of f fileHash0 extractedText summary
                          embedding0) ;;
                   ret {| isFromRAG := false;
                          aiSummary := Some summary;
                          similarDocuments := similarDocs;
                          exactMatch := Some false;
                          matchedDocument := None; bestMatch := None;
                          fileHash := None; result_embedding := None;
                          needsAiGeneration := false;
                          newDocumentId := Some documentId;
                          error := None |}
               end
           end
       end)
    (fun message =>
       ret {| isFromRAG := false;
              aiSummary := aiSummary0;
              similarDocuments := [];
              exactMatch := None; matchedDocument := None;
              bestMatch := None; fileHash := None;
              result_embedding := None; needsAiGeneration := false;
              newDocumentId := None; error := Some message |}).

(** *** [server.js]: the PDF branch of [POST /analyze] *)

(** [summarizeLongText] always returns a string: [generateText] catches
    every failure of the generation model and returns a fixed message. The
    index tells the first call of a request from its second. *)
Definition summarizeLongText (call : nat) (text : string) : M string :=
  emit (EvGenerate text) ;;;
  ret (summarize W call text).

Inductive response : Type :=
| Download (aiResponse : string) (ragResult : rag_result)
| Status500.

(** From the extracted text to [aiResponse] and [ragResult]. *)
Definition analyze_rag (f : file) (text : string)
  : M (option string * rag_result) :=
  if env_RAG_ENABLED C then
    try_catch
      (newAiSummary <- summarizeLongText 0 text ;;
       ragResult <- processDocumentWithRAG f text (Some newAiSummary) ;;
       if isFromRAG ragResult then ret (aiSummary ragResult, ragResult)
       else ret (Some newAiSummary, ragResult))
      (fun message =>
         aiResponse <- summarizeLongText 1 text ;;
         ret (Some aiResponse,
              {| isFromRAG := false; aiSummary := Some aiResponse;
                 similarDocuments := []; exactMatch := Some false;
                 matchedDocument := None; bestMatch := None;
                 fileHash := None; result_embedding := None;
                 needsAiGeneration := false; newDocumentId := None;
                 error := Some message |}))
  else
    aiResponse <- summarizeLongText 0 text ;;
    ret (Some aiResponse,
         {| isFromRAG := false; aiSummary := Some aiResponse;
            similarDocuments := []; exactMatch := Some false;
            matchedDocument := None; bestMatch := None;
            fileHash := None; result_embedding := None;
            needsAiGeneration := false; newDocumentId := None;
            error := None |}).

(** The handler from there on: [aiResponse.length] throws on [null], and
    the outer [catch] answers 500. Writing and sending the file is left
    out. *)
Definition analyze (f : file) (text : string) (s : state)
  : response * state :=
  match analyze_rag f text s with
  | (Ok (Some aiResponse, ragResult), s') => (Download aiResponse ragResult, s')
  | (Ok (None, _), s') => (Status500, s')
  | (Throw _, s') => (Status500, s')
  end.
End Engine.

(** ** Notions the properties are stated with *)

Section Notions.
Context {A : Arith}.

(** The score [findSimilarDocuments] computes for a row. *)
Definition score_of (embedding0 : jsvalue num) (d : document) : num :=
  calculateCosineSimilarity embedding0 (embedding d).

Definition candidate_scores (embedding0 : jsvalue num)
    (rows : list document) : list num :=
  map (score_of embedding0) rows.

(** Two values are arrays of the same length. *)
Definition same_dimension (u v : jsvalue num) : bool :=
  match u, v with
  | JArray a, JArray b => Nat.eqb (length a) (length b)
  | _, _ => false
  end.

(** The comparator of the ranking is consistent on a list of scores:
    [>=] is total and transitive there, [>] is its strict part, and the
    sign of a difference tells which score is greater. [NaN] and
    differences of infinities break it. *)
Definition pair_consistent (x y : num) : bool :=
  (num_ge x y || num_ge y x)
  && Bool.eqb (num_gt x y) (negb (num_ge y x))
  && Bool.eqb (num_gt (num_sub x y) num_zero) (num_gt x y).

Definition triple_consistent (x y z : num) : bool :=
  implb (num_ge x y && num_ge y z) (num_ge x z).

Definition consistentb (scores : list num) : bool :=
  forallb (fun x =>
    forallb (fun y =>
      pair_consistent x y
      && forallb (fun z => triple_consistent x y z) scores) scores) scores.

(** The same, as a proposition about the scores of a list. *)
Definition consistent_on (scores : list num) : Prop :=
  forall x y, In x scores -> In y scores ->
    (num_ge x y = true \/ num_ge y x = true)
    /\ num_gt x y = negb (num_ge y x)
    /\ num_gt (num_sub x y) num_zero = num_gt x y
    /\ (forall z, In z scores ->
          num_ge x y = true -> num_ge y z = true -> num_ge x z = true).

(** The scan without the early exit: every row is evaluated. *)
Fixpoint scan_full (embedding0 : jsvalue num) (threshold : num)
    (allDocs : list document) (similarities : list similar)
  : list similar :=
  match allDocs with
  | [] => similarities
  | doc :: rest =>
      let similarity := score_of embedding0 doc in
      if num_ge similarity threshold then
        scan_full embedding0 threshold rest
          (similarities ++ [similar_of doc similarity])
      else scan_full embedding0 threshold rest similarities
  end.

(** The ranking a full scan produces, before any truncation. *)
Definition rank_full (embedding0 : jsvalue num) (threshold : num)
    (allDocs : list document) : list similar :=
  stable_sort sorts_after (scan_full embedding0 threshold allDocs []).

(** A row stops the scan: it is kept and its score exceeds 0.95. *)
Definition triggers (embedding0 : jsvalue num) (threshold : num)
    (d : document) : bool :=
  num_ge (score_of embedding0 d) threshold
  && num_gt (score_of embedding0 d) num_095.



(** The branch of [processDocumentWithRAG] a result comes from, read off
    its fields. *)
Inductive branch : Type :=
| Disabled
| ExactMatch
| SimilarMatch
| NoMatchStored
| NeedsGeneration
| Failed.

Definition branch_of (r : rag_result) : branch :=
  match error r with
  | Some _ => Failed
  | None =>
      if needsAiGeneration r then NeedsGeneration
      else match newDocumentId r with
           | Some _ => NoMatchStored
           | None =>
               match exactMatch r with
               | Some true => ExactMatch
               | Some false => SimilarMatch
               | None => Disabled
               end
           end
  end.

Definition inserts_of (k : branch) : nat :=
  match k with
  | SimilarMatch | NoMatchStored => 1
  | _ => 0
  end.

(** What holds of the summary and the RAG result the handler answered
    with. *)
Definition answered (resp : response)
    (P : string -> rag_result -> Prop) : Prop :=
  match resp with
  | Download aiResponse ragResult => P aiResponse ragResult
  | Status500 => False
  end.

(** Some part of the cache layer is out of order: a statement does not
    reach the database, or the embedding service gives no array. *)
Definition cache_fault (W : world) (text : string) : Prop :=
  (exists q, query_fails W q = true)
  \/ (forall v, ollama_embeddings W text <> Some (JArray v)).

Definition is_insert (e : event) : bool :=
  match e with EvInsert _ => true | _ => false end.

Definition is_hash_lookup (e : event) : bool :=
  match e with EvHashLookup _ => true | _ => false end.
End Notions.

(** An order-preserving selection of the elements of a list. *)
Inductive subseq {T : Type} : list T -> list T -> Prop :=
| subseq_nil : subseq [] []
| subseq_skip : forall x l1 l2, subseq l1 l2 -> subseq l1 (x :: l2)
| subseq_keep : forall x l1 l2, subseq l1 l2 -> subseq (x :: l1) (x :: l2).

(** Dot product and Euclidean norm over the reals, as the specification
    writes the score: [dot(a,b) / (||a|| * ||b||)]. *)
Fixpoint spec_dot (a b : list R) : R :=
  match a, b with
  | x :: a', y :: b' => (x * y + spec_dot a' b')%R
  | _, _ => 0%R
  end.

Definition spec_norm (a : list R) : R := sqrt (spec_dot a a).

Definition spec_score (a b : list R) : R :=
  (spec_dot a b / (spec_norm a * spec_norm b))%R.

(** ** A small store and world, in doubles, to run the code on *)

Module Example.
#[local] Existing Instance binary64.
Local Open Scope string_scope.

Definition d (z : Z) : @num binary64 := B64.of_Z z.

Definition vec (l : list Z) : jsvalue (@num binary64) := JArray (map d l).

Definition row (i : Z) (name hash summary : string) (e : list Z) (t : Z)
  : @document binary64 :=
  {| doc_id := i; filename := name; file_hash := hash; file_size := 10;
     mime_type := "application/pdf"; extracted_text := name;
     ai_summary := summary; embedding := vec e;
     embedding_model := "nomic-embed-text"; created_at := t |}.

(** Against the query [[1, 0]]: [a.pdf] scores 12/13, [b.pdf] scores
    12/13 as well and is older, [c.pdf] scores 0.6, [e.pdf] scores 1, and
    [w.pdf] holds a vector of another length. *)
Definition doc_a := row 1 "a.pdf" "h:a" "A" [12; 5] 50.
Definition doc_b := row 2 "b.pdf" "h:b" "B" [12; -5] 40.
Definition doc_c := row 3 "c.pdf" "h:c" "C" [3; 4] 60.
Definition doc_e := row 4 "e.pdf" "h:e" "E" [2; 0] 30.
Definition doc_w := row 5 "w.pdf" "h:w" "W" [1; 1; 1] 70.

Definition query_vec : jsvalue (@num binary64) := vec [1; 0].

Definition c085 : @num binary64 := B64.c085.
Definition zero : @num binary64 := B64.zero.

Definition settings : list (string * string) :=
  [("similarity_threshold", "0.85"); ("max_similar_documents", "5")].

Definition store (rows : list document) : @database binary64 :=
  {| documents := rows; rag_settings := settings;
     auto_increment := 10 |}.

Definition start (rows : list document) : @state binary64 :=
  {| db := store rows; trace := [] |}.

Definition world0 : @world binary64 :=
  {| sha256_hex := fun buf => ("h:" ++ buf)%string;
     ollama_embeddings := fun _ => Some query_vec;
     summarize := fun _ text => ("summary of " ++ text)%string;
     parseFloat := fun s => if String.eqb s "0.85" then B64.c085
                            else if String.eqb s "0" then B64.zero
                            else S754_nan;
     parseInt := fun s => if String.eqb s "5" then JInt 5 else JNaN;
     query_fails := fun _ => false;
     now := 100;
     committed_before_scan := [];
     committed_before_insert := [] |}.

Definition config0 : @config binary64 :=
  {| RAG_ENABLED := true; env_RAG_ENABLED := true;
     SIMILARITY_THRESHOLD := B64.c085; MAX_SIMILAR_DOCUMENTS := 5;
     EMBEDDING_MODEL := "nomic-embed-text" |}.

Definition upload (name content : string) : file :=
  {| originalname := name; size := 10; mimetype := "application/pdf";
     buffer := content |}.

(** The same upload, a moment earlier, by a concurrent request. *)
Definition racing (f : file) (summary : string) : @new_document binary64 :=
  new_of config0 f (sha256_hex world0 (buffer f)) "text" summary
    query_vec.

Definition world_race (f : file) : @world binary64 :=
  {| sha256_hex := sha256_hex world0;
     ollama_embeddings := ollama_embeddings world0;
     summarize := summarize world0;
     parseFloat := parseFloat world0;
     parseInt := parseInt world0;
     query_fails := query_fails world0;
     now := now world0;
     committed_before_scan := [];
     committed_before_insert := [racing f "winner"] |}.

Definition world_no_embedding : @world binary64 :=
  {| sha256_hex := sha256_hex world0;
     ollama_embeddings := fun _ => None;
     summarize := summarize world0;
     parseFloat := parseFloat world0;
     parseInt := parseInt world0;
     query_fails := query_fails world0;
     now := now world0;
     committed_before_scan := [];
     committed_before_insert := [] |}.
End Example.
Import Example.


(** ** Notions for the further properties *)

Section MoreNotions.
Context {A : Arith}.

(** The calls of a run that goes all the way to the insert of [nd]. *)
Definition full_run_calls (hash text : string) (nd : new_document)
  : list event :=
  [EvHashLookup hash; EvEmbedding text;
   EvSetting "similarity_threshold"; EvSetting "max_similar_documents";
   EvScan; EvInsert nd].

Definition is_generate (e : event) : bool :=
  match e with EvGenerate _ => true | _ => false end.

(** The [UNIQUE] index on [file_hash] holds of a table. *)
Definition unique_hashes (b : database) : Prop :=
  NoDup (map file_hash (documents b)).
End MoreNotions.

(** ** [database.js]: [updateRagSetting] *)

(** [INSERT ... ON DUPLICATE KEY UPDATE setting_value = VALUES(...)] on a
    table with a [UNIQUE] key: the row of the key gets the value, a key not
    yet there gets a new row. *)
Fixpoint upsert (key value : string) (rows : list (string * string))
  : list (string * string) :=
  match rows with
  | [] => [(key, value)]
  | (k, v) :: rest =>
      if String.eqb k key then (k, value) :: rest
      else (k, v) :: upsert key value rest
  end.

Section Settings.
Context {A : Arith}.
Variable W : world.
Local Open Scope m_scope.

(** The statement goes through [executeQuery] like the reads of
    [rag_settings], and fails with them. *)
Definition updateRagSetting (key value : string) : M unit :=
  executeQuery W QRagSetting ;;;
  b <- get_db ;;
  put_db {| documents := documents b;
            rag_settings := upsert key value (rag_settings b);
            auto_increment := auto_increment b |}.
End Settings.

(** ** [server.js]: the text utilities *)

(** In this part a JavaScript string is the list of its code units, taken
    below 256; [length] is [.length]. *)
Definition text : Type := list Ascii.ascii.

Definition code (n : nat) : Ascii.ascii := Ascii.ascii_of_nat n.

(** [\s] of a regular expression and the characters [trim] strips, among
    the code units below 256: tab, line feed, vertical tab, form feed,
    carriage return, space, no-break space. *)
Definition is_space (c : Ascii.ascii) : bool :=
  existsb (Ascii.eqb c)
    [code 9; code 10; code 11; code 12; code 13; code 32; code 160].

Definition is_cr (c : Ascii.ascii) : bool := Ascii.eqb c (code 13).
Definition is_lf (c : Ascii.ascii) : bool := Ascii.eqb c (code 10).
Definition is_tab_or_ff (c : Ascii.ascii) : bool :=
  Ascii.eqb c (code 9) || Ascii.eqb c (code 12).
Definition is_hyphen (c : Ascii.ascii) : bool := Ascii.eqb c (code 45).

(** [[.!?]] *)
Definition is_sentence_end (c : Ascii.ascii) : bool :=
  Ascii.eqb c (code 46) || Ascii.eqb c (code 33) || Ascii.eqb c (code 63).

Definition space : Ascii.ascii := code 32.

(** [replace(/\r/g, '')] *)
Definition remove_cr (t : text) : text :=
  filter (fun c => negb (is_cr c)) t.

(** [replace(/[p]+/g, rep)]: every maximal run of characters of the class
    becomes one [rep], written where the run ends. *)
Fixpoint collapse_runs (p : Ascii.ascii -> bool) (rep : Ascii.ascii)
    (t : text) : text :=
  match t with
  | [] => []
  | c :: rest =>
      if p c then
        match rest with
        | c' :: _ =>
            if p c' then collapse_runs p rep rest
            else rep :: collapse_runs p rep rest
        | [] => [rep]
        end
      else c :: collapse_runs p rep rest
  end.

(** [replace(/-\n/g, '')]: the matches are taken from left to right and
    what is left is not scanned again. *)
Fixpoint remove_hyphen_breaks (t : text) : text :=
  match t with
  | [] => []
  | c :: rest =>
      match rest with
      | c' :: rest' =>
          if is_hyphen c && is_lf c' then remove_hyphen_breaks rest'
          else c :: remove_hyphen_breaks rest
      | [] => [c]
      end
  end.

(** [replace(/\s{2,}/g, ' ')]: a run of two or more becomes one space, a
    lone character of the class stays. [in_run] tells that the character
    before was of the class. *)
Fixpoint squeeze_spaces (in_run : bool) (t : text) : text :=
  match t with
  | [] => []
  | c :: rest =>
      if is_space c then
        match rest with
        | c' :: _ =>
            if is_space c' then squeeze_spaces true rest
            else (if in_run then space else c) :: squeeze_spaces false rest
        | [] => [if in_run then space else c]
        end
      else c :: squeeze_spaces false rest
  end.

Fixpoint drop_spaces (t : text) : text :=
  match t with
  | [] => []
  | c :: rest => if is_space c then drop_spaces rest else t
  end.

(** [trim()] *)
Definition trim (t : text) : text :=
  rev (drop_spaces (rev (drop_spaces t))).

Definition normalizeExtractedText (raw : text) : text :=
  match raw with
  | [] => []
  | _ =>
      trim
        (squeeze_spaces false
           (collapse_runs is_lf (code 10)
              (remove_hyphen_breaks
                 (collapse_runs is_tab_or_ff space (remove_cr raw)))))
  end.

(** No two characters of the class [\s] next to each other. *)
Fixpoint single_spaced (t : text) : bool :=
  match t with
  | [] => true
  | c :: rest =>
      match rest with
      | c' :: _ => negb (is_space c && is_space c') && single_spaced rest
      | [] => true
      end
  end.

(** [split(/(?<=[.!?])\s+/)]: a separator is a maximal run of [\s] that
    follows one of [. ! ?]. [skipping] tells that a separator is being
    passed over; [piece] holds the current piece, last character first. *)
Fixpoint split_pieces (skipping : bool) (piece : text) (t : text)
  : list text :=
  match t with
  | [] => [rev piece]
  | c :: rest =>
      if skipping && is_space c then split_pieces true piece rest
      else if is_sentence_end c
              && match rest with
                 | c' :: _ => is_space c'
                 | [] => false
                 end
           then rev (c :: piece) :: split_pieces true [] rest
           else split_pieces false (c :: piece) rest
  end.

Definition split_sentences (t : text) : list text :=
  split_pieces false [] t.

(** [str.slice(start)] *)
Definition slice_from (t : text) (start : Z) : text :=
  let len := Z.of_nat (length t) in
  let from := if start <? 0 then Z.max (len + start) 0
              else Z.min start len in
  skipn (Z.to_nat from) t.

Section Chunks.
(** [SUMMARY_MAX_CHUNKS] and the chunk size, [Number(...)] of a setting of
    the environment, here integers. *)
Variable SUMMARY_MAX_CHUNKS : Z.
Variable maxChars : Z.

Definition longer_than_max (t : text) : bool :=
  maxChars <? Z.of_nat (length t).

Definition enough_chunks (chunks : list text) : bool :=
  SUMMARY_MAX_CHUNKS <=? Z.of_nat (length chunks).

Definition nonempty (t : text) : bool :=
  match t with [] => false | _ => true end.

(** The [while (current.length > maxChars)] loop: [None] when [fuel] turns
    of the loop do not end it. *)
Fixpoint hard_split (fuel : nat) (chunks : list text) (current : text)
  : option (list text * text) :=
  if longer_than_max current then
    match fuel with
    | O => None
    | S fuel' =>
        hard_split fuel'
          (chunks ++ [slice0 current (JInt maxChars)])
          (slice_from current maxChars)
    end
  else Some (chunks, current).

(** The [for (const s of sentences)] loop with its two [break]s. *)
Fixpoint chunk_sentences (fuel : nat) (sentences : list text)
    (chunks : list text) (current : text) : option (list text * text) :=
  match sentences with
  | [] => Some (chunks, current)
  | s :: rest =>
      if negb (longer_than_max (trim (current ++ space :: s))) then
        let current' :=
          (if nonempty current then current ++ [space] else []) ++ s in
        if enough_chunks chunks then Some (chunks, current')
        else chunk_sentences fuel rest chunks current'
      else
        let chunks1 := if nonempty current then chunks ++ [current]
                       else chunks in
        match hard_split fuel chunks1 s with
        | None => None
        | Some (chunks2, current2) =>
            if enough_chunks chunks2 then Some (chunks2, current2)
            else chunk_sentences fuel rest chunks2 current2
        end
  end.

Definition splitIntoSentenceChunks (fuel : nat) (t : text)
  : option (list text) :=
  if negb (longer_than_max t) then Some [t]
  else
    match chunk_sentences fuel (split_sentences t) [] [] with
    | None => None
    | Some (chunks, current) =>
        Some (if nonempty current && negb (enough_chunks chunks)
              then chunks ++ [current]
              else chunks)
    end.
End Chunks.

Definition text_of_string (s : string) : text := list_ascii_of_string s.

Definition starts_with_space (t : text) : bool :=
  match t with
  | c :: _ => is_space c
  | [] => false
  end.

Definition ends_with_space (t : text) : bool := starts_with_space (rev t).

(** A hyphen followed by a line feed somewhere in the text. *)
Fixpoint has_hyphen_break (t : text) : bool :=
  match t with
  | [] => false
  | c :: rest =>
      match rest with
      | c' :: _ => (is_hyphen c && is_lf c') || has_hyphen_break rest
      | [] => false
      end
  end.

Definition visible (t : text) : text :=
  filter (fun c => negb (is_space c)) t.

(** ** [server.js]: the calls to the generation service *)

Section Generation.
(** [axios.post] to [/api/generate] with a model and a prompt, for an image
    also the picture and [options.num_predict]: [None] when the request or
    the reading of its answer throws, else the field [response] of the
    answer, [None] when there is none. *)
Variable post_text : string -> text -> option (option text).
Variable post_image : string -> text -> text -> Z -> option (option text).
(** [process.env.IMG_FALLBACK_MODEL] *)
Variable IMG_FALLBACK_MODEL : option string.
Variable SUMMARY_CHUNK_CHARS : Z.
Variable SUMMARY_MAX_CHUNKS : Z.
(** The two prompt templates, of a chunk and an instruction, and of the
    partial summaries. *)
Variable buildPdfSummaryPrompt : text -> text -> text.
Variable mergePrompt_of : list text -> text.

Definition no_response : text :=
  text_of_string "Pas de r" ++ code 233 :: text_of_string "ponse d'Ollama.".

Definition generate_error : text :=
  text_of_string "Erreur lors de l'appel " ++ code 224
    :: text_of_string " Ollama.".

Definition image_error : text :=
  text_of_string "Erreur lors de l'appel " ++ code 224
    :: text_of_string " Ollama pour l'image.".

Definition generateText (model : string) (prompt : text) : text :=
  match post_text model prompt with
  | Some (Some response) =>
      if nonempty response then response else no_response
  | Some None => no_response
  | None => generate_error
  end.

Definition summarizeChunk (model : string) (chunk instruction : text)
  : text :=
  generateText model (buildPdfSummaryPrompt chunk instruction).

(** [summarizeLongText] from the chunks on: its result and the prompts it
    sends, in order. *)
Definition summarize_chunks (model : string) (instruction : text)
    (chunks : list text) : text * list text :=
  match chunks with
  | [chunk] =>
      (summarizeChunk model chunk instruction,
       [buildPdfSummaryPrompt chunk instruction])
  | _ =>
      let partials :=
        map (fun chunk => summarizeChunk model chunk instruction) chunks in
      let mergePrompt := mergePrompt_of partials in
      (generateText model mergePrompt,
       map (fun chunk => buildPdfSummaryPrompt chunk instruction) chunks
         ++ [mergePrompt])
  end.

(** [summarizeLongText] with the prompts it sends: [None] when the
    splitting does not end within [fuel] turns. *)
Definition summarize_text (fuel : nat) (model : string)
    (fullText instruction : text) : option (text * list text) :=
  match splitIntoSentenceChunks SUMMARY_MAX_CHUNKS SUMMARY_CHUNK_CHARS
          fuel fullText with
  | Some chunks => Some (summarize_chunks model instruction chunks)
  | None => None
  end.

(** [response && response.trim().length > 0] *)
Definition usable (response : text) : bool :=
  nonempty response && (0 <? Z.of_nat (length (trim response))).

(** [process.env.IMG_FALLBACK_MODEL || 'moondream'] *)
Definition fallbackModel : string :=
  match IMG_FALLBACK_MODEL with
  | Some m => if String.eqb m "" then "moondream"%string else m
  | None => "moondream"%string
  end.

(** The [catch] branch of [describeImage]; [asked] lists the models asked
    so far. *)
Definition describe_fallback (model : string) (prompt base64Image : text)
    (asked : list string) : text * list string :=
  if negb (String.eqb model fallbackModel) then
    match post_image fallbackModel prompt base64Image 160 with
    | Some (Some response) =>
        if usable response then (response, asked ++ [fallbackModel])
        else (image_error, asked ++ [fallbackModel])
    | _ => (image_error, asked ++ [fallbackModel])
    end
  else (image_error, asked).

(** The description and the models asked, in order. *)
Definition describeImage (model : string) (prompt base64Image : text)
  : text * list string :=
  match post_image model prompt base64Image 120 with
  | Some (Some response) =>
      if usable response then (response, [model])
      else describe_fallback model prompt base64Image [model]
  | _ => describe_fallback model prompt base64Image [model]
  end.
End Generation.

(** ** [server.js]: [POST /rag/search] *)

Section SearchEndpoint.
Context {A : Arith}.
Variable W : world.
(** The literal [0.5]. *)
Variable num_05 : num.
(** The text taken out of the upload by [pdf-parse] or by OCR, a throw
    when the extraction throws. *)
Variable extract : file -> outcome string.
Local Open Scope m_scope.

Inductive search_response : Type :=
| SearchFound (filename : string) (text_length : nat)
    (embedding_dimension : nat) (results : list similar)
    (total_results : nat)
| SearchRefused (status : Z) (error : string).

(** [mimetype.includes(needle)] *)
Definition includes (needle s : string) : bool :=
  match String.index 0 needle s with
  | Some _ => true
  | None => false
  end.

(** [parseFloat(req.body.threshold) || 0.5]: a field that is absent
    parses to [NaN]; [NaN] and zero give the default. *)
Definition search_threshold (field : option string) : num :=
  match field with
  | Some s =>
      let x := parseFloat W s in
      if negb (num_seq x x) || num_seq x num_zero then num_05 else x
  | None => num_05
  end.

(** [parseInt(req.body.limit) || 10] *)
Definition search_limit (field : option string) : jsint :=
  match field with
  | Some s =>
      match parseInt W s with
      | JInt 0 => JInt 10
      | JInt z => JInt z
      | JNaN => JInt 10
      end
  | None => JInt 10
  end.

(** [!extractedText || extractedText.trim().length < 50] *)
Definition too_short (extractedText : string) : bool :=
  (length (trim (text_of_string extractedText)) <? 50)%nat.

Definition extraction (f : file) : M string :=
  if String.eqb (mimetype f) "application/pdf"
     || String.prefix "image/" (mimetype f)
  then fun s => (extract f, s)
  else ret ""%string.

Definition dimension (v : jsvalue num) : nat :=
  match v with
  | JArray elems => length elems
  | JNotArray => 0%nat
  end.

Definition rag_search_steps (f : file)
    (threshold_field limit_field : option string) : M search_response :=
  extractedText <- extraction f ;;
  if too_short extractedText then
    ret (SearchRefused 400
           "Pas assez de texte extrait pour effectuer une recherche de similarité.")
  else
    embedding0 <- generateEmbedding W extractedText ;;
    let threshold := search_threshold threshold_field in
    let limit := search_limit limit_field in
    similarDocuments <- findSimilarDocuments W embedding0 threshold limit ;;
    ret (SearchFound (originalname f) (String.length extractedText)
           (dimension embedding0) similarDocuments
           (length similarDocuments)).

Definition rag_search (uploaded : option file)
    (threshold_field limit_field : option string) (s : state)
  : search_response * state :=
  match uploaded with
  | None => (SearchRefused 400 "Fichier manquant pour la recherche.", s)
  | Some f =>
      if negb (includes "pdf" (mimetype f))
         && negb (String.prefix "image/" (mimetype f))
      then (SearchRefused 400
              "Type de fichier non supporté pour la recherche.", s)
      else
        match rag_search_steps f threshold_field limit_field s with
        | (Ok answer, s') => (answer, s')
        | (Throw _, s') =>
            (SearchRefused 500
               "Erreur lors de la recherche de similarité", s')
        end
  end.
End SearchEndpoint.

(** ** A search request, for the examples *)

(** The double [0.5]. *)
Definition c05 : @num binary64 := S754_finite false 4503599627370496 (-53).

Definition report_text : string :=
  "Rapport annuel 2024 : resultats, bilan financier et perspectives.".

Definition extract_report (f : file) : outcome string := Ok report_text.

(** MySQL cannot be reached. *)
Definition world_outage : @world binary64 :=
  {| sha256_hex := sha256_hex world0;
     ollama_embeddings := ollama_embeddings world0;
     summarize := summarize world0;
     parseFloat := parseFloat world0;
     parseInt := parseInt world0;
     query_fails := fun _ => true;
     now := now world0;
     committed_before_scan := [];
     committed_before_insert := [] |}.


(** * Properties *)

(** ** Lists *)

Lemma StronglySorted_weaken {T : Type} (P Q : T -> T -> Prop) (l : list T) :
  (forall a b, In a l -> In b l -> P a b -> Q a b) ->
  StronglySorted P l -> StronglySorted Q l.
Proof.
  intros HPQ Hs. induction Hs as [|a l Hs IH Hall]; constructor.
  - apply IH. intros x y Hx Hy. apply HPQ; now right.
  - rewrite Forall_forall in *. intros b Hb.
    apply HPQ; [now left | now right | now apply Hall].
Qed.

Lemma subseq_refl {T : Type} (l : list T) : subseq l l.
Proof. induction l; [constructor | now apply subseq_keep]. Qed.

Lemma subseq_nil_l {T : Type} (l : list T) : subseq [] l.
Proof. induction l; constructor; assumption. Qed.

Lemma subseq_trans {T : Type} (a b c : list T) :
  subseq a b -> subseq b c -> subseq a c.
Proof.
  intros Hab Hbc. revert a Hab.
  induction Hbc as [|x b c Hbc IH|x b c Hbc IH]; intros a Hab.
  - assumption.
  - constructor. now apply IH.
  - inversion Hab; subst.
    + apply subseq_skip. now apply IH.
    + apply subseq_keep. now apply IH.
Qed.

Lemma subseq_app {T : Type} (a1 b1 a2 b2 : list T) :
  subseq a1 b1 -> subseq a2 b2 -> subseq (a1 ++ a2) (b1 ++ b2).
Proof.
  intros H1 H2. induction H1; simpl.
  - assumption.
  - now apply subseq_skip.
  - now apply subseq_keep.
Qed.

Lemma subseq_filter {T : Type} (p : T -> bool) (a b : list T) :
  subseq a b -> subseq (filter p a) (filter p b).
Proof.
  intros H. induction H as [|x a b H IH|x a b H IH]; simpl.
  - constructor.
  - destruct (p x); [apply subseq_skip|]; assumption.
  - destruct (p x); [apply subseq_keep|]; assumption.
Qed.

Lemma subseq_firstn {T : Type} (n : nat) (l : list T) :
  subseq (firstn n l) l.
Proof.
  revert n. induction l as [|x l IH]; intros [|n]; simpl.
  - constructor.
  - constructor.
  - apply subseq_nil_l.
  - apply subseq_keep. apply IH.
Qed.

Lemma subseq_In {T : Type} (a b : list T) (x : T) :
  subseq a b -> In x a -> In x b.
Proof.
  intros H. induction H; simpl; intuition.
Qed.

Lemma StronglySorted_firstn {T : Type} (P : T -> T -> Prop) (n : nat)
    (l : list T) :
  StronglySorted P l -> StronglySorted P (firstn n l).
Proof.
  intros Hs. revert n.
  induction Hs as [|a l Hs IH Hall]; intros [|n]; simpl; try constructor.
  - apply IH.
  - rewrite Forall_forall in *. intros b Hb.
    apply Hall. apply subseq_In with (firstn n l); [apply subseq_firstn|].
    assumption.
Qed.

(** ** The stable sort *)

Section SortTheory.
Variable T : Type.
Variable after : T -> T -> bool.
Variable dom : T -> Prop.
Hypothesis after_asym :
  forall x y, dom x -> dom y -> after x y = true -> after y x = false.
Hypothesis before_trans :
  forall x y z, dom x -> dom y -> dom z ->
    after x y = false -> after y z = false -> after x z = false.

Lemma sort_insert_In (x : T) (l : list T) (z : T) :
  In z (sort_insert after x l) <-> z = x \/ In z l.
Proof.
  induction l as [|y l IH]; simpl.
  - intuition.
  - destruct (after x y); simpl; rewrite ?IH; intuition.
Qed.

Lemma stable_sort_In (l : list T) (z : T) :
  In z (stable_sort after l) <-> In z l.
Proof.
  induction l as [|x l IH]; simpl.
  - reflexivity.
  - rewrite sort_insert_In, IH. intuition.
Qed.

Lemma stable_sort_Forall (P : T -> Prop) (l : list T) :
  Forall P l -> Forall P (stable_sort after l).
Proof.
  rewrite !Forall_forall. intros H z Hz. apply H.
  now apply stable_sort_In.
Qed.

Lemma stable_sort_length (l : list T) :
  length (stable_sort after l) = length l.
Proof.
  induction l as [|x l IH]; simpl; [reflexivity|].
  rewrite <- IH. generalize (stable_sort after l). intros m.
  induction m as [|y m IHm]; simpl; [reflexivity|].
  destruct (after x y); simpl; congruence.
Qed.

(** The order of the input among the elements the comparator cannot
    tell apart. *)
Variable input_order : T -> T -> Prop.

Lemma sort_insert_placed (x : T) (m : list T) :
  Forall dom (x :: m) -> Forall (input_order x) m ->
  StronglySorted (placed after input_order) m ->
  StronglySorted (placed after input_order) (sort_insert after x m).
Proof.
  intros Hdom Hin Hs. induction Hs as [|y m Hs IH Hall]; simpl.
  - constructor; constructor.
  - inversion Hdom as [|? ? Hx Hdm]; subst.
    inversion Hdm as [|? ? Hy Hdm']; subst.
    inversion Hin as [|? ? Hxy Hin']; subst.
    destruct (after x y) eqn:E.
    + constructor.
      * apply IH; [constructor|]; assumption.
      * rewrite Forall_forall in *. intros z Hz.
        apply sort_insert_In in Hz. destruct Hz as [->|Hz].
        -- split; [now apply after_asym | congruence].
        -- now apply Hall.
    + constructor; [now constructor|].
      constructor; [split; auto|].
      rewrite Forall_forall in *. intros z Hz. split.
      * apply before_trans with y; auto. now apply Hall.
      * intros _. now apply Hin'.
Qed.

Lemma stable_sort_placed (l : list T) :
  Forall dom l -> StronglySorted input_order l ->
  StronglySorted (placed after input_order) (stable_sort after l).
Proof.
  intros Hdom Hs. induction Hs as [|x l Hs IH Hall]; simpl.
  - constructor.
  - inversion Hdom; subst. apply sort_insert_placed.
    + constructor; [assumption|]. now apply stable_sort_Forall.
    + now apply stable_sort_Forall.
    + now apply IH.
Qed.

(** In a sorted list the elements the new one goes after are a prefix. *)
Lemma sort_insert_split (x : T) (l : list T) :
  Forall dom (x :: l) ->
  StronglySorted (fun a b => after a b = false) l ->
  sort_insert after x l
  = filter (after x) l ++ x :: filter (fun y => negb (after x y)) l.
Proof.
  intros Hdom Hs. induction Hs as [|y l Hs IH Hall].
  - reflexivity.
  - inversion Hdom as [|? ? Hx Hdl]; subst.
    inversion Hdl as [|? ? Hy Hdl']; subst.
    simpl. destruct (after x y) eqn:E; simpl.
    + f_equal. apply IH. now constructor.
    + assert (Hno : forall z, In z l -> after x z = false).
      { intros z Hz. rewrite Forall_forall in *.
        apply before_trans with y; auto. }
      assert (F1 : filter (after x) l = []).
      { clear -Hno. induction l as [|z l IHl]; simpl; [reflexivity|].
        rewrite (Hno z) by now left. apply IHl.
        intros w Hw. apply Hno. now right. }
      assert (F2 : filter (fun y => negb (after x y)) l = l).
      { clear -Hno. induction l as [|z l IHl]; simpl; [reflexivity|].
        rewrite (Hno z) by now left. simpl. f_equal. apply IHl.
        intros w Hw. apply Hno. now right. }
      now rewrite F1, F2.
Qed.
End SortTheory.

Section SortPrefix.
Variable T : Type.
Variable after : T -> T -> bool.
Variable dom : T -> Prop.
Hypothesis after_asym :
  forall x y, dom x -> dom y -> after x y = true -> after y x = false.
Hypothesis before_trans :
  forall x y z, dom x -> dom y -> dom z ->
    after x y = false -> after y z = false -> after x z = false.

Let sorted : list T -> Prop :=
  StronglySorted (fun a b => after a b = false).

Lemma stable_sort_sorted (l : list T) :
  Forall dom l -> sorted (stable_sort after l).
Proof.
  intros Hdom.
  apply StronglySorted_weaken
    with (P := placed after (fun _ _ => True)).
  - intros a b _ _ [H _]. exact H.
  - apply stable_sort_placed with (dom := dom); try assumption.
    clear. induction l as [|x l IH]; constructor; [assumption|].
    rewrite Forall_forall. trivial.
Qed.

Lemma sort_insert_subseq (x : T) (a b : list T) :
  Forall dom (x :: b) -> subseq a b -> sorted a -> sorted b ->
  subseq (sort_insert after x a) (sort_insert after x b).
Proof.
  intros Hdom Hab Ha Hb.
  assert (Hda : Forall dom (x :: a)).
  { inversion Hdom; subst. constructor; [assumption|].
    rewrite Forall_forall in *. intros z Hz.
    eauto using subseq_In. }
  rewrite (@sort_insert_split T after dom before_trans x a Hda Ha).
  rewrite (@sort_insert_split T after dom before_trans x b Hdom Hb).
  apply subseq_app; [now apply subseq_filter|].
  apply subseq_keep. now apply subseq_filter.
Qed.

Lemma stable_sort_prefix (l1 l2 : list T) :
  Forall dom (l1 ++ l2) ->
  subseq (stable_sort after l1) (stable_sort after (l1 ++ l2)).
Proof.
  induction l1 as [|x l1 IH]; intros Hdom; simpl.
  - apply subseq_nil_l.
  - simpl in Hdom. inversion Hdom as [|? ? Hx Hrest]; subst.
    assert (H1 : Forall dom l1).
    { rewrite Forall_app in Hrest. tauto. }
    apply sort_insert_subseq.
    + constructor; [assumption|].
      now apply stable_sort_Forall.
    + now apply IH.
    + now apply stable_sort_sorted.
    + now apply stable_sort_sorted.
Qed.

(** An element every other one sorts after ends up first, wherever it
    was pushed. *)
Lemma stable_sort_snoc_top (l : list T) (t : T) :
  Forall (fun x => after x t = true) l ->
  stable_sort after (l ++ [t]) = t :: stable_sort after l.
Proof.
  induction 1 as [|x l Hx Hall IH]; simpl.
  - reflexivity.
  - rewrite IH. simpl. now rewrite Hx.
Qed.
End SortPrefix.





(** ** The scan *)

Section ScanFacts.
Context {A : Arith}.
Variable embedding0 : jsvalue num.
Variable threshold : num.

Let entry (d : document) : similar := similar_of d (score_of embedding0 d).
Let kept (d : document) : bool := num_ge (score_of embedding0 d) threshold.

Lemma scan_acc (rows : list document) (acc : list similar) :
  scan embedding0 threshold rows acc
  = acc ++ scan embedding0 threshold rows [].
Proof.
  revert acc. induction rows as [|d rows IH]; intros acc; simpl.
  - now rewrite app_nil_r.
  - destruct (num_ge _ threshold).
    + destruct (num_gt _ num_095); [reflexivity|].
      rewrite IH. rewrite (IH [_]). now rewrite app_assoc.
    + apply IH.
Qed.

Lemma scan_full_acc (rows : list document) (acc : list similar) :
  scan_full embedding0 threshold rows acc
  = acc ++ scan_full embedding0 threshold rows [].
Proof.
  revert acc. induction rows as [|d rows IH]; intros acc; simpl.
  - now rewrite app_nil_r.
  - destruct (num_ge _ threshold).
    + rewrite IH. rewrite (IH [_]). now rewrite app_assoc.
    + apply IH.
Qed.

Lemma scan_full_filter (rows : list document) :
  scan_full embedding0 threshold rows [] = map entry (filter kept rows).
Proof.
  induction rows as [|d rows IH]; simpl; [reflexivity|].
  unfold kept at 1. destruct (num_ge _ threshold) eqn:E.
  - rewrite scan_full_acc, IH. reflexivity.
  - apply IH.
Qed.

Lemma scan_full_app (pre post : list document) :
  scan_full embedding0 threshold (pre ++ post) []
  = scan_full embedding0 threshold pre []
    ++ scan_full embedding0 threshold post [].
Proof.
  rewrite !scan_full_filter, filter_app, map_app. reflexivity.
Qed.

(** The early exit only cuts the scan short. *)
Lemma scan_prefix (rows : list document) :
  exists rest,
    scan_full embedding0 threshold rows []
    = scan embedding0 threshold rows [] ++ rest.
Proof.
  induction rows as [|d rows [rest IH]]; simpl.
  - now exists [].
  - unfold score_of. destruct (num_ge _ threshold).
    + destruct (num_gt _ num_095).
      * exists (scan_full embedding0 threshold rows []).
        now rewrite scan_full_acc.
      * exists rest. rewrite scan_full_acc, scan_acc, IH.
        now rewrite app_assoc.
    + now exists rest.
Qed.

Lemma scan_entries (rows : list document) (r : similar) :
  In r (scan embedding0 threshold rows []) ->
  exists d, In d rows /\ r = entry d /\ kept d = true.
Proof.
  intros Hr. destruct (scan_prefix rows) as [rest Hrest].
  assert (Hin : In r (scan_full embedding0 threshold rows [])).
  { rewrite Hrest. apply in_or_app. now left. }
  rewrite scan_full_filter in Hin. apply in_map_iff in Hin.
  destruct Hin as [d [<- Hd]]. apply filter_In in Hd.
  exists d. tauto.
Qed.



(** The scan up to the row that stops it. *)
Lemma scan_stops (pre post : list document) (d : document) :
  Forall (fun x => triggers embedding0 threshold x = false) pre ->
  triggers embedding0 threshold d = true ->
  scan embedding0 threshold (pre ++ d :: post) []
  = scan_full embedding0 threshold pre [] ++ [entry d].
Proof.
  intros Hpre Hd. induction Hpre as [|x pre Hx Hpre IH]; simpl.
  - unfold triggers, score_of in Hd. apply andb_prop in Hd.
    destruct Hd as [-> ->]. reflexivity.
  - unfold triggers, score_of in Hx. unfold score_of.
    destruct (num_ge _ threshold); simpl in Hx.
    + rewrite Hx. rewrite scan_acc, scan_full_acc, IH.
      now rewrite app_assoc.
    + exact IH.
Qed.

Lemma scan_never_stops (rows : list document) :
  Forall (fun x => triggers embedding0 threshold x = false) rows ->
  scan embedding0 threshold rows []
  = scan_full embedding0 threshold rows [].
Proof.
  induction 1 as [|x rows Hx Hrows IH]; simpl; [reflexivity|].
  unfold triggers, score_of in Hx. unfold score_of.
  destruct (num_ge _ threshold); simpl in Hx.
  - rewrite Hx. now rewrite scan_acc, scan_full_acc, IH.
  - exact IH.
Qed.
End ScanFacts.

(** ** Consistency of the comparator *)

Section Consistency.
Context {A : Arith}.


Lemma consistent_on_incl (l l' : list num) :
  (forall x, In x l' -> In x l) -> consistent_on l -> consistent_on l'.
Proof.
  intros Hincl H x y Hx Hy.
  destruct (H x y (Hincl x Hx) (Hincl y Hy)) as (H1 & H2 & H3 & H4).
  repeat split; try assumption.
  intros z Hz. apply H4. now apply Hincl.
Qed.

Variable scores : list num.
Hypothesis Hcons : consistent_on scores.

Let known (r : similar) : Prop := In (similarity_score r) scores.

Lemma sorts_after_ge (a b : similar) :
  known a -> known b ->
  sorts_after a b
  = negb (num_ge (similarity_score a) (similarity_score b)).
Proof.
  intros Ha Hb. unfold sorts_after, comparefn.
  destruct (Hcons _ _ Hb Ha) as (_ & H2 & H3 & _).
  now rewrite H3, H2.
Qed.

Lemma sorts_after_asym (x y : similar) :
  known x -> known y ->
  sorts_after x y = true -> sorts_after y x = false.
Proof.
  intros Hx Hy. rewrite !sorts_after_ge by assumption.
  destruct (Hcons _ _ Hx Hy) as ([H|H] & _); rewrite H; simpl; congruence.
Qed.

Lemma sorts_before_trans (x y z : similar) :
  known x -> known y -> known z ->
  sorts_after x y = false -> sorts_after y z = false ->
  sorts_after x z = false.
Proof.
  intros Hx Hy Hz. rewrite !sorts_after_ge by assumption.
  rewrite !negb_false_iff. intros Hxy Hyz.
  destruct (Hcons _ _ Hx Hy) as (_ & _ & _ & H4). now apply H4.
Qed.

(** Scores on the two sides of 0.95 are strictly ordered. *)
Lemma sorts_after_across (x t : similar) :
  In num_095 scores -> known x -> known t ->
  num_gt (similarity_score x) num_095 = false ->
  num_gt (similarity_score t) num_095 = true ->
  sorts_after x t = true.
Proof.
  intros Hc Hx Ht Hlow Hhigh. rewrite sorts_after_ge by assumption.
  destruct (Hcons _ _ Hx Hc) as (_ & H2 & _ & _).
  destruct (Hcons _ _ Ht Hc) as (_ & H2' & _ & _).
  destruct (Hcons _ _ Hc Hx) as (_ & _ & _ & H4).
  rewrite H2 in Hlow. rewrite H2' in Hhigh.
  apply negb_false_iff in Hlow. apply negb_true_iff in Hhigh.
  destruct (num_ge (similarity_score x) (similarity_score t)) eqn:E;
    [|reflexivity].
  rewrite (H4 _ Ht Hlow E) in Hhigh. discriminate.
Qed.
End Consistency.

Unset Implicit Arguments.

(** ** Doubles: what rounding returns *)

Section Doubles.
Let fexp := SpecFloat.fexp B64.prec B64.emax.

Lemma fexp_value (e : Z) : fexp e = Z.max (e - 53) (-1074).
Proof. reflexivity. Qed.

Lemma pow2_step (d : Z) : 0 < d -> 2 ^ d = 2 * 2 ^ (d - 1).
Proof.
  intros Hd. replace d with (Z.succ (d - 1)) at 1 by lia.
  apply Z.pow_succ_r. lia.
Qed.

Lemma digits2_pos_bounds (p : positive) :
  2 ^ (Zpos (digits2_pos p) - 1) <= Zpos p < 2 ^ Zpos (digits2_pos p).
Proof.
  assert (Hstep : forall d x, 0 < d -> 2 ^ (d - 1) <= x < 2 ^ d ->
            (2 ^ (d + 1 - 1) <= 2 * x + 1 < 2 ^ (d + 1))
            /\ (2 ^ (d + 1 - 1) <= 2 * x < 2 ^ (d + 1))).
  { intros d x Hd Hx.
    replace (d + 1 - 1) with d by lia.
    rewrite (pow2_step (d + 1)) by lia.
    replace (d + 1 - 1) with d by lia.
    rewrite (pow2_step d) in * by lia. lia. }
  induction p as [p IH|p IH|]; simpl digits2_pos.
  - rewrite Pos2Z.inj_succ. unfold Z.succ.
    change (Zpos p~1) with (2 * Zpos p + 1).
    apply (proj1 (Hstep (Zpos (digits2_pos p)) (Zpos p) ltac:(lia) IH)).
  - rewrite Pos2Z.inj_succ. unfold Z.succ.
    change (Zpos p~0) with (2 * Zpos p).
    apply (proj2 (Hstep (Zpos (digits2_pos p)) (Zpos p) ltac:(lia) IH)).
  - simpl. lia.
Qed.

Lemma Zdigits2_bounds (m : Z) :
  0 < m -> 2 ^ (Zdigits2 m - 1) <= m < 2 ^ Zdigits2 m.
Proof.
  destruct m as [|p|p]; try lia. intros _. apply digits2_pos_bounds.
Qed.

Lemma Zdigits2_pos (m : Z) : 0 < m -> 0 < Zdigits2 m.
Proof. destruct m; simpl; lia. Qed.

Lemma Zdigits2_nonneg (m : Z) : 0 <= Zdigits2 m.
Proof. destruct m; simpl; lia. Qed.

Lemma Zdigits2_unique (m k : Z) :
  0 < m -> 2 ^ (k - 1) <= m < 2 ^ k -> Zdigits2 m = k.
Proof.
  intros Hm [Hlo Hhi].
  pose proof (Zdigits2_bounds m Hm) as [Dlo Dhi].
  pose proof (Zdigits2_pos m Hm) as Dpos.
  assert (0 < k).
  { destruct (Z_lt_le_dec 0 k) as [|Hk]; [assumption|].
    assert (2 ^ k <= 1).
    { destruct (Z.eq_dec k 0) as [->|]; [simpl; lia|].
      rewrite Z.pow_neg_r by lia. lia. }
    lia. }
  destruct (Z_lt_le_dec (Zdigits2 m) k) as [Hlt|Hge].
  - assert (2 ^ Zdigits2 m <= 2 ^ (k - 1))
      by (apply Z.pow_le_mono_r; lia).
    lia.
  - destruct (Z_lt_le_dec k (Zdigits2 m)) as [Hlt|Hle]; [|lia].
    assert (2 ^ k <= 2 ^ (Zdigits2 m - 1))
      by (apply Z.pow_le_mono_r; lia).
    lia.
Qed.

Lemma Zdigits2_mono (a b : Z) :
  0 <= a <= b -> Zdigits2 a <= Zdigits2 b.
Proof.
  intros [Ha Hab].
  destruct (Z.eq_dec a 0) as [->|Hne];
    [simpl; apply Zdigits2_nonneg|].
  assert (0 < a) by lia. assert (0 < b) by lia.
  pose proof (Zdigits2_bounds a ltac:(assumption)) as [Alo Ahi].
  pose proof (Zdigits2_bounds b ltac:(assumption)) as [Blo Bhi].
  destruct (Z_lt_le_dec (Zdigits2 b) (Zdigits2 a)) as [Hlt|]; [|lia].
  assert (2 ^ Zdigits2 b <= 2 ^ (Zdigits2 a - 1)).
  { apply Z.pow_le_mono_r; [lia|].
    pose proof (Zdigits2_pos b ltac:(assumption)). lia. }
  lia.
Qed.

Lemma Zdigits2_div (m n : Z) :
  0 < m -> 0 <= n < Zdigits2 m ->
  0 < m / 2 ^ n /\ Zdigits2 (m / 2 ^ n) = Zdigits2 m - n.
Proof.
  intros Hm Hn.
  pose proof (Zdigits2_bounds m Hm) as [Dlo Dhi].
  assert (Hp : 0 < 2 ^ n) by (apply Z.pow_pos_nonneg; lia).
  assert (Hlo : 2 ^ (Zdigits2 m - n - 1) <= m / 2 ^ n).
  { apply Z.div_le_lower_bound; [exact Hp|].
    rewrite <- Z.pow_add_r by lia.
    replace (n + (Zdigits2 m - n - 1)) with (Zdigits2 m - 1) by lia.
    exact Dlo. }
  assert (Hhi : m / 2 ^ n < 2 ^ (Zdigits2 m - n)).
  { apply Z.div_lt_upper_bound; [exact Hp|].
    rewrite <- Z.pow_add_r by lia.
    replace (n + (Zdigits2 m - n)) with (Zdigits2 m) by lia.
    exact Dhi. }
  assert (Hpos : 0 < m / 2 ^ n).
  { assert (0 < 2 ^ (Zdigits2 m - n - 1))
      by (apply Z.pow_pos_nonneg; lia).
    lia. }
  split; [exact Hpos|].
  apply Zdigits2_unique; [exact Hpos|]. split; [exact Hlo | exact Hhi].
Qed.

Lemma Zdigits2_mul (m n : Z) :
  0 < m -> 0 <= n -> Zdigits2 (m * 2 ^ n) = Zdigits2 m + n.
Proof.
  intros Hm Hn.
  pose proof (Zdigits2_bounds m Hm) as [Dlo Dhi].
  pose proof (Zdigits2_pos m Hm) as Dpos.
  assert (Hp : 0 < 2 ^ n) by (apply Z.pow_pos_nonneg; lia).
  apply Zdigits2_unique; [nia|].
  replace (Zdigits2 m + n - 1) with ((Zdigits2 m - 1) + n) by lia.
  rewrite !Z.pow_add_r by lia. nia.
Qed.

(** The right shift of the rounding functions is a division. *)
Lemma shr_1_m (r : shr_record) :
  0 <= shr_m r -> shr_m (shr_1 r) = shr_m r / 2.
Proof.
  destruct r as [m b s]. simpl. intros Hm.
  destruct m as [|p|p]; [reflexivity| |lia].
  rewrite <- Z.div2_div. destruct p; reflexivity.
Qed.

Lemma pow2_xO (n : positive) : 2 ^ Zpos n~0 = 2 ^ Zpos n * 2 ^ Zpos n.
Proof.
  change (Zpos n~0) with (2 * Zpos n).
  replace (2 * Zpos n) with (Zpos n + Zpos n) by lia.
  apply Z.pow_add_r; lia.
Qed.

Lemma pow2_xI (n : positive) :
  2 ^ Zpos n~1 = 2 * (2 ^ Zpos n * 2 ^ Zpos n).
Proof.
  change (Zpos n~1) with (2 * Zpos n + 1).
  replace (2 * Zpos n + 1) with (Z.succ (Zpos n + Zpos n)) by lia.
  rewrite Z.pow_succ_r by lia. f_equal. apply Z.pow_add_r; lia.
Qed.

Lemma iter_pos_shr (n : positive) :
  forall r, 0 <= shr_m r ->
    shr_m (iter_pos shr_1 n r) = shr_m r / 2 ^ Zpos n.
Proof.
  assert (Hdiv : forall a k, 0 <= a -> 0 < k -> 0 <= a / k)
    by (intros; apply Z.div_pos; lia).
  induction n as [n IH|n IH|]; intros r Hr; simpl iter_pos.
  - assert (H1 : 0 <= shr_m (shr_1 r))
      by (rewrite shr_1_m by exact Hr; apply Hdiv; lia).
    assert (Hp : 0 < 2 ^ Zpos n) by (apply Z.pow_pos_nonneg; lia).
    assert (H2 : 0 <= shr_m (iter_pos shr_1 n (shr_1 r)))
      by (rewrite IH by exact H1; apply Hdiv; [exact H1 | exact Hp]).
    rewrite IH by exact H2. rewrite IH by exact H1.
    rewrite shr_1_m by exact Hr.
    rewrite !Z.div_div by lia.
    f_equal. rewrite pow2_xI. lia.
  - assert (Hp : 0 < 2 ^ Zpos n) by (apply Z.pow_pos_nonneg; lia).
    assert (H2 : 0 <= shr_m (iter_pos shr_1 n r))
      by (rewrite IH by exact Hr; apply Hdiv; [exact Hr | exact Hp]).
    rewrite IH by exact H2. rewrite IH by exact Hr.
    rewrite Z.div_div by lia.
    f_equal. now rewrite pow2_xO.
  - rewrite shr_1_m by exact Hr. reflexivity.
Qed.

Lemma shr_record_of_loc_m (m : Z) (l : location) :
  shr_m (shr_record_of_loc m l) = m.
Proof. destruct l as [|[| |]]; reflexivity. Qed.

(** [shr_fexp] on a mantissa that has at least the digits its exponent
    asks for: the exponent becomes the canonical one and the mantissa is
    divided accordingly. *)
Lemma shr_fexp_spec (m e : Z) (l : location) :
  0 <= m -> e <= fexp (Zdigits2 m + e) ->
  snd (shr_fexp B64.prec B64.emax m e l) = fexp (Zdigits2 m + e)
  /\ shr_m (fst (shr_fexp B64.prec B64.emax m e l))
     = m / 2 ^ (fexp (Zdigits2 m + e) - e).
Proof.
  intros Hm He. unfold shr_fexp, shr. fold fexp.
  destruct (fexp (Zdigits2 m + e) - e) as [|n|n] eqn:En; try lia.
  - simpl. rewrite shr_record_of_loc_m. split; [lia|].
    now rewrite Z.div_1_r.
  - simpl fst. simpl snd. split; [lia|].
    rewrite iter_pos_shr by (rewrite shr_record_of_loc_m; exact Hm).
    now rewrite shr_record_of_loc_m.
Qed.

Lemma round_nearest_even_bounds (m : Z) (l : location) :
  m <= round_nearest_even m l <= m + 1.
Proof.
  destruct l as [|[| |]]; simpl; try lia.
  destruct (Z.even m); lia.
Qed.

(** The result of [binary_round_aux] is a valid double, and a mantissa
    that the first shift does not use up gives a number that is not zero,
    with the sign asked for. *)
Lemma binary_round_aux_spec (sx : bool) (mx ex : Z) (lx : location) :
  0 <= mx -> ex <= fexp (Zdigits2 mx + ex) ->
  let z := binary_round_aux B64.prec B64.emax sx mx ex lx in
  valid_binary B64.prec B64.emax z = true
  /\ (fexp (Zdigits2 mx + ex) - ex < Zdigits2 mx ->
      (exists m e, z = S754_finite sx m e) \/ z = S754_infinity sx).
Proof.
  intros Hm He. cbv zeta. unfold binary_round_aux.
  pose proof (shr_fexp_spec mx ex lx Hm He) as [E1 M1].
  destruct (shr_fexp B64.prec B64.emax mx ex lx) as [r1 e1].
  simpl in E1, M1.
  remember (fexp (Zdigits2 mx + ex) - ex) as n1 eqn:En1.
  assert (Hn1 : 0 <= n1) by lia.
  assert (Hp1 : 0 < 2 ^ n1) by (apply Z.pow_pos_nonneg; lia).
  assert (Hm1 : 0 <= shr_m r1) by (rewrite M1; apply Z.div_pos; lia).
  pose proof (round_nearest_even_bounds (shr_m r1) (loc_of_shr_record r1))
    as Hround.
  set (m2 := round_nearest_even (shr_m r1) (loc_of_shr_record r1)) in *.
  assert (Hm2 : 0 <= m2) by lia.
  assert (He2 : e1 <= fexp (Zdigits2 m2 + e1)).
  { destruct (Z_lt_le_dec n1 (Zdigits2 mx)) as [Hlt|Hge].
    - assert (Hmx : 0 < mx).
      { destruct mx; simpl in Hlt; lia. }
      destruct (Zdigits2_div mx n1 Hmx (conj Hn1 Hlt)) as [Hpos Hd].
      rewrite <- M1 in Hpos, Hd.
      assert (Zdigits2 (shr_m r1) <= Zdigits2 m2)
        by (apply Zdigits2_mono; lia).
      rewrite !fexp_value in *. lia.
    - rewrite !fexp_value in *.
      pose proof (Zdigits2_nonneg mx). pose proof (Zdigits2_nonneg m2).
      lia. }
  pose proof (shr_fexp_spec m2 e1 loc_Exact Hm2 He2) as [E2 M2].
  destruct (shr_fexp B64.prec B64.emax m2 e1 loc_Exact) as [r2 e2].
  simpl in E2, M2.
  remember (fexp (Zdigits2 m2 + e1) - e1) as n2 eqn:En2.
  assert (Hn2 : 0 <= n2) by lia.
  assert (Hp2 : 0 < 2 ^ n2) by (apply Z.pow_pos_nonneg; lia).
  assert (Hm3 : 0 <= shr_m r2) by (rewrite M2; apply Z.div_pos; lia).
  split.
  - destruct (shr_m r2) as [|m3|m3] eqn:E3; [reflexivity| |lia].
    destruct (e2 <=? B64.emax - B64.prec) eqn:Hle; [|reflexivity].
    simpl. unfold bounded, canonical_mantissa. rewrite Hle.
    rewrite andb_true_r. apply Z.eqb_eq. fold fexp.
    destruct (Z_lt_le_dec n2 (Zdigits2 m2)) as [Hlt|Hge].
    + assert (Hm2' : 0 < m2).
      { destruct m2; simpl in Hlt; lia. }
      destruct (Zdigits2_div m2 n2 Hm2' (conj Hn2 Hlt)) as [_ Hd].
      rewrite <- M2 in Hd. simpl in Hd. rewrite Hd.
      replace (Zdigits2 m2 - n2 + e2) with (Zdigits2 m2 + e1) by lia.
      lia.
    + exfalso.
      assert (m2 / 2 ^ n2 = 0).
      { apply Z.div_small. split; [exact Hm2|].
        destruct (Z.eq_dec m2 0) as [->|Hne];
          [apply Z.pow_pos_nonneg; lia|].
        pose proof (Zdigits2_bounds m2 ltac:(lia)) as [_ Hhi].
        assert (2 ^ Zdigits2 m2 <= 2 ^ n2)
          by (apply Z.pow_le_mono_r; lia).
        lia. }
      lia.
  - intros Hlt.
    assert (Hmx : 0 < mx).
    { destruct mx; simpl in Hlt; lia. }
    destruct (Zdigits2_div mx n1 Hmx (conj Hn1 Hlt)) as [Hpos Hd].
    rewrite <- M1 in Hpos.
    assert (Hm2' : 0 < m2) by lia.
    assert (Hlt2 : n2 < Zdigits2 m2).
    { pose proof (Zdigits2_pos m2 Hm2').
      rewrite !fexp_value in *. lia. }
    destruct (Zdigits2_div m2 n2 Hm2' (conj Hn2 Hlt2)) as [Hpos3 _].
    rewrite <- M2 in Hpos3.
    destruct (shr_m r2) as [|m3|m3]; [lia| |lia].
    destruct (e2 <=? B64.emax - B64.prec).
    + left. eauto.
    + now right.
Qed.

Lemma fexp_mono (a b : Z) : a <= b -> fexp a <= fexp b.
Proof. intros H. rewrite !fexp_value. lia. Qed.

(** The quotient of two doubles is a valid double. *)
Lemma SFdiv_core_binary_spec (m1 m2 : positive) (e1 e2 : Z) :
  let '(q, e, l) :=
    SFdiv_core_binary B64.prec B64.emax (Zpos m1) e1 (Zpos m2) e2 in
  0 <= q /\ e <= fexp (Zdigits2 q + e).
Proof.
  unfold SFdiv_core_binary. fold fexp.
  set (d1 := Zdigits2 (Zpos m1)). set (d2 := Zdigits2 (Zpos m2)).
  set (e' := Z.min (fexp (d1 + e1 - (d2 + e2))) (e1 - e2)).
  set (sh := e1 - e2 - e').
  assert (Hsh : 0 <= sh) by (unfold sh, e'; lia).
  set (m' := match sh with
             | Z0 => Zpos m1
             | Zpos _ => Z.shiftl (Zpos m1) sh
             | Zneg _ => 0
             end).
  assert (Hm' : m' = Zpos m1 * 2 ^ sh).
  { unfold m'. destruct sh as [|p|p] eqn:E; [simpl; lia| |lia].
    now rewrite Z.shiftl_mul_pow2 by lia. }
  assert (Hq : Z.div_eucl m' (Zpos m2) = (m' / Zpos m2, m' mod Zpos m2)).
  { unfold Z.div, Z.modulo. now destruct (Z.div_eucl m' (Zpos m2)). }
  rewrite Hq.
  assert (Hp : 0 < 2 ^ sh) by (apply Z.pow_pos_nonneg; lia).
  assert (Hq0 : 0 <= m' / Zpos m2) by (apply Z.div_pos; lia).
  split; [exact Hq0|].
  pose proof (Zdigits2_bounds (Zpos m1) ltac:(lia)) as [L1 U1].
  pose proof (Zdigits2_bounds (Zpos m2) ltac:(lia)) as [L2 U2].
  fold d1 in L1, U1. fold d2 in L2, U2.
  assert (D1 : 0 < d1) by (unfold d1; simpl; lia).
  assert (D2 : 0 < d2) by (unfold d2; simpl; lia).
  destruct (Z_lt_le_dec 0 (d1 + sh - d2)) as [Hbig|Hsmall].
  - (* the quotient has at least [d1 + sh - d2] digits *)
    assert (Hlow : 2 ^ (d1 + sh - d2 - 1) <= m' / Zpos m2).
    { apply Z.div_le_lower_bound; [lia|].
      assert (Zpos m2 * 2 ^ (d1 + sh - d2 - 1)
              <= 2 ^ d2 * 2 ^ (d1 + sh - d2 - 1)).
      { apply Z.mul_le_mono_nonneg_r; [|lia].
        apply Z.pow_nonneg. lia. }
      rewrite <- Z.pow_add_r in H by lia.
      replace (d2 + (d1 + sh - d2 - 1)) with ((d1 - 1) + sh) in H by lia.
      rewrite Z.pow_add_r in H by lia.
      rewrite Hm'. nia. }
    assert (Hqpos : 0 < m' / Zpos m2).
    { assert (0 < 2 ^ (d1 + sh - d2 - 1))
        by (apply Z.pow_pos_nonneg; lia).
      lia. }
    assert (Hdig : d1 + sh - d2 <= Zdigits2 (m' / Zpos m2)).
    { pose proof (Zdigits2_bounds _ Hqpos) as [_ Uq].
      destruct (Z_lt_le_dec (Zdigits2 (m' / Zpos m2)) (d1 + sh - d2))
        as [Hlt|]; [|lia].
      assert (2 ^ Zdigits2 (m' / Zpos m2) <= 2 ^ (d1 + sh - d2 - 1)).
      { apply Z.pow_le_mono_r; [lia|]. lia. }
      lia. }
    eapply Z.le_trans; [apply Z.le_min_l|].
    apply fexp_mono. unfold sh in Hdig. lia.
  - pose proof (Zdigits2_nonneg (m' / Zpos m2)).
    unfold sh in Hsmall. unfold e' in *.
    rewrite !fexp_value in *. lia.
Qed.

Lemma valid_SFdiv (x y : spec_float) :
  valid_binary B64.prec B64.emax (SFdiv B64.prec B64.emax x y) = true.
Proof.
  destruct x as [sx|sx| |sx mx ex], y as [sy|sy| |sy my ey];
    try reflexivity.
  unfold SFdiv.
  pose proof (SFdiv_core_binary_spec mx my ex ey) as H.
  destruct (SFdiv_core_binary B64.prec B64.emax (Zpos mx) ex (Zpos my) ey)
    as [[q e] l].
  destruct H as [Hq He].
  apply (binary_round_aux_spec (xorb sx sy) q e l Hq He).
Qed.

(** A number that is not zero, at an exponent that is not below the least
    one, rounds to a number that is not zero, of the same sign. *)
Lemma iter_xO (k : positive) :
  forall m, Zpos (Pos.iter xO m k) = Zpos m * 2 ^ Zpos k.
Proof.
  induction k as [k IH|k IH|]; intros m; simpl Pos.iter.
  - rewrite (Pos2Z.inj_xO (Pos.iter xO (Pos.iter xO m k) k)).
    rewrite !IH. rewrite pow2_xI. lia.
  - rewrite !IH. rewrite pow2_xO. lia.
  - rewrite (Pos2Z.inj_xO m). simpl (2 ^ 1). lia.
Qed.

Lemma shl_align_spec (m : positive) (e e' : Z) :
  let '(mz, ez) := shl_align m e e' in
  ez = Z.min e e' /\ Zpos mz = Zpos m * 2 ^ (e - ez).
Proof.
  unfold shl_align.
  destruct (e' - e) as [|d|d] eqn:E.
  - split; [lia|]. replace (e - e) with 0 by lia. simpl. lia.
  - split; [lia|]. replace (e - e) with 0 by lia. simpl. lia.
  - split; [lia|].
    replace (e - e') with (Zpos d) by lia. apply iter_xO.
Qed.

Lemma binary_round_sign (s : bool) (m : positive) (e : Z) :
  -1074 <= e ->
  (exists m' e', binary_round B64.prec B64.emax s m e = S754_finite s m' e')
  \/ binary_round B64.prec B64.emax s m e = S754_infinity s.
Proof.
  intros He. unfold binary_round. fold fexp.
  pose proof (shl_align_spec m e (fexp (Zpos (digits2_pos m) + e))) as H.
  destruct (shl_align m e (fexp (Zpos (digits2_pos m) + e))) as [mz ez].
  destruct H as [Hez Hmz].
  assert (Hsh : 0 <= e - ez) by lia.
  assert (Hdig : Zdigits2 (Zpos mz) + ez = Zpos (digits2_pos m) + e).
  { rewrite Hmz. rewrite Zdigits2_mul by lia.
    change (Zdigits2 (Zpos m)) with (Zpos (digits2_pos m)). lia. }
  assert (Hd : 0 < Zpos (digits2_pos m)) by lia.
  apply (binary_round_aux_spec s (Zpos mz) ez loc_Exact).
  - lia.
  - rewrite Hdig. rewrite !fexp_value in *. lia.
  - rewrite Hdig.
    assert (Zdigits2 (Zpos mz) = Zpos (digits2_pos m) + e - ez) by lia.
    rewrite !fexp_value in *. lia.
Qed.

(** ** Doubles: the order *)

Lemma bounded_range (m : positive) (e : Z) :
  bounded B64.prec B64.emax m e = true ->
  -1074 <= e <= 971
  /\ Zpos m < 2 ^ 53
  /\ (-1074 < e -> 2 ^ 52 <= Zpos m).
Proof.
  unfold bounded, canonical_mantissa. intros H.
  apply andb_true_iff in H. destruct H as [Hc He].
  apply Z.eqb_eq in Hc. apply Z.leb_le in He. fold fexp in Hc.
  rewrite fexp_value in Hc.
  pose proof (digits2_pos_bounds m) as [Lo Hi].
  unfold B64.emax, B64.prec in He.
  split; [lia|]. split.
  - assert (2 ^ Zpos (digits2_pos m) <= 2 ^ 53)
      by (apply Z.pow_le_mono_r; lia).
    lia.
  - intros Hn. replace (Zpos (digits2_pos m)) with 53 in Lo by lia.
    exact Lo.
Qed.

Lemma key_finite (s : bool) (m : positive) (e : Z) :
  bounded B64.prec B64.emax m e = true ->
  let k := (e + 1075) * 2 ^ 53 + Zpos m in
  2 ^ 53 < k < 2 ^ 64.
Proof.
  intros H. destruct (bounded_range m e H) as (He & Hm & _).
  cbv zeta. change (2 ^ 53) with 9007199254740992 in *.
  change (2 ^ 64) with 18446744073709551616. lia.
Qed.

Lemma SFcompare_key (x y : spec_float) :
  ordered_double x = true -> ordered_double y = true ->
  SFcompare x y = Some (key x ?= key y).
Proof.
  unfold ordered_double.
  destruct x as [sx|sx| |sx mx ex], y as [sy|sy| |sy my ey];
    simpl valid_binary; rewrite ?andb_false_r, ?andb_true_r;
    try discriminate; intros Hx Hy.
  - reflexivity.
  - destruct sy; reflexivity.
  - pose proof (key_finite sy my ey Hy) as K. cbv zeta in K.
    simpl SFcompare. unfold key. change (2 ^ 53) with 9007199254740992 in *.
    f_equal. symmetry. destruct sy.
    + apply Z.compare_gt_iff. lia.
    + apply Z.compare_lt_iff. lia.
  - destruct sx; reflexivity.
  - destruct sx, sy; reflexivity.
  - pose proof (key_finite sy my ey Hy) as K. cbv zeta in K.
    simpl SFcompare. unfold key.
    change (2 ^ 53) with 9007199254740992 in *.
    change (2 ^ 64) with 18446744073709551616 in *.
    change (2 ^ 70) with 1180591620717411303424.
    f_equal. symmetry. destruct sx, sy;
      first [apply Z.compare_gt_iff; lia | apply Z.compare_lt_iff; lia].
  - pose proof (key_finite sx mx ex Hx) as K. cbv zeta in K.
    simpl SFcompare. unfold key. change (2 ^ 53) with 9007199254740992 in *.
    f_equal. symmetry. destruct sx.
    + apply Z.compare_lt_iff. lia.
    + apply Z.compare_gt_iff. lia.
  - pose proof (key_finite sx mx ex Hx) as K. cbv zeta in K.
    simpl SFcompare. unfold key.
    change (2 ^ 53) with 9007199254740992 in *.
    change (2 ^ 64) with 18446744073709551616 in *.
    change (2 ^ 70) with 1180591620717411303424.
    f_equal. symmetry. destruct sx, sy;
      first [apply Z.compare_gt_iff; lia | apply Z.compare_lt_iff; lia].
  - pose proof (key_finite sx mx ex Hx) as Kx. cbv zeta in Kx.
    pose proof (key_finite sy my ey Hy) as Ky. cbv zeta in Ky.
    destruct (bounded_range mx ex Hx) as (Ex & Mx & _).
    destruct (bounded_range my ey Hy) as (Ey & My & _).
    simpl SFcompare. unfold key.
    change (2 ^ 53) with 9007199254740992 in *.
    change (Pos.compare_cont Eq mx my) with (Pos.compare mx my).
    f_equal. symmetry.
    destruct sx, sy;
      try (first [apply Z.compare_gt_iff; lia | apply Z.compare_lt_iff; lia]);
      destruct (Z.compare_spec ex ey) as [He|He|He];
      try (first [apply Z.compare_gt_iff; lia | apply Z.compare_lt_iff; lia]);
      destruct (Pos.compare_spec mx my) as [Hm|Hm|Hm]; simpl CompOpp;
      first [ apply Z.compare_eq_iff; subst; lia
            | apply Z.compare_gt_iff; lia
            | apply Z.compare_lt_iff; lia ].
Qed.

Lemma SFleb_key (x y : spec_float) :
  ordered_double x = true -> ordered_double y = true ->
  SFleb x y = (key x <=? key y).
Proof.
  intros Hx Hy. unfold SFleb, Z.leb. rewrite (SFcompare_key x y Hx Hy).
  destruct (key x ?= key y); reflexivity.
Qed.

Lemma SFltb_key (x y : spec_float) :
  ordered_double x = true -> ordered_double y = true ->
  SFltb x y = (key x <? key y).
Proof.
  intros Hx Hy. unfold SFltb, Z.ltb. rewrite (SFcompare_key x y Hx Hy).
  destruct (key x ?= key y); reflexivity.
Qed.

(** The sign of what [binary_normalize] returns. *)
Lemma binary_normalize_sign (M e : Z) :
  -1074 <= e ->
  SFltb (S754_zero false) (binary_normalize B64.prec B64.emax M e false)
  = (0 <? M).
Proof.
  intros He. destruct M as [|p|p]; simpl binary_normalize.
  - reflexivity.
  - destruct (binary_round_sign false p e He) as [(m' & e' & ->) | ->];
      reflexivity.
  - destruct (binary_round_sign true p e He) as [(m' & e' & ->) | ->];
      reflexivity.
Qed.

(** The sign of a difference tells which of two ordered doubles is the
    greater. *)
Lemma SFsub_sign (x y : spec_float) :
  ordered_double x = true -> ordered_double y = true ->
  SFltb (S754_zero false) (SFsub B64.prec B64.emax x y)
  = (key y <? key x).
Proof.
  unfold ordered_double.
  destruct x as [sx|sx| |sx mx ex], y as [sy|sy| |sy my ey];
    simpl valid_binary; rewrite ?andb_false_r, ?andb_true_r;
    try discriminate; intros Hx Hy.
  - destruct sx, sy; reflexivity.
  - destruct sx, sy; reflexivity.
  - pose proof (key_finite sy my ey Hy) as K. cbv zeta in K.
    simpl SFsub. unfold key. change (2 ^ 53) with 9007199254740992 in *.
    unfold SFltb. simpl SFcompare. symmetry. destruct sy; simpl negb.
    + apply Z.ltb_lt. lia.
    + apply Z.ltb_ge. lia.
  - destruct sx, sy; reflexivity.
  - destruct sx, sy; reflexivity.
  - pose proof (key_finite sy my ey Hy) as K. cbv zeta in K.
    simpl SFsub. unfold key.
    change (2 ^ 53) with 9007199254740992 in *.
    change (2 ^ 64) with 18446744073709551616 in *.
    change (2 ^ 70) with 1180591620717411303424.
    unfold SFltb. simpl SFcompare. symmetry. destruct sx, sy;
      first [apply Z.ltb_lt; lia | apply Z.ltb_ge; lia].
  - pose proof (key_finite sx mx ex Hx) as K. cbv zeta in K.
    simpl SFsub. unfold key. change (2 ^ 53) with 9007199254740992 in *.
    unfold SFltb. simpl SFcompare. symmetry. destruct sx.
    + apply Z.ltb_ge. lia.
    + apply Z.ltb_lt. lia.
  - pose proof (key_finite sx mx ex Hx) as K. cbv zeta in K.
    simpl SFsub. unfold key.
    change (2 ^ 53) with 9007199254740992 in *.
    change (2 ^ 64) with 18446744073709551616 in *.
    change (2 ^ 70) with 1180591620717411303424.
    unfold SFltb. simpl SFcompare. symmetry. destruct sx, sy;
      simpl negb; first [apply Z.ltb_lt; lia | apply Z.ltb_ge; lia].
  - destruct (bounded_range mx ex Hx) as (Ex & Mx & Nx).
    destruct (bounded_range my ey Hy) as (Ey & My & Ny).
    unfold SFsub.
    pose proof (shl_align_spec mx ex (Z.min ex ey)) as Ax.
    pose proof (shl_align_spec my ey (Z.min ex ey)) as Ay.
    destruct (shl_align mx ex (Z.min ex ey)) as [mx' ex'].
    destruct (shl_align my ey (Z.min ex ey)) as [my' ey'].
    destruct Ax as [Ex' Mx']. destruct Ay as [Ey' My'].
    simpl fst. rewrite binary_normalize_sign by lia.
    rewrite Mx', My'. clear Mx' My'.
    replace ex' with (Z.min ex ey) by lia.
    replace ey' with (Z.min ex ey) by lia.
    unfold key.
    assert (Px : 0 < Zpos mx) by lia. assert (Py : 0 < Zpos my) by lia.
    assert (Hcases :
              (ex = ey /\ 2 ^ (ex - Z.min ex ey) = 1
               /\ 2 ^ (ey - Z.min ex ey) = 1)
              \/ (ey < ex /\ 2 ^ (ey - Z.min ex ey) = 1
                  /\ 2 <= 2 ^ (ex - Z.min ex ey))
              \/ (ex < ey /\ 2 ^ (ex - Z.min ex ey) = 1
                  /\ 2 <= 2 ^ (ey - Z.min ex ey))).
    { destruct (Z.lt_total ex ey) as [H|[H|H]].
      - right. right. split; [exact H|].
        replace (ex - Z.min ex ey) with 0 by lia. split; [reflexivity|].
        change 2 with (2 ^ 1) at 1. apply Z.pow_le_mono_r; lia.
      - left. split; [exact H|].
        replace (ex - Z.min ex ey) with 0 by lia.
        replace (ey - Z.min ex ey) with 0 by lia. split; reflexivity.
      - right. left. split; [exact H|].
        replace (ey - Z.min ex ey) with 0 by lia. split; [reflexivity|].
        change 2 with (2 ^ 1) at 1. apply Z.pow_le_mono_r; lia. }
    change (2 ^ 53) with 9007199254740992 in *.
    change (2 ^ 52) with 4503599627370496 in *.
    set (px := 2 ^ (ex - Z.min ex ey)) in *.
    set (py := 2 ^ (ey - Z.min ex ey)) in *.
    clearbody px py.
    destruct Hcases as [(He & Hpx & Hpy) | [(He & Hpy & Hpx) | (He & Hpx & Hpy)]];
      subst; destruct sx, sy; unfold cond_Zopp;
      first [ apply eq_true_iff_eq; rewrite !Z.ltb_lt; nia
            | idtac ].
Qed.

(** Every score is a valid double, and a score that is kept is not
    [NaN]. *)
Lemma valid_cosine (u v : jsvalue spec_float) :
  valid_binary B64.prec B64.emax (@calculateCosineSimilarity binary64 u v)
  = true.
Proof.
  unfold calculateCosineSimilarity.
  change (@num binary64) with spec_float.
  destruct u as [a|], v as [b|]; try reflexivity.
  destruct (negb (length a =? length b)%nat); [reflexivity|].
  destruct (@cosine_loop binary64 a b) as [[dot m1] m2].
  change (@num binary64) with spec_float.
  destruct (@num_seq binary64 m1 (@num_zero binary64)
            || @num_seq binary64 m2 (@num_zero binary64));
    [reflexivity|].
  apply valid_SFdiv.
Qed.

Lemma kept_score_ordered (u v : jsvalue spec_float) (threshold : spec_float) :
  @num_ge binary64 (@calculateCosineSimilarity binary64 u v) threshold
  = true ->
  ordered_double (@calculateCosineSimilarity binary64 u v) = true.
Proof.
  intros Hkept. unfold ordered_double. rewrite valid_cosine. simpl andb.
  change (@num_ge binary64) with (fun x y => SFleb y x) in Hkept.
  cbv beta in Hkept.
  destruct (@calculateCosineSimilarity binary64 u v); try reflexivity.
  destruct threshold; discriminate Hkept.
Qed.

Lemma ordered_consistent (l : list spec_float) :
  Forall (fun x => ordered_double x = true) l -> @consistent_on binary64 l.
Proof.
  intros Hl x y Hx Hy. rewrite Forall_forall in Hl.
  pose proof (Hl x Hx) as Ox. pose proof (Hl y Hy) as Oy.
  change (@num_ge binary64) with (fun a b => SFleb b a).
  change (@num_gt binary64) with (fun a b => SFltb b a).
  change (@num_sub binary64) with (SFsub B64.prec B64.emax).
  change (@num_zero binary64) with (S754_zero false).
  cbv beta.
  rewrite (SFsub_sign x y Ox Oy).
  rewrite (SFleb_key y x Oy Ox), (SFleb_key x y Ox Oy),
    (SFltb_key y x Oy Ox).
  split; [|split; [|split]].
  - destruct (Z.le_gt_cases (key y) (key x)) as [H|H].
    + left. now apply Z.leb_le.
    + right. apply Z.leb_le. lia.
  - destruct (Z.ltb_spec (key y) (key x)), (Z.leb_spec (key x) (key y));
      simpl; try reflexivity; lia.
  - reflexivity.
  - intros z Hz. pose proof (Hl z Hz) as Oz.
    rewrite (SFleb_key z y Oz Oy), (SFleb_key z x Oz Ox).
    rewrite !Z.leb_le. lia.
Qed.
End Doubles.
Set Implicit Arguments.

(** Over the reals every list of scores is consistent. *)
Lemma consistent_on_exact (l : list R) : @consistent_on exactR l.
Proof.
  intros x y _ _. simpl. unfold Rgeb, Rgtb.
  repeat split.
  - destruct (Rle_dec y x); [now left|].
    destruct (Rle_dec x y); [now right|]. lra.
  - destruct (Rlt_dec y x), (Rle_dec x y); simpl; try reflexivity; lra.
  - destruct (Rlt_dec 0 (x - y)), (Rlt_dec y x); try reflexivity; lra.
  - intros z _. destruct (Rle_dec y x), (Rle_dec z y), (Rle_dec z x);
      intros; try reflexivity; try discriminate. lra.
Qed.

Lemma consistentb_exact (l : list R) : @consistentb exactR l = true.
Proof.
  unfold consistentb. rewrite forallb_forall. intros x _.
  rewrite forallb_forall. intros y _.
  apply andb_true_intro. split.
  - unfold pair_consistent. simpl. unfold Rgeb, Rgtb.
    destruct (Rle_dec y x), (Rle_dec x y), (Rlt_dec y x),
      (Rlt_dec 0 (x - y)); simpl; try reflexivity; lra.
  - rewrite forallb_forall. intros z _. unfold triple_consistent.
    simpl. unfold Rgeb.
    destruct (Rle_dec y x), (Rle_dec z y), (Rle_dec z x); simpl;
      try reflexivity; lra.
Qed.

(** ** The ranking *)

Lemma slice0_firstn {T : Type} (l : list T) (limit : jsint) :
  exists k, slice0 l limit = firstn k l.
Proof. unfold slice0. eexists. reflexivity. Qed.

Lemma slice0_subseq {T : Type} (l : list T) (limit : jsint) :
  subseq (slice0 l limit) l.
Proof.
  destruct (slice0_firstn l limit) as [k ->]. apply subseq_firstn.
Qed.

Lemma slice0_length {T : Type} (l : list T) (n : Z) :
  0 <= n -> Z.of_nat (length (slice0 l (JInt n))) <= n.
Proof.
  intros Hn. unfold slice0.
  destruct (n <? 0) eqn:E; [apply Z.ltb_lt in E; lia|].
  rewrite length_firstn. lia.
Qed.

Lemma select_all_In {A : Arith} (table : list document) (d : document) :
  In d (select_all_documents table) <-> In d table.
Proof. apply stable_sort_In. Qed.


Section RankingFacts.
Context {A : Arith}.
Variable embedding0 : jsvalue num.
Variable threshold : num.

Lemma rows_unfold (limit : jsint) (rows : list document) :
  findSimilarDocuments_rows embedding0 threshold limit rows
  = slice0 (rank embedding0 threshold rows) limit.
Proof.
  destruct rows; [|reflexivity].
  unfold slice0. simpl. now rewrite firstn_nil.
Qed.


Lemma scan_full_known (rows : list document) (scores : list num) :
  (forall d, In d rows -> In (score_of embedding0 d) scores) ->
  Forall (fun r => In (similarity_score r) scores)
    (scan_full embedding0 threshold rows []).
Proof.
  intros H. rewrite Forall_forall. intros r Hr.
  rewrite scan_full_filter in Hr. apply in_map_iff in Hr.
  destruct Hr as [d [<- Hd]]. apply filter_In in Hd. simpl.
  apply H. tauto.
Qed.

Lemma candidate_scores_In (rows : list document) (d : document) :
  In d rows ->
  In (score_of embedding0 d) (candidate_scores embedding0 rows).
Proof. intros Hd. unfold candidate_scores. now apply in_map. Qed.



Lemma rank_subseq_full (rows : list document) :
  consistent_on (candidate_scores embedding0 rows) ->
  subseq (rank embedding0 threshold rows)
    (rank_full embedding0 threshold rows).
Proof.
  intros Hcons. unfold rank, rank_full.
  destruct (scan_prefix embedding0 threshold rows) as [rest Hrest].
  rewrite Hrest.
  apply stable_sort_prefix
    with (dom := fun r =>
            In (similarity_score r) (candidate_scores embedding0 rows)).
  - intros x y. apply (sorts_after_asym Hcons).
  - intros x y z. apply (sorts_before_trans Hcons).
  - rewrite <- Hrest. apply scan_full_known. apply candidate_scores_In.
Qed.
End RankingFacts.

(** ** Running the monadic code *)

Lemma findSimilarDocuments_run {A : Arith} (W : world)
    (embedding0 : jsvalue num) (threshold : num) (limit : jsint)
    (s : state) :
  findSimilarDocuments W embedding0 threshold limit s
  = (Ok (if query_fails W QAllDocuments then []
         else findSimilarDocuments_rows embedding0 threshold limit
                (select_all_documents (documents (db s)))),
     {| db := db s; trace := trace s ++ [EvScan] |}).
Proof.
  unfold findSimilarDocuments, try_catch, bind, emit, executeQuery, get_db,
    ret, throw. simpl.
  destruct (query_fails W QAllDocuments); reflexivity.
Qed.

Lemma Forall_subseq {T : Type} (P : T -> Prop) (a b : list T) :
  subseq a b -> Forall P b -> Forall P a.
Proof.
  intros Hab Hb. rewrite Forall_forall in *. intros x Hx.
  apply Hb. eauto using subseq_In.
Qed.

Lemma mismatch_scores_zero {A : Arith} (u v : jsvalue num) :
  same_dimension u v = false -> calculateCosineSimilarity u v = num_zero.
Proof.
  destruct u as [a|], v as [b|]; simpl; try reflexivity.
  intros ->. reflexivity.
Qed.

Lemma scan_skips {A : Arith} (embedding0 : jsvalue num) (threshold : num)
    (pre post : list document) (d : document) (acc : list similar) :
  num_ge (score_of embedding0 d) threshold = false ->
  scan embedding0 threshold (pre ++ d :: post) acc
  = scan embedding0 threshold (pre ++ post) acc.
Proof.
  intros Hd. revert acc. induction pre as [|x pre IH]; intros acc; simpl.
  - unfold score_of in Hd. now rewrite Hd.
  - destruct (num_ge (calculateCosineSimilarity embedding0 (embedding x))
                threshold); [|apply IH].
    destruct (num_gt (calculateCosineSimilarity embedding0 (embedding x))
                num_095); [reflexivity | apply IH].
Qed.

(** ** The similarity search *)




(** C5, amended: the search never throws, whatever the store holds; and for
    every threshold above zero (one that [0] does not reach) a stored value
    that is not an array of the query's length is skipped: every entry
    returned comes from a row whose vector has the query's length, and the
    rows the query returned give the same result with such a row as without
    it. *)
Theorem mismatched_dimension_skipped {A : Arith} (W : world)
    (embedding0 : jsvalue num) (threshold : num) (limit : jsint) :
  (forall s, exists result s',
      findSimilarDocuments W embedding0 threshold limit s = (Ok result, s'))
  /\ (num_ge num_zero threshold = false ->
      (forall s result s',
          findSimilarDocuments W embedding0 threshold limit s
          = (Ok result, s') ->
          Forall (fun r => exists d,
                      In d (documents (db s))
                      /\ r = similar_of d (score_of embedding0 d)
                      /\ same_dimension embedding0 (embedding d) = true)
            result)
      /\ (forall pre d post,
             same_dimension embedding0 (embedding d) = false ->
             findSimilarDocuments_rows embedding0 threshold limit
               (pre ++ d :: post)
             = findSimilarDocuments_rows embedding0 threshold limit
                 (pre ++ post))).
Proof.
  split.
  - intros s. rewrite findSimilarDocuments_run. eauto.
  - intros Hpos. split.
    + intros s result s'. rewrite findSimilarDocuments_run.
      intros Hrun. injection Hrun as <- _.
      destruct (query_fails W QAllDocuments); [constructor|].
      rewrite rows_unfold.
      eapply Forall_subseq; [apply slice0_subseq|].
      unfold rank. apply stable_sort_Forall.
      rewrite Forall_forall. intros r Hr.
      apply scan_entries in Hr. destruct Hr as [d [Hd [-> Hk]]].
      exists d. split; [now apply select_all_In|]. split; [reflexivity|].
      destruct (same_dimension embedding0 (embedding d)) eqn:E;
        [reflexivity|].
      unfold score_of in Hk. rewrite (mismatch_scores_zero _ _ E) in Hk.
      congruence.
    + intros pre d post Hd. rewrite !rows_unfold. unfold rank.
      rewrite scan_skips; [reflexivity|].
      unfold score_of. now rewrite (mismatch_scores_zero _ _ Hd).
Qed.

Lemma mismatched_dimension_skipped_witness :
  @num_ge binary64 num_zero c085 = false
  /\ same_dimension query_vec (embedding doc_w) = false
  /\ findSimilarDocuments_rows query_vec c085 (JInt 5)
       ([doc_c] ++ doc_w :: [doc_a])
     = findSimilarDocuments_rows query_vec c085 (JInt 5)
         ([doc_c] ++ [doc_a]).
Proof.
  split; [reflexivity|]. split; [reflexivity|].
  apply (proj2 (proj2 (@mismatched_dimension_skipped binary64 world0
                         query_vec c085 (JInt 5)) eq_refl)).
  reflexivity.
Defined.

(** C5 as stated fails when the threshold is not above zero: a vector of
    another length scores [0], and [0 >= 0] keeps it. The setting
    [similarity_threshold = '0'] gives that threshold. *)
Lemma mismatched_dimension_returned :
  same_dimension query_vec (embedding doc_w) = false
  /\ returned
       (fst (findSimilarDocuments world0 query_vec zero (JInt 5)
               (start [doc_w; doc_a])))
       (fun result =>
          map (@sim_filename binary64) result = ["a.pdf"; "w.pdf"]%string).
Proof. vm_compute. split; reflexivity. Qed.

(** *** The early exit *)

Lemma sort_insert_perm {T : Type} (after : T -> T -> bool) (x : T)
    (l : list T) :
  Permutation (sort_insert after x l) (x :: l).
Proof.
  induction l as [|y l IH]; simpl; [reflexivity|].
  destruct (after x y); [|reflexivity].
  rewrite IH. apply perm_swap.
Qed.

Lemma stable_sort_perm {T : Type} (after : T -> T -> bool) (l : list T) :
  Permutation (stable_sort after l) l.
Proof.
  induction l as [|x l IH]; simpl; [reflexivity|].
  rewrite sort_insert_perm. now constructor.
Qed.

Lemma filter_idem {T : Type} (p : T -> bool) (l : list T) :
  filter p (filter p l) = filter p l.
Proof.
  induction l as [|x l IH]; [reflexivity|].
  simpl. destruct (p x) eqn:E; [|exact IH].
  simpl. rewrite E. now rewrite IH.
Qed.

Section EarlyExit.
Context {A : Arith}.
Variable embedding0 : jsvalue num.
Variable threshold : num.

Let kept (d : document) : bool := num_ge (score_of embedding0 d) threshold.

(** Rows that are not kept leave no trace in a scan. *)
Lemma scan_of_kept (rows : list document) :
  forall acc,
    scan embedding0 threshold rows acc
    = scan embedding0 threshold (filter kept rows) acc.
Proof.
  induction rows as [|d rows IH]; intros acc; [reflexivity|].
  simpl. unfold kept at 1. unfold score_of.
  destruct (num_ge (calculateCosineSimilarity embedding0 (embedding d))
              threshold) eqn:E.
  - simpl. rewrite E.
    destruct (num_gt _ num_095); [reflexivity | apply IH].
  - apply IH.
Qed.

Lemma scan_full_of_kept (rows : list document) :
  scan_full embedding0 threshold rows []
  = scan_full embedding0 threshold (filter kept rows) [].
Proof.
  rewrite !scan_full_filter. f_equal. symmetry. apply filter_idem.
Qed.

Lemma rank_full_descending (rows : list document) :
  consistent_on (candidate_scores embedding0 (filter kept rows)) ->
  StronglySorted
    (fun a b => num_ge (similarity_score a) (similarity_score b) = true)
    (rank_full embedding0 threshold rows).
Proof.
  intros Hcons. unfold rank_full. rewrite scan_full_of_kept.
  set (scores := candidate_scores embedding0 (filter kept rows)) in *.
  assert (Hknown : Forall (fun r => In (similarity_score r) scores)
                     (scan_full embedding0 threshold (filter kept rows) [])).
  { apply scan_full_known. apply candidate_scores_In. }
  apply StronglySorted_weaken
    with (P := fun a b => sorts_after a b = false).
  - intros a b Ha Hb H.
    apply stable_sort_In in Ha, Hb. rewrite Forall_forall in Hknown.
    rewrite (sorts_after_ge Hcons a b (Hknown _ Ha) (Hknown _ Hb)) in H.
    now apply negb_false_iff in H.
  - apply (@stable_sort_sorted similar sorts_after
             (fun r => In (similarity_score r) scores)).
    + intros x y. apply (sorts_after_asym Hcons).
    + intros x y z. apply (sorts_before_trans Hcons).
    + exact Hknown.
Qed.

(** The early exit, for scores the comparator orders consistently. Only
    the scores of the rows that are kept matter, and 0.95. *)
Lemma early_exit_ranking (limit : jsint) (rows : list document) :
  consistent_on (num_095 :: candidate_scores embedding0 (filter kept rows)) ->
  subseq (findSimilarDocuments_rows embedding0 threshold limit rows)
    (rank_full embedding0 threshold rows)
  /\ (forall pre d post,
         rows = pre ++ d :: post ->
         Forall (fun x => triggers embedding0 threshold x = false) pre ->
         triggers embedding0 threshold d = true ->
         rank embedding0 threshold rows
         = similar_of d (score_of embedding0 d)
           :: rank_full embedding0 threshold pre)
  /\ (forall pre d post,
         rows = pre ++ d :: post ->
         Forall (fun x => triggers embedding0 threshold x = false) pre ->
         triggers embedding0 threshold d = true ->
         Permutation (rank_full embedding0 threshold rows)
           (rank embedding0 threshold rows
            ++ scan_full embedding0 threshold post [])).
Proof.
  intros Hb.
  assert (Hcons : consistent_on
                    (candidate_scores embedding0 (filter kept rows))).
  { eapply consistent_on_incl; [|exact Hb]. intros x Hx. now right. }
  split; [|split].
  - rewrite rows_unfold.
    eapply subseq_trans; [apply slice0_subseq|].
    unfold rank, rank_full.
    rewrite (scan_of_kept rows []), scan_full_of_kept.
    exact (@rank_subseq_full A embedding0 threshold (filter kept rows) Hcons).
  - intros pre d post -> Hpre Hd.
    unfold rank, rank_full.
    rewrite (@scan_stops A embedding0 threshold pre post d Hpre Hd).
    apply stable_sort_snoc_top.
    rewrite Forall_forall. intros x Hx.
    rewrite scan_full_filter in Hx. apply in_map_iff in Hx.
    destruct Hx as [d' [<- Hd']]. apply filter_In in Hd'.
    destruct Hd' as [Hin Hkept].
    assert (Hdk : kept d = true).
    { unfold triggers in Hd. apply andb_prop in Hd. tauto. }
    apply (sorts_after_across Hb); simpl.
    + now left.
    + right. apply candidate_scores_In. apply filter_In.
      split; [apply in_or_app; now left | exact Hkept].
    + right. apply candidate_scores_In. apply filter_In.
      split; [apply in_or_app; right; now left | exact Hdk].
    + rewrite Forall_forall in Hpre. specialize (Hpre d' Hin).
      unfold triggers in Hpre. unfold kept in Hkept.
      rewrite Hkept in Hpre. exact Hpre.
    + unfold triggers in Hd. apply andb_prop in Hd. tauto.
  - intros pre d post -> Hpre Hd.
    unfold rank, rank_full.
    rewrite (@scan_stops A embedding0 threshold pre post d Hpre Hd).
    rewrite !stable_sort_perm.
    rewrite scan_full_app, <- app_assoc. apply Permutation_app_head.
    simpl. unfold triggers in Hd. apply andb_prop in Hd.
    destruct Hd as [Hk _]. rewrite Hk.
    now rewrite scan_full_acc.
Qed.
End EarlyExit.

(** C6: on the doubles the program computes with, for every store, query,
    threshold and limit, the early exit leaves the order of what is
    returned as a full scan ranks it. The result is an order-preserving
    selection of the ranking a scan of every row produces. When a row
    stops the scan, its entry comes first and the ranking of all that was
    kept before it follows, the result being the leading part of that
    list that the limit leaves; and the ranking of the full scan holds
    these entries and the entries of the rows after the cutoff, nothing
    else: only candidates beyond the cutoff are missing. When no row stops
    the scan, the result is that of the full scan. The ranking of the full
    scan is in descending order of score. *)
Theorem early_exit_preserves_ranking
    (embedding0 : jsvalue (@num binary64)) (threshold : @num binary64)
    (limit : jsint) (rows : list (@document binary64)) :
  subseq (findSimilarDocuments_rows embedding0 threshold limit rows)
    (rank_full embedding0 threshold rows)
  /\ (forall pre d post,
         rows = pre ++ d :: post ->
         Forall (fun x => triggers embedding0 threshold x = false) pre ->
         triggers embedding0 threshold d = true ->
         rank embedding0 threshold rows
         = similar_of d (score_of embedding0 d)
           :: rank_full embedding0 threshold pre
         /\ findSimilarDocuments_rows embedding0 threshold limit rows
            = slice0 (similar_of d (score_of embedding0 d)
                      :: rank_full embedding0 threshold pre) limit
         /\ Permutation (rank_full embedding0 threshold rows)
              (rank embedding0 threshold rows
               ++ scan_full embedding0 threshold post []))
  /\ (Forall (fun x => triggers embedding0 threshold x = false) rows ->
      findSimilarDocuments_rows embedding0 threshold limit rows
      = slice0 (rank_full embedding0 threshold rows) limit)
  /\ StronglySorted
       (fun a b => num_ge (similarity_score a) (similarity_score b) = true)
       (rank_full embedding0 threshold rows).
Proof.
  assert (Hb : @consistent_on binary64
                 (num_095
                  :: candidate_scores embedding0
                       (filter (fun d => num_ge (score_of embedding0 d)
                                           threshold) rows))).
  { apply ordered_consistent. constructor; [reflexivity|].
    apply Forall_forall. intros x Hx. unfold candidate_scores in Hx.
    apply in_map_iff in Hx. destruct Hx as [d [<- Hd]].
    apply filter_In in Hd. destruct Hd as [_ Hkept].
    exact (kept_score_ordered embedding0 (embedding d) threshold Hkept). }
  destruct (@early_exit_ranking binary64 embedding0 threshold limit rows Hb)
    as (Hsub & Hfirst & Hperm).
  split; [exact Hsub|]. split.
  - intros pre d post Hrows Hpre Hd.
    pose proof (Hfirst pre d post Hrows Hpre Hd) as Hrank.
    split; [exact Hrank|]. split.
    + rewrite rows_unfold. now rewrite Hrank.
    + exact (Hperm pre d post Hrows Hpre Hd).
  - split.
    + intros Hnone. rewrite rows_unfold. unfold rank, rank_full.
      now rewrite scan_never_stops.
    + apply (@rank_full_descending binary64).
      eapply consistent_on_incl; [|exact Hb]. intros x Hx. now right.
Qed.

Lemma early_exit_preserves_ranking_witness :
  let pre := [doc_w; doc_c; doc_a; doc_b] in
  let rows := pre ++ doc_e :: [doc_a] in
  Forall (fun x => triggers query_vec c085 x = false) pre
  /\ triggers query_vec c085 doc_e = true
  /\ rank query_vec c085 rows
     = similar_of doc_e (score_of query_vec doc_e)
       :: rank_full query_vec c085 pre.
Proof.
  intros pre rows.
  assert (Hpre : Forall (fun x => triggers query_vec c085 x = false) pre)
    by (repeat constructor).
  assert (Hd : triggers query_vec c085 doc_e = true) by reflexivity.
  split; [exact Hpre|]. split; [exact Hd|].
  exact (proj1 (proj1 (proj2 (early_exit_preserves_ranking query_vec c085
                                (JInt 2) rows))
                  pre doc_e [doc_a] eq_refl Hpre Hd)).
Defined.

(** ** The cosine score *)

Section CosineExact.
Local Open Scope R_scope.

Lemma cosine_loop_from (a b : list R) (d m1 m2 : R) :
  length a = length b ->
  fold_left (@cosine_step exactR) (combine a b) (d, m1, m2)
  = (d + spec_dot a b, m1 + spec_dot a a, m2 + spec_dot b b).
Proof.
  revert b d m1 m2.
  induction a as [|x a IH]; intros [|y b] d m1 m2 Hlen;
    try discriminate; simpl.
  - now rewrite !Rplus_0_r.
  - rewrite IH by (simpl in Hlen; congruence).
    f_equal; [f_equal|]; ring.
Qed.

Lemma cosine_loop_exact (a b : list R) :
  length a = length b ->
  @cosine_loop exactR a b = (spec_dot a b, spec_dot a a, spec_dot b b).
Proof.
  intros Hlen. unfold cosine_loop. simpl.
  rewrite cosine_loop_from by assumption. now rewrite !Rplus_0_l.
Qed.

Lemma spec_dot_self_nonneg (a : list R) : 0 <= spec_dot a a.
Proof. induction a as [|x a IH]; simpl; [lra | nra]. Qed.

Lemma cauchy_schwarz (a b : list R) :
  length a = length b ->
  spec_dot a b * spec_dot a b <= spec_dot a a * spec_dot b b.
Proof.
  revert b. induction a as [|x a IH]; intros [|y b] Hlen;
    try discriminate; simpl.
  - lra.
  - assert (HD := IH b ltac:(simpl in Hlen; congruence)).
    pose proof (spec_dot_self_nonneg a) as HP.
    pose proof (spec_dot_self_nonneg b) as HQ.
    set (D := spec_dot a b) in *.
    set (P := spec_dot a a) in *.
    set (Q := spec_dot b b) in *.
    set (u := x * x * Q + P * (y * y)).
    set (v := 2 * (x * y) * D).
    assert (Hu : 0 <= u) by (unfold u; nra).
    assert (Hvu : v * v <= u * u).
    { assert (H1 : v * v = 4 * (x * x) * (y * y) * (D * D))
        by (unfold v; ring).
      assert (H2 : u * u - 4 * (x * x) * (y * y) * (P * Q)
                   = (x * x * Q - P * (y * y)) * (x * x * Q - P * (y * y)))
        by (unfold u; ring).
      assert (H3 : 0 <= 4 * (x * x) * (y * y)) by nra.
      assert (H4 : 4 * (x * x) * (y * y) * (D * D)
                   <= 4 * (x * x) * (y * y) * (P * Q))
        by (apply Rmult_le_compat_l; assumption).
      pose proof (Rle_0_sqr (x * x * Q - P * (y * y))) as H5.
      unfold Rsqr in H5. lra. }
    assert (Hv : v <= u).
    { destruct (Rle_lt_dec v u) as [Hle|Hgt]; [assumption|].
      assert (u * u < v * v) by nra. lra. }
    unfold u, v in Hv. nra.
Qed.

Lemma spec_norm_zero (a : list R) : spec_norm a = 0 <-> spec_dot a a = 0.
Proof.
  unfold spec_norm. split.
  - intros H. apply sqrt_eq_0; [apply spec_dot_self_nonneg | exact H].
  - intros ->. apply sqrt_0.
Qed.

Lemma quotient_bounded (d m1 m2 : R) :
  0 < m1 -> 0 < m2 -> d * d <= m1 * m2 ->
  -1 <= d / (sqrt m1 * sqrt m2) <= 1.
Proof.
  intros H1 H2 Hd.
  pose proof (sqrt_lt_R0 m1 H1) as S1.
  pose proof (sqrt_lt_R0 m2 H2) as S2.
  set (p := sqrt m1 * sqrt m2).
  assert (Hp : 0 < p) by (unfold p; nra).
  assert (Hpp : p * p = m1 * m2).
  { unfold p.
    replace (sqrt m1 * sqrt m2 * (sqrt m1 * sqrt m2))
      with ((sqrt m1 * sqrt m1) * (sqrt m2 * sqrt m2)) by ring.
    rewrite !sqrt_sqrt by lra. reflexivity. }
  assert (Hle : d <= p) by nra.
  assert (Hge : - p <= d) by nra.
  split.
  - apply Rmult_le_reg_r with p; [assumption|].
    unfold Rdiv. rewrite Rmult_assoc, Rinv_l by lra. lra.
  - apply Rmult_le_reg_r with p; [assumption|].
    unfold Rdiv. rewrite Rmult_assoc, Rinv_l by lra. lra.
Qed.

Lemma cosine_exact_value (a b : list R) :
  length a = length b ->
  @calculateCosineSimilarity exactR (JArray a) (JArray b)
  = if Reqb (spec_dot a a) 0 || Reqb (spec_dot b b) 0 then 0
    else spec_dot a b / (sqrt (spec_dot a a) * sqrt (spec_dot b b)).
Proof.
  intros Hlen. unfold calculateCosineSimilarity.
  change (@num exactR) with R.
  rewrite (proj2 (Nat.eqb_eq _ _) Hlen). simpl negb. cbv iota.
  rewrite cosine_loop_exact by assumption. reflexivity.
Qed.
End CosineExact.

(** In doubles a vector of zeros has a computed magnitude of [+0]. *)
Section CosineDoubles.
Let zeros : list spec_float -> Prop :=
  Forall (fun x => B64.is_zero x = true).

Lemma magnitude_of_zeros_l (a b : list spec_float) (d m2 : spec_float) :
  zeros a ->
  exists d' m2',
    fold_left (@cosine_step binary64) (combine a b)
      (d, S754_zero false, m2)
    = (d', S754_zero false, m2').
Proof.
  intros Ha. revert b d m2.
  induction Ha as [|x a Hx Ha IH]; intros b d m2; simpl.
  - eauto.
  - destruct b as [|y b]; simpl; [eauto|].
    destruct x as [sx| | |]; try discriminate.
    destruct sx; apply IH.
Qed.

Lemma magnitude_of_zeros_r (a b : list spec_float) (d m1 : spec_float) :
  zeros b ->
  exists d' m1',
    fold_left (@cosine_step binary64) (combine a b)
      (d, m1, S754_zero false)
    = (d', m1', S754_zero false).
Proof.
  intros Hb. revert a d m1.
  induction Hb as [|y b Hy Hb IH]; intros a d m1.
  - destruct a; simpl; eauto.
  - destruct a as [|x a]; simpl; [eauto|].
    destruct y as [sy| | |]; try discriminate.
    destruct sy; apply IH.
Qed.

Lemma cosine_of_zeros (a b : list spec_float) :
  zeros a \/ zeros b ->
  @calculateCosineSimilarity binary64 (JArray a) (JArray b) = B64.zero.
Proof.
  intros H. unfold calculateCosineSimilarity.
  change (@num binary64) with spec_float.
  destruct (negb (length a =? length b)%nat); [reflexivity|].
  unfold cosine_loop.
  change (@num_zero binary64) with (S754_zero false).
  change (@num binary64) with spec_float.
  destruct H as [H|H].
  - destruct (magnitude_of_zeros_l b (S754_zero false) (S754_zero false) H)
      as [d' [m2' E]].
    change (@num binary64) with spec_float in E.
    rewrite E. reflexivity.
  - destruct (magnitude_of_zeros_r a (S754_zero false) (S754_zero false) H)
      as [d' [m1' E]].
    change (@num binary64) with spec_float in E.
    rewrite E. simpl. now rewrite orb_true_r.
Qed.
End CosineDoubles.

(** C4, amended: in exact real arithmetic, for every pair of vectors of the
    same length [calculateCosineSimilarity] lies in [[-1, 1]], is exactly 0
    when either vector has zero magnitude, is [dot(a,b)/(||a||*||b||)]
    otherwise, and is 1 for a nonzero vector against itself. In IEEE
    doubles, which the program computes with, it still returns exactly 0
    (and neither divides by zero nor yields NaN) when either vector
    consists of zeros. *)
Theorem cosine_similarity_exact (a b : list R) :
  length a = length b ->
  let s := @calculateCosineSimilarity exactR (JArray a) (JArray b) in
  (-1 <= s <= 1)%R
  /\ (spec_norm a = 0%R \/ spec_norm b = 0%R -> s = 0%R)
  /\ (spec_norm a <> 0%R -> spec_norm b <> 0%R -> s = spec_score a b)
  /\ (a = b -> spec_norm a <> 0%R -> s = 1%R)
  /\ (forall u v : list spec_float,
         Forall (fun x => B64.is_zero x = true) u
         \/ Forall (fun x => B64.is_zero x = true) v ->
         @calculateCosineSimilarity binary64 (JArray u) (JArray v)
         = B64.zero).
Proof.
  intros Hlen s. subst s. rewrite cosine_exact_value by assumption.
  change (@num exactR) with R.
  pose proof (spec_dot_self_nonneg a) as Ha.
  pose proof (spec_dot_self_nonneg b) as Hb.
  pose proof (cauchy_schwarz a b Hlen) as Hcs.
  assert (Hzero : spec_dot a a = 0%R \/ spec_dot b b = 0%R ->
                  (if Reqb (spec_dot a a) 0 || Reqb (spec_dot b b) 0
                   then 0%R
                   else (spec_dot a b
                         / (sqrt (spec_dot a a) * sqrt (spec_dot b b)))%R)
                  = 0%R).
  { unfold Reqb. intros [E|E]; rewrite E.
    - destruct (Req_dec_T 0 0); [reflexivity | contradiction].
    - destruct (Req_dec_T 0 0); [|contradiction].
      now rewrite orb_true_r. }
  destruct (Req_dec_T (spec_dot a a) 0) as [Ea|Ea].
  { rewrite Hzero by now left.
    split; [lra|]. split; [reflexivity|]. split.
    - intros H. exfalso. apply H. now apply spec_norm_zero.
    - split.
      + intros _ H. exfalso. apply H. now apply spec_norm_zero.
      + intros u v Huv. now apply cosine_of_zeros. }
  destruct (Req_dec_T (spec_dot b b) 0) as [Eb|Eb].
  { rewrite Hzero by now right.
    split; [lra|]. split; [reflexivity|]. split.
    - intros _ H. exfalso. apply H. now apply spec_norm_zero.
    - split.
      + intros -> H. contradiction.
      + intros u v Huv. now apply cosine_of_zeros. }
  clear Hzero.
  assert (Pa : (0 < spec_dot a a)%R) by lra.
  assert (Pb : (0 < spec_dot b b)%R) by lra.
  unfold Reqb.
  destruct (Req_dec_T (spec_dot a a) 0); [contradiction|].
  destruct (Req_dec_T (spec_dot b b) 0); [contradiction|].
  simpl orb. cbv iota.
  split; [now apply quotient_bounded|]. split.
  - intros [H|H]; apply spec_norm_zero in H; contradiction.
  - split; [reflexivity|]. split.
    + intros Heq _. subst b. unfold Rdiv.
      rewrite sqrt_sqrt by assumption. now apply Rinv_r.
    + intros u v Huv. now apply cosine_of_zeros.
Qed.

Lemma cosine_similarity_exact_witness :
  length [3; 4]%R = length [4; 3]%R
  /\ (-1 <= @calculateCosineSimilarity exactR (JArray [3; 4]%R)
               (JArray [4; 3]%R) <= 1)%R.
Proof.
  split; [reflexivity|].
  apply (@cosine_similarity_exact [3; 4]%R [4; 3]%R eq_refl).
Defined.

(** C4 as stated fails on the doubles the program computes with: the score
    of [[1, 1, 1]] against itself is [1.0000000000000002], above 1
    ([Math.sqrt(3) * Math.sqrt(3)] is [2.9999999999999996]), and the score
    of [[1e200]] against itself is NaN (the squares overflow). *)
Lemma cosine_similarity_rounds :
  let v : jsvalue (@num binary64) := JArray [B64.one; B64.one; B64.one] in
  let w : jsvalue (@num binary64) := JArray [B64.big] in
  calculateCosineSimilarity v v = B64.one_plus_ulp
  /\ @num_gt binary64 (calculateCosineSimilarity v v) B64.one = true
  /\ @num_seq binary64 (calculateCosineSimilarity v v) B64.one = false
  /\ calculateCosineSimilarity w w = S754_nan.
Proof. vm_compute. repeat split. Qed.

(** ** The orchestrator *)

Ltac run_monad :=
  unfold getDocumentByHash, generateEmbedding, getRagSetting, insertDocument,
    others_commit, summarizeLongText, executeQuery, try_catch, bind, emit,
    get_db, put_db, ret, throw, generateFileHash.

(** C10: when [RAG_ENABLED] is not ['true'], [processDocumentWithRAG]
    neither reads nor writes the store and calls nothing (the state, table
    and trace of calls alike, is the one it started from), and it returns
    the [aiSummary] it was given, with [isFromRAG] false and no similar
    documents. *)
Theorem rag_disabled_touches_nothing {A : Arith} (W : world) (C : config)
    (f : file) (extractedText : string) (aiSummary0 : option string)
    (s : state) :
  RAG_ENABLED C = false ->
  exists r,
    processDocumentWithRAG W C f extractedText aiSummary0 s = (Ok r, s)
    /\ isFromRAG r = false
    /\ aiSummary r = aiSummary0
    /\ similarDocuments r = []
    /\ branch_of r = Disabled.
Proof.
  intros Hoff. exists (plain_result aiSummary0).
  unfold processDocumentWithRAG. run_monad. rewrite Hoff. simpl.
  repeat split.
Qed.

Lemma rag_disabled_touches_nothing_witness :
  let C := {| RAG_ENABLED := false; env_RAG_ENABLED := false;
              SIMILARITY_THRESHOLD := c085; MAX_SIMILAR_DOCUMENTS := 5;
              EMBEDDING_MODEL := "nomic-embed-text" |} in
  RAG_ENABLED C = false
  /\ exists r,
       processDocumentWithRAG world0 C (upload "n.pdf" "a") "text"
         (Some "mine"%string) (start [doc_a])
       = (Ok r, start [doc_a])
       /\ isFromRAG r = false
       /\ aiSummary r = Some "mine"%string
       /\ similarDocuments r = []
       /\ branch_of r = Disabled.
Proof.
  intros C. split; [reflexivity|].
  apply (@rag_disabled_touches_nothing binary64 world0 C); reflexivity.
Defined.

Lemma process_exact_hit {A : Arith} (W : world) (C : config) (f : file)
    (extractedText : string) (aiSummary0 : option string) (s : state)
    (existing : document) :
  RAG_ENABLED C = true ->
  query_fails W QDocumentByHash = false ->
  find (has_hash (sha256_hex W (buffer f))) (documents (db s))
  = Some existing ->
  processDocumentWithRAG W C f extractedText aiSummary0 s
  = (Ok {| isFromRAG := true;
           aiSummary := Some (ai_summary existing);
           similarDocuments := [];
           exactMatch := Some true;
           matchedDocument :=
             Some (doc_id existing, filename existing, created_at existing);
           bestMatch := None; fileHash := None;
           result_embedding := None; needsAiGeneration := false;
           newDocumentId := None; error := None |},
     {| db := db s;
        trace := trace s ++ [EvHashLookup (sha256_hex W (buffer f))] |}).
Proof.
  intros Hon Hq Hfind. unfold processDocumentWithRAG. run_monad.
  rewrite Hon. simpl. rewrite Hq. simpl. rewrite Hfind. reflexivity.
Qed.

(** C1, the code at a re-upload: with RAG enabled and the hash of the
    upload stored, the handler answers with the stored summary verbatim,
    leaves the table as it was and asks for no embedding, yet it has
    called the generation model, before the hash lookup; inside
    [processDocumentWithRAG] the lookup is the only call. *)
Theorem exact_match_after_generation {A : Arith} (W : world) (C : config)
    (f : file) (text : string) (s : state) (existing : document) :
  env_RAG_ENABLED C = true ->
  RAG_ENABLED C = true ->
  query_fails W QDocumentByHash = false ->
  find (has_hash (sha256_hex W (buffer f))) (documents (db s))
  = Some existing ->
  (exists r,
      processDocumentWithRAG W C f text (Some (summarize W 0 text)) s
      = (Ok r, {| db := db s;
                  trace := trace s
                           ++ [EvHashLookup (sha256_hex W (buffer f))] |})
      /\ aiSummary r = Some (ai_summary existing)
      /\ branch_of r = ExactMatch)
  /\ exists r,
      analyze W C f text s
      = (Download (ai_summary existing) r,
         {| db := db s;
            trace := trace s
                     ++ [EvGenerate text;
                         EvHashLookup (sha256_hex W (buffer f))] |})
      /\ branch_of r = ExactMatch.
Proof.
  intros Henv Hon Hq Hfind. split.
  - eexists.
    rewrite (@process_exact_hit A W C f text _ _ existing Hon Hq Hfind).
    split; [reflexivity|]. split; reflexivity.
  - eexists. unfold analyze, analyze_rag. rewrite Henv.
    unfold summarizeLongText, try_catch, bind, emit, ret.
    rewrite (@process_exact_hit A W C f text _
               {| db := db s; trace := trace s ++ [EvGenerate text] |}
               existing Hon Hq Hfind).
    simpl. rewrite <- app_assoc. simpl. split; reflexivity.
Qed.

Lemma exact_match_after_generation_witness :
  let f := upload "again.pdf" "a" in
  let s := start [doc_c; doc_a] in
  env_RAG_ENABLED config0 = true
  /\ RAG_ENABLED config0 = true
  /\ query_fails world0 QDocumentByHash = false
  /\ find (has_hash (sha256_hex world0 (buffer f))) (documents (db s))
     = Some doc_a
  /\ exists r,
       analyze world0 config0 f "text" s
       = (Download (ai_summary doc_a) r,
          {| db := db s;
             trace := trace s
                      ++ [EvGenerate "text";
                          EvHashLookup (sha256_hex world0 (buffer f))] |})
       /\ branch_of r = ExactMatch.
Proof.
  intros f s. repeat (split; [reflexivity|]).
  apply (proj2 (@exact_match_after_generation binary64 world0 config0 f
                  "text" s doc_a eq_refl eq_refl eq_refl eq_refl)).
Defined.

Lemma db_insert_appends {A : Arith} (W : world) (d : new_document)
    (b b' : database) (i : Z) :
  db_insert W d b = Some (i, b') ->
  documents b' = documents b ++ [row_of W d (auto_increment b)]
  /\ rag_settings b' = rag_settings b
  /\ existsb (has_hash (new_file_hash d)) (documents b) = false.
Proof.
  unfold db_insert.
  destruct (existsb (has_hash (new_file_hash d)) (documents b));
    [discriminate|].
  intros H. injection H as <- <-. simpl. repeat split.
Qed.

Lemma after_commits_keeps {A : Arith} (W : world) (ds : list new_document)
    (b : database) :
  (forall d, In d (documents b) -> In d (documents (after_commits W ds b)))
  /\ rag_settings (after_commits W ds b) = rag_settings b.
Proof.
  revert b. induction ds as [|x ds IH]; intros b; simpl.
  - split; auto.
  - destruct (db_insert W x b) as [[i b']|] eqn:E.
    + apply db_insert_appends in E. destruct E as (E1 & E2 & _).
      destruct (IH b') as [I1 I2]. split.
      * intros d Hd. apply I1. rewrite E1. apply in_or_app. now left.
      * congruence.
    + apply IH.
Qed.

Lemma insertDocument_run {A : Arith} (W : world) (d : new_document)
    (s : state) :
  insertDocument W d s
  = if query_fails W QInsertDocument
    then (Throw "Database query error",
          {| db := db s; trace := trace s ++ [EvInsert d] |})
    else match db_insert W d (db s) with
         | Some (insertId, b') =>
             (Ok insertId, {| db := b'; trace := trace s ++ [EvInsert d] |})
         | None =>
             (Throw "Duplicate entry for key 'documents.file_hash'",
              {| db := db s; trace := trace s ++ [EvInsert d] |})
         end.
Proof.
  unfold insertDocument. run_monad. simpl.
  destruct (query_fails W QInsertDocument); [reflexivity|]. simpl.
  destruct (db_insert W d (db s)) as [[i b']|]; reflexivity.
Qed.

Lemma result_from_rows {A : Arith} (embedding0 : jsvalue num)
    (threshold : num) (limit : jsint) (rows : list document) (r : similar) :
  In r (findSimilarDocuments_rows embedding0 threshold limit rows) ->
  exists d, In d rows
            /\ r = similar_of d (score_of embedding0 d)
            /\ num_ge (score_of embedding0 d) threshold = true.
Proof.
  rewrite rows_unfold. intros Hr.
  eapply subseq_In in Hr; [|apply slice0_subseq].
  unfold rank in Hr. apply stable_sort_In in Hr.
  now apply scan_entries in Hr.
Qed.

Ltac close_trace :=
  simpl; rewrite <- ?app_assoc; simpl;
  first [reflexivity | symmetry; apply app_nil_r].

Ltac close_result :=
  split; [simpl; intros; first [reflexivity | discriminate]|];
  split; [simpl; let H := fresh in
          intros H; first [reflexivity | now contradiction H]|];
  split; [simpl; try discriminate
         | simpl; try (intros _; discriminate);
           try (intros _ _; reflexivity)].

Ltac leaf b own :=
  eexists; eexists; eexists; exists b, own;
  split; [reflexivity|];
  split; [close_trace|];
  split; [simpl; lia|];
  split; [tauto|];
  split; [simpl; rewrite ?app_nil_r; reflexivity|];
  split; [reflexivity|];
  close_result.

Ltac insert_site b2 Hq3 :=
  match goal with
  | |- context [insertDocument ?W ?nd _] =>
      rewrite insertDocument_run; simpl; fold b2;
      destruct (query_fails W QInsertDocument) eqn:Hq3;
      [ leaf b2 (@nil document)
      | let Hins := fresh "Hins" in
        let E1 := fresh "E" in
        destruct (db_insert W nd b2) as [[? ?]|] eqn:Hins;
        [ apply db_insert_appends in Hins; destruct Hins as (E1 & _ & _);
          eexists; eexists; eexists;
          exists b2, [row_of W nd (auto_increment b2)];
          split; [reflexivity|];
          split; [close_trace|];
          split; [simpl; lia|];
          split; [tauto|];
          split; [simpl; exact E1|];
          split; [reflexivity|];
          close_result
        | leaf b2 (@nil document) ] ]
  end.

(** Every run of [processDocumentWithRAG], whatever fails: it returns; it
    asks for at most one insert; the table it leaves is the table other
    requests made, plus the rows of its own that its branch accounts for;
    and its summary is the caller's or a stored one. *)
Lemma process_outcomes {A : Arith} (W : world) (C : config) (f : file)
    (text : string) (a : option string) (s : state) :
  let b1 := after_commits W (committed_before_scan W) (db s) in
  let b2 := after_commits W (committed_before_insert W) b1 in
  exists r s' t b own,
    processDocumentWithRAG W C f text a s = (Ok r, s')
    /\ trace s' = trace s ++ t
    /\ (length (filter is_insert t) <= 1)%nat
    /\ (b = db s \/ b = b1 \/ b = b2)
    /\ documents (db s') = documents b ++ own
    /\ length own = inserts_of (branch_of r)
    /\ (isFromRAG r = false -> aiSummary r = a)
    /\ (error r <> None -> isFromRAG r = false)
    /\ (isFromRAG r = true ->
        exists d, In d (documents b) /\ aiSummary r = Some (ai_summary d))
    /\ (cache_fault W text -> isFromRAG r = true ->
        exactMatch r = Some true).
Proof.
  intros b1 b2. unfold processDocumentWithRAG.
  destruct (RAG_ENABLED C) eqn:Hon; simpl negb; cbv iota.
  2: { unfold try_catch, ret. leaf (db s) (@nil document). }
  unfold getDocumentByHash, generateEmbedding, getRagSetting,
    others_commit, executeQuery, try_catch, bind, emit,
    get_db, put_db, ret, throw, generateFileHash. simpl.
  destruct (query_fails W QDocumentByHash) eqn:Hq1; simpl.
  { leaf (db s) (@nil document). }
  destruct (find (has_hash (sha256_hex W (buffer f))) (documents (db s)))
    as [existing|] eqn:Hfind.
  { leaf (db s) (@nil document). intros _. exists existing.
    split; [|reflexivity]. now apply find_some in Hfind. }
  destruct (ollama_embeddings W text) as [[v|]|] eqn:He; simpl;
    try solve [leaf (db s) (@nil document)].
  destruct (query_fails W QRagSetting) eqn:Hq2; simpl.
  { leaf b1 (@nil document). }
  rewrite findSimilarDocuments_run. simpl.
  fold b1.
  set (th := threshold_of W C
               (assoc "similarity_threshold" (rag_settings b1))).
  remember (if query_fails W QAllDocuments then []
            else findSimilarDocuments_rows (JArray v) th
                   (maxDocs_of W C
                      (assoc "max_similar_documents" (rag_settings b1)))
                   (select_all_documents (documents b1)))
    as similarDocs eqn:Hsim.
  assert (Hbest : forall best rest, similarDocs = best :: rest ->
            query_fails W QAllDocuments = false
            /\ exists d, In d (documents b2)
                         /\ sim_ai_summary best = ai_summary d).
  { intros best rest E. rewrite E in Hsim. revert Hsim.
    destruct (query_fails W QAllDocuments); intros Hsim; [discriminate|].
    split; [reflexivity|].
    assert (Hin : In best (best :: rest)) by now left.
    rewrite Hsim in Hin. apply result_from_rows in Hin.
    destruct Hin as [d [Hd [-> _]]]. exists d. split; [|reflexivity].
    apply (proj1 (after_commits_keeps W (committed_before_insert W) b1)).
    apply (proj1 (select_all_In _ _) Hd). }
  clear Hsim.
  destruct similarDocs as [|best rest].
  - destruct (num_ge num_zero th); destruct a as [summary|];
      try solve [leaf b1 (@nil document)]; insert_site b2 Hq3.
  - destruct (Hbest best rest eq_refl) as [Hq4 [d [Hd Ed]]].
    destruct (num_ge (similarity_score best) th).
    + insert_site b2 Hq3.
      * intros _. exists d. split; [exact Hd|]. now rewrite Ed.
      * intros [[q Hq]|Hemb] _.
        -- destruct q; congruence.
        -- exfalso. now apply (Hemb v).
    + destruct a as [summary|];
        try solve [leaf b1 (@nil document)]; insert_site b2 Hq3.
Qed.

Ltac new_calls H2 :=
  simpl in H2; rewrite <- ?app_assoc in H2; simpl in H2;
  first [ apply app_inv_head in H2
        | rewrite <- (app_nil_r (trace _)) in H2 at 1;
          apply app_inv_head in H2 ];
  subst.

Ltac wrong_case :=
  first [ intros ? ? ? ?; try discriminate; simpl in *; congruence
        | intros ? ? ?; try discriminate; simpl in *; congruence
        | intros ? ?; try discriminate; simpl in *; congruence
        | intros ?; try discriminate; simpl in *; congruence ].

Ltac right_case :=
  simpl; intros;
  repeat match goal with
         | H : _ :: _ = _ :: _ |- _ => injection H as ? ?; subst
         | H : Some _ = Some _ |- _ => injection H as ?; subst
         end;
  split; [reflexivity|];
  split; [first [ intros _; split; reflexivity
                | intros ?; discriminate ]|];
  first [ intros _; split; reflexivity | intros ?; discriminate ].

Ltac insert_outcome accepted H2 :=
  let H1 := fresh "Hrun" in
  intros H1; injection H1 as <- <-; new_calls H2;
  split; [first [right_case | wrong_case]|];
  split; [first [right_case | wrong_case]|];
  wrong_case.

Ltac insert_decided accepted b2 H2 :=
  match goal with
  | |- context [insertDocument ?W ?nd _] =>
      rewrite insertDocument_run; simpl; fold b2;
      let Hq3 := fresh "Hq3" in
      let Hex := fresh "Hex" in
      destruct (query_fails W QInsertDocument) eqn:Hq3;
      [ assert (accepted = false) as ->
          by (unfold accepted; rewrite ?Hq3; reflexivity);
        insert_outcome accepted H2
      | unfold db_insert; simpl new_file_hash;
        destruct (existsb (has_hash _) (documents b2)) eqn:Hex;
        [ assert (accepted = false) as ->
            by (unfold accepted; rewrite ?Hq3, ?Hex; reflexivity);
          insert_outcome accepted H2
        | assert (accepted = true) as ->
            by (unfold accepted; rewrite ?Hq3, ?Hex; reflexivity);
          insert_outcome accepted H2 ] ]
  end.

Ltac generation_decided H2 :=
  let H1 := fresh "Hrun" in
  intros H1; injection H1 as <- <-; new_calls H2;
  split; [wrong_case|];
  split; [wrong_case|];
  simpl; intros; repeat split.

(** C8: every invocation of [processDocumentWithRAG] returns, asks for at
    most one insert, and leaves the table other requests made (before it
    started, or while it awaited) with its own rows appended: exactly one
    row from the similar-match branch and from the no-match branch that was
    given a summary, none from the exact-match, disabled, needs-generation
    and error branches. Which branch a run takes follows from what it is
    given and what it finds: RAG switched off; the hash found; a hash miss
    with a best match at or above the threshold, where the upload is
    inserted with the annotated summary; a hash miss without such a match
    and with a summary, where it is inserted with that summary; the same
    without a summary, where nothing is inserted; and a failure on the
    way, where nothing is inserted either. An insert that the database
    accepts adds its row to the table; one it refuses ends in the error
    branch. *)
Theorem at_most_one_insert {A : Arith} (W : world) (C : config) (f : file)
    (extractedText : string) (aiSummary0 : option string) (s : state) :
  let h := sha256_hex W (buffer f) in
  let b1 := after_commits W (committed_before_scan W) (db s) in
  let b2 := after_commits W (committed_before_insert W) b1 in
  let threshold :=
    threshold_of W C (assoc "similarity_threshold" (rag_settings b1)) in
  let maxDocs :=
    maxDocs_of W C (assoc "max_similar_documents" (rag_settings b1)) in
  let accepted :=
    negb (query_fails W QInsertDocument)
    && negb (existsb (has_hash h) (documents b2)) in
  exists r s' t b own,
    processDocumentWithRAG W C f extractedText aiSummary0 s = (Ok r, s')
    /\ trace s' = trace s ++ t
    /\ (length (filter is_insert t) <= 1)%nat
    /\ (b = db s \/ b = b1 \/ b = b2)
    /\ documents (db s') = documents b ++ own
    /\ length own = inserts_of (branch_of r)
    /\ (length own <= 1)%nat
    /\ (RAG_ENABLED C = false ->
        branch_of r = Disabled /\ t = [])
    /\ (RAG_ENABLED C = true ->
        query_fails W QDocumentByHash = true
        \/ (find (has_hash h) (documents (db s)) = None
            /\ (forall v, ollama_embeddings W extractedText <> Some (JArray v)))
        \/ (find (has_hash h) (documents (db s)) = None
            /\ query_fails W QRagSetting = true) ->
        branch_of r = Failed /\ filter is_insert t = [])
    /\ (RAG_ENABLED C = true ->
        query_fails W QDocumentByHash = false ->
        forall existing,
          find (has_hash h) (documents (db s)) = Some existing ->
          branch_of r = ExactMatch /\ filter is_insert t = [])
    /\ (RAG_ENABLED C = true ->
        query_fails W QDocumentByHash = false ->
        find (has_hash h) (documents (db s)) = None ->
        forall v,
          ollama_embeddings W extractedText = Some (JArray v) ->
          query_fails W QRagSetting = false ->
          let similarDocs :=
            if query_fails W QAllDocuments then []
            else findSimilarDocuments_rows (JArray v) threshold maxDocs
                   (select_all_documents (documents b1)) in
          let matched :=
            match similarDocs with
            | best :: _ => num_ge (similarity_score best) threshold
            | [] => false
            end in
          let nd summary := new_of C f h extractedText summary (JArray v) in
          (forall best rest,
             similarDocs = best :: rest ->
             matched = true ->
             let summary :=
               similar_annotation (sim_filename best) (sim_ai_summary best) in
             filter is_insert t = [EvInsert (nd summary)]
             /\ (accepted = true ->
                 branch_of r = SimilarMatch
                 /\ documents (db s')
                    = documents b2
                      ++ [row_of W (nd summary) (auto_increment b2)])
             /\ (accepted = false ->
                 branch_of r = Failed
                 /\ documents (db s') = documents b2))
          /\ (matched = false ->
              forall summary,
                aiSummary0 = Some summary ->
                filter is_insert t = [EvInsert (nd summary)]
                /\ (accepted = true ->
                    branch_of r = NoMatchStored
                    /\ documents (db s')
                       = documents b2
                         ++ [row_of W (nd summary) (auto_increment b2)])
                /\ (accepted = false ->
                    branch_of r = Failed
                    /\ documents (db s') = documents b2))
          /\ (matched = false ->
              aiSummary0 = None ->
              branch_of r = NeedsGeneration
              /\ filter is_insert t = []
              /\ documents (db s') = documents b1)).
Proof.
  intros h b1 b2 threshold maxDocs accepted.
  destruct (process_outcomes W C f extractedText aiSummary0 s)
    as (r & s' & t & b & own & H1 & H2 & H3 & H4 & H5 & H6 & _).
  exists r, s', t, b, own.
  split; [exact H1|]. split; [exact H2|]. split; [exact H3|].
  split; [exact H4|]. split; [exact H5|]. split; [exact H6|].
  split; [rewrite H6; destruct (branch_of r); simpl; lia|].
  clear H3 H4 H5 H6 b own.
  split; [|split; [|split]].
  - (* switched off *)
    intros Hon. revert H1. unfold processDocumentWithRAG. rewrite Hon.
    unfold try_catch, ret. simpl. intros H1. inversion H1; subst.
    split; [reflexivity|]. new_calls H2. reflexivity.
  - (* a failure before the decision *)
    intros Hon Hfail. revert H1. unfold processDocumentWithRAG.
    rewrite Hon. simpl negb. cbv iota.
    unfold getDocumentByHash, generateEmbedding, getRagSetting,
      others_commit, executeQuery, try_catch, bind, emit,
      get_db, put_db, ret, throw, generateFileHash. simpl.
    destruct Hfail as [Hq1 | [[Hfind Hemb] | [Hfind Hq2]]].
    + rewrite Hq1. simpl. intros H1. inversion H1; subst.
      split; [reflexivity|]. new_calls H2. reflexivity.
    + destruct (query_fails W QDocumentByHash); simpl.
      { intros H1. inversion H1; subst.
        split; [reflexivity|]. new_calls H2. reflexivity. }
      fold h. rewrite Hfind.
      destruct (ollama_embeddings W extractedText) as [[v|]|] eqn:He;
        [now contradiction (Hemb v)|..]; simpl;
        intros H1; inversion H1; subst;
        (split; [reflexivity|]); new_calls H2; reflexivity.
    + destruct (query_fails W QDocumentByHash); simpl.
      { intros H1. inversion H1; subst.
        split; [reflexivity|]. new_calls H2. reflexivity. }
      fold h. rewrite Hfind.
      destruct (ollama_embeddings W extractedText) as [[v|]|] eqn:He;
        simpl; try rewrite Hq2; simpl;
        intros H1; inversion H1; subst;
        (split; [reflexivity|]); new_calls H2; reflexivity.
  - (* the hash is found *)
    intros Hon Hq1 existing Hfind. revert H1.
    unfold processDocumentWithRAG. rewrite Hon. simpl negb. cbv iota.
    unfold getDocumentByHash, executeQuery, try_catch, bind, emit,
      get_db, ret, throw, generateFileHash. simpl.
    rewrite Hq1. simpl. fold h. rewrite Hfind.
    intros H1. inversion H1; subst.
    split; [reflexivity|]. new_calls H2. reflexivity.
  - (* the decision *)
    intros Hon Hq1 Hfind v He Hq2. cbv zeta. revert H1.
    fold h in Hfind.
    unfold processDocumentWithRAG.
    rewrite Hon. simpl negb. cbv iota.
    unfold getDocumentByHash, generateEmbedding, getRagSetting,
      others_commit, executeQuery, try_catch, bind, emit,
      get_db, put_db, ret, throw, generateFileHash. simpl.
    rewrite Hq1. simpl. fold h. rewrite Hfind. rewrite He. simpl.
    rewrite Hq2. simpl.
    rewrite findSimilarDocuments_run. simpl. fold b1.
    fold threshold maxDocs.
    set (similarDocs :=
           if query_fails W QAllDocuments then []
           else findSimilarDocuments_rows (JArray v) threshold maxDocs
                  (select_all_documents (documents b1))).
    clearbody similarDocs.
    destruct similarDocs as [|best rest].
    + destruct (num_ge num_zero threshold);
        destruct aiSummary0 as [summary|].
      * insert_decided accepted b2 H2.
      * generation_decided H2.
      * insert_decided accepted b2 H2.
      * generation_decided H2.
    + destruct (num_ge (similarity_score best) threshold) eqn:Hge.
      * insert_decided accepted b2 H2.
      * destruct aiSummary0 as [summary|].
        -- insert_decided accepted b2 H2.
        -- generation_decided H2.
Qed.

(** C3: whatever fails in the cache layer (the hash lookup, the embedding
    service, the settings, the scan, the insert), the handler answers with
    a summary and never with an error: the summary the generation model
    produced for this upload whenever the result does not come from the
    store, a stored summary otherwise; and under any such failure it is the
    generated one unless the hash lookup found the very file. *)
Theorem cache_failures_degrade {A : Arith} (W : world) (C : config)
    (f : file) (text : string) (s : state) :
  exists content r s',
    analyze W C f text s = (Download content r, s')
    /\ (isFromRAG r = false -> content = summarize W 0 text)
    /\ (isFromRAG r = true ->
        exists d, In d (documents (db s')) /\ content = ai_summary d)
    /\ (cache_fault W text ->
        content = summarize W 0 text \/ exactMatch r = Some true).
Proof.
  unfold analyze, analyze_rag.
  destruct (env_RAG_ENABLED C).
  - unfold summarizeLongText, try_catch, bind, emit, ret.
    destruct (process_outcomes W C f text (Some (summarize W 0 text))
                {| db := db s; trace := trace s ++ [EvGenerate text] |})
      as (r & s' & t & b & own & H1 & _ & _ & _ & H5 & _ & H7 & _ & H9
          & H10).
    rewrite H1. destruct (isFromRAG r) eqn:Hfrom.
    + destruct (H9 eq_refl) as [d [Hd Hsum]]. rewrite Hsum.
      exists (ai_summary d), r, s'. split; [reflexivity|].
      split; [congruence|]. split.
      * intros _. exists d. split; [|reflexivity].
        rewrite H5. apply in_or_app. now left.
      * intros Hfault. right. now apply H10.
    + exists (summarize W 0 text), r, s'. split; [reflexivity|].
      split; [reflexivity|]. split; [congruence|]. now left.
  - unfold summarizeLongText, bind, emit, ret.
    eexists. eexists. eexists. split; [reflexivity|]. simpl.
    split; [reflexivity|]. split; [discriminate|]. now left.
Qed.

Lemma cache_failures_degrade_witness :
  cache_fault world_no_embedding "text"
  /\ exists content r s',
       analyze world_no_embedding config0 (upload "n.pdf" "n") "text"
         (start [doc_c])
       = (Download content r, s')
       /\ (isFromRAG r = false ->
           content = summarize world_no_embedding 0 "text")
       /\ (isFromRAG r = true ->
           exists d, In d (documents (db s')) /\ content = ai_summary d)
       /\ (cache_fault world_no_embedding "text" ->
           content = summarize world_no_embedding 0 "text"
           \/ exactMatch r = Some true).
Proof.
  split; [right; discriminate|].
  apply (@cache_failures_degrade binary64 world_no_embedding config0).
Defined.

(** The run of a hash miss up to the insert, when nothing fails before. *)
Ltac run_to_decision W b1 Hon Hq1 Hfind He Hq2 :=
  unfold processDocumentWithRAG;
  rewrite Hon; simpl negb; cbv iota;
  unfold getDocumentByHash, generateEmbedding, getRagSetting,
    others_commit, executeQuery, try_catch, bind, emit,
    get_db, put_db, ret, throw, generateFileHash; simpl;
  rewrite Hq1; simpl; rewrite Hfind; rewrite He; simpl;
  rewrite Hq2; simpl;
  rewrite findSimilarDocuments_run; simpl; fold b1.



(** C7, amended: when the insert is rejected because a concurrent upload
    of the same bytes committed its row after this request's hash lookup
    missed, the orchestrator does not look the hash up again: the rejection
    is caught like any other failure, and the result carries the summary the
    caller supplied, with [isFromRAG] false and the error message. The
    table keeps the winner's row and gains none. *)
Theorem duplicate_hash_falls_back {A : Arith} (W : world) (C : config)
    (f : file) (text summary : string) (s : state) (v : list num) :
  let h := sha256_hex W (buffer f) in
  let b1 := after_commits W (committed_before_scan W) (db s) in
  let b2 := after_commits W (committed_before_insert W) b1 in
  RAG_ENABLED C = true ->
  query_fails W QDocumentByHash = false ->
  query_fails W QRagSetting = false ->
  query_fails W QInsertDocument = false ->
  find (has_hash h) (documents (db s)) = None ->
  ollama_embeddings W text = Some (JArray v) ->
  existsb (has_hash h) (documents b2) = true ->
  exists r s' t,
    processDocumentWithRAG W C f text (Some summary) s = (Ok r, s')
    /\ isFromRAG r = false
    /\ aiSummary r = Some summary
    /\ similarDocuments r = []
    /\ error r = Some "Duplicate entry for key 'documents.file_hash'"%string
    /\ db s' = b2
    /\ trace s' = trace s ++ t
    /\ filter is_hash_lookup t = [EvHashLookup h].
Proof.
  intros h b1 b2 Hon Hq1 Hq2 Hq3 Hfind He Hdup. subst h.
  run_to_decision W b1 Hon Hq1 Hfind He Hq2.
  set (th := threshold_of W C
               (assoc "similarity_threshold" (rag_settings b1))).
  set (similarDocs :=
         if query_fails W QAllDocuments then []
         else findSimilarDocuments_rows (JArray v) th
                (maxDocs_of W C
                   (assoc "max_similar_documents" (rag_settings b1)))
                (select_all_documents (documents b1))).
  assert (Hrejected : forall text0,
    insertDocument W
      (new_of C f (sha256_hex W (buffer f)) text text0 (JArray v))
      {| db := b2;
         trace := ((((trace s ++ [EvHashLookup (sha256_hex W (buffer f))])
                     ++ [EvEmbedding text])
                    ++ [EvSetting "similarity_threshold"])
                   ++ [EvSetting "max_similar_documents"]) ++ [EvScan] |}
    = (Throw "Duplicate entry for key 'documents.file_hash'",
       {| db := b2;
          trace := (((((trace s
                        ++ [EvHashLookup (sha256_hex W (buffer f))])
                       ++ [EvEmbedding text])
                      ++ [EvSetting "similarity_threshold"])
                     ++ [EvSetting "max_similar_documents"]) ++ [EvScan])
                   ++ [EvInsert
                         (new_of C f (sha256_hex W (buffer f)) text text0
                            (JArray v))] |})).
  { intros text0. rewrite insertDocument_run. simpl. rewrite Hq3.
    unfold db_insert. simpl. rewrite Hdup. reflexivity. }
  destruct similarDocs as [|best rest];
    [destruct (num_ge num_zero th)
    |destruct (num_ge (similarity_score best) th)];
    fold b2; rewrite Hrejected;
    (eexists; eexists; eexists; split; [reflexivity|];
     repeat (split; [reflexivity|]);
     split; [close_trace | reflexivity]).
Qed.

Lemma duplicate_hash_falls_back_witness :
  let f := upload "n.pdf" "n" in
  let W := world_race f in
  let s := start [doc_c] in
  RAG_ENABLED config0 = true
  /\ find (has_hash (sha256_hex W (buffer f))) (documents (db s)) = None
  /\ existsb (has_hash (sha256_hex W (buffer f)))
       (documents
          (after_commits W (committed_before_insert W)
             (after_commits W (committed_before_scan W) (db s))))
     = true
  /\ exists r s' t,
       processDocumentWithRAG W config0 f "text" (Some "mine"%string) s
       = (Ok r, s')
       /\ isFromRAG r = false
       /\ aiSummary r = Some "mine"%string
       /\ similarDocuments r = []
       /\ error r
          = Some "Duplicate entry for key 'documents.file_hash'"%string
       /\ db s'
          = after_commits W (committed_before_insert W)
              (after_commits W (committed_before_scan W) (db s))
       /\ trace s' = trace s ++ t
       /\ filter is_hash_lookup t
          = [EvHashLookup (sha256_hex W (buffer f))].
Proof.
  intros f W s. split; [reflexivity|]. split; [reflexivity|].
  split; [reflexivity|].
  apply (@duplicate_hash_falls_back binary64 W config0 f "text" "mine" s
           (map d [1; 0]) eq_refl eq_refl eq_refl eq_refl eq_refl eq_refl
           eq_refl).
Defined.

(** C7 as stated fails: the race lost, the hash is looked up once, not
    again, and the caller gets its own summary, not the winner's, which
    stays in the table. *)
Lemma duplicate_hash_not_recovered :
  let f := upload "n.pdf" "n" in
  let run := processDocumentWithRAG (world_race f) config0 f "text"
               (Some "mine"%string) (start [doc_c]) in
  returned (fst run)
    (fun r => aiSummary r = Some "mine"%string
              /\ aiSummary r <> Some "winner"%string
              /\ isFromRAG r = false
              /\ exactMatch r = None)
  /\ length (filter is_hash_lookup (trace (snd run))) = 1%nat
  /\ map (@ai_summary binary64)
       (filter (has_hash "h:n") (documents (db (snd run))))
     = ["winner"%string].
Proof.
  vm_compute. repeat split. discriminate.
Qed.


(** ** The scenarios of the specification, run on the example store *)

(** A first upload is summarised and stored; the same bytes again are
    answered from the store, nothing added. *)
Example scenario_first_then_again :
  let f := upload "d1.pdf" "d1" in
  let first := analyze world0 config0 f "Quarterly results" (start []) in
  let again := analyze world0 config0 f "Quarterly results"
                 {| db := db (snd first); trace := [] |} in
  answered (fst first)
    (fun content r =>
       content = "summary of Quarterly results"%string
       /\ branch_of r = NoMatchStored)
  /\ map (@file_hash binary64) (documents (db (snd first)))
     = ["h:d1"%string]
  /\ answered (fst again)
       (fun content r =>
          content = "summary of Quarterly results"%string
          /\ branch_of r = ExactMatch)
  /\ map (@file_hash binary64) (documents (db (snd again)))
     = ["h:d1"%string].
Proof. vm_compute. repeat split. Qed.

(** A near duplicate of a stored document (score 12/13, threshold 0.85) is
    answered with the stored summary and stored with the annotation; an
    unrelated one (score 0.6) is summarised afresh; with the embedding
    service down the upload is still answered, and nothing is stored. *)
Example scenario_similar_unrelated_degraded :
  let f := upload "d2.pdf" "d2" in
  let similar_run := analyze world0 config0 f "text" (start [doc_a]) in
  let unrelated_run := analyze world0 config0 f "text" (start [doc_c]) in
  let degraded_run :=
    analyze world_no_embedding config0 f "text" (start [doc_a]) in
  answered (fst similar_run)
    (fun content r => content = "A"%string /\ branch_of r = SimilarMatch)
  /\ map (@ai_summary binary64) (documents (db (snd similar_run)))
     = ["A"; "[Similar to: a.pdf]" ++ newline ++ newline ++ "A"]%string
  /\ answered (fst unrelated_run)
       (fun content r =>
          content = "summary of text"%string
          /\ branch_of r = NoMatchStored)
  /\ answered (fst degraded_run)
       (fun content r =>
          content = "summary of text"%string /\ branch_of r = Failed)
  /\ map (@ai_summary binary64) (documents (db (snd degraded_run)))
     = ["A"%string].
Proof. vm_compute. repeat split. Qed.

(** * Further properties of the code *)

(** ** The shape of a run of the orchestrator *)

Ltac pick_db :=
  first [ left; reflexivity
        | right; left; reflexivity
        | right; right; reflexivity ].

Ltac close_shape Hins :=
  split; [reflexivity|];
  split; [close_trace|];
  split; [eexists; simpl; reflexivity|];
  split; [reflexivity|];
  simpl;
  split; [first [ intros _; pick_db | intros H0; discriminate H0 ]|];
  split; [first [ intros H0; discriminate H0
                | intros _; eexists; exact Hins ]|];
  split; [first [ intros H0; discriminate H0
                | intros _; split; reflexivity ]|];
  split; [first [ intros H0; discriminate H0
                | intros _; eexists; split; reflexivity ]|];
  first [ intros H0; discriminate H0
        | intros _ H0; discriminate H0 ].

Ltac shape_leaf nd :=
  eexists; eexists; eexists; exists nd; close_shape I.

Ltac shape_insert b2 :=
  match goal with
  | |- context [insertDocument ?W ?nd _] =>
      rewrite insertDocument_run; simpl; fold b2;
      destruct (query_fails W QInsertDocument);
      [ shape_leaf nd
      | let Hins := fresh "Hins" in
        destruct (db_insert W nd b2) as [[? ?]|] eqn:Hins;
        [ eexists; eexists; eexists; exists nd; close_shape Hins
        | shape_leaf nd ] ]
  end.

(** Every run of [processDocumentWithRAG] in full: the calls it makes are a
    leading part of one fixed sequence, and the table it leaves is the one
    other requests made, or that table after the one insert of the run. *)
Lemma process_shape {A : Arith} (W : world) (C : config) (f : file)
    (text : string) (a : option string) (s : state) :
  let h := sha256_hex W (buffer f) in
  let b1 := after_commits W (committed_before_scan W) (db s) in
  let b2 := after_commits W (committed_before_insert W) b1 in
  exists r s' t nd,
    processDocumentWithRAG W C f text a s = (Ok r, s')
    /\ trace s' = trace s ++ t
    /\ (exists rest,
          [EvHashLookup h; EvEmbedding text;
           EvSetting "similarity_threshold";
           EvSetting "max_similar_documents"; EvScan; EvInsert nd]
          = t ++ rest)
    /\ new_file_hash nd = h
    /\ (inserts_of (branch_of r) = 0%nat ->
        db s' = db s \/ db s' = b1 \/ db s' = b2)
    /\ (inserts_of (branch_of r) = 1%nat ->
        exists i, db_insert W nd b2 = Some (i, db s'))
    /\ (branch_of r = NoMatchStored ->
        a = Some (new_ai_summary nd) /\ aiSummary r = a)
    /\ (branch_of r = SimilarMatch ->
        exists best,
          aiSummary r = Some (sim_ai_summary best)
          /\ new_ai_summary nd
             = similar_annotation (sim_filename best) (sim_ai_summary best))
    /\ (a = None -> branch_of r <> NoMatchStored).
Proof.
  intros h b1 b2. subst h.
  set (nd0 := new_of C f (sha256_hex W (buffer f)) text "" JNotArray).
  unfold processDocumentWithRAG.
  destruct (RAG_ENABLED C) eqn:Hon; simpl negb; cbv iota.
  2: { unfold try_catch, ret. shape_leaf nd0. }
  unfold getDocumentByHash, generateEmbedding, getRagSetting,
    others_commit, executeQuery, try_catch, bind, emit,
    get_db, put_db, ret, throw, generateFileHash. simpl.
  destruct (query_fails W QDocumentByHash) eqn:Hq1; simpl.
  { shape_leaf nd0. }
  destruct (find (has_hash (sha256_hex W (buffer f))) (documents (db s)))
    as [existing|] eqn:Hfind.
  { shape_leaf nd0. }
  destruct (ollama_embeddings W text) as [[v|]|] eqn:He; simpl;
    try solve [shape_leaf nd0].
  destruct (query_fails W QRagSetting) eqn:Hq2; simpl.
  { shape_leaf nd0. }
  rewrite findSimilarDocuments_run. simpl. fold b1.
  set (th := threshold_of W C
               (assoc "similarity_threshold" (rag_settings b1))).
  set (similarDocs :=
         if query_fails W QAllDocuments then []
         else findSimilarDocuments_rows (JArray v) th
                (maxDocs_of W C
                   (assoc "max_similar_documents" (rag_settings b1)))
                (select_all_documents (documents b1))).
  destruct similarDocs as [|best rest].
  - destruct (num_ge num_zero th); destruct a as [summary|];
      try solve [shape_leaf nd0]; shape_insert b2.
  - destruct (num_ge (similarity_score best) th).
    + shape_insert b2.
    + destruct a as [summary|];
        try solve [shape_leaf nd0]; shape_insert b2.
Qed.

(** X1: whatever fails and whatever the store holds, the calls of one run
    of [processDocumentWithRAG] are a leading part of the sequence hash
    lookup, embedding, threshold setting, limit setting, scan, insert: no
    call is made twice, none out of this order, and a run that stops early
    has made none of the later ones. *)
Theorem calls_follow_one_order {A : Arith} (W : world) (C : config)
    (f : file) (text : string) (aiSummary0 : option string) (s : state) :
  exists r s' t nd rest,
    processDocumentWithRAG W C f text aiSummary0 s = (Ok r, s')
    /\ trace s' = trace s ++ t
    /\ full_run_calls (sha256_hex W (buffer f)) text nd = t ++ rest
    /\ new_file_hash nd = sha256_hex W (buffer f).
Proof.
  destruct (process_shape W C f text aiSummary0 s)
    as (r & s' & t & nd & H1 & H2 & [rest H3] & H4 & _).
  exists r, s', t, nd, rest. repeat split; assumption.
Qed.

(** ** The table of documents *)

Lemma find_after_append {T : Type} (p : T -> bool) (l : list T) (x : T) :
  existsb p l = false -> p x = true -> find p (l ++ [x]) = Some x.
Proof.
  induction l as [|y l IH]; simpl; intros Hl Hx.
  - now rewrite Hx.
  - apply orb_false_iff in Hl. destruct Hl as [Hy Hl].
    rewrite Hy. now apply IH.
Qed.

Lemma find_append_other {T : Type} (p : T -> bool) (l : list T) (x : T) :
  p x = false -> find p (l ++ [x]) = find p l.
Proof.
  induction l as [|y l IH]; simpl; intros Hx.
  - now rewrite Hx.
  - destruct (p y); [reflexivity | now apply IH].
Qed.

Lemma NoDup_snoc {T : Type} (l : list T) (x : T) :
  NoDup l -> ~ In x l -> NoDup (l ++ [x]).
Proof.
  induction 1 as [|y l Hy Hl IH]; simpl; intros Hx.
  - constructor; [tauto | constructor].
  - constructor.
    + rewrite in_app_iff. simpl. intuition.
    + apply IH. tauto.
Qed.

Lemma db_insert_unique {A : Arith} (W : world) (d : new_document)
    (b b' : database) (i : Z) :
  db_insert W d b = Some (i, b') -> unique_hashes b -> unique_hashes b'.
Proof.
  intros Hins Hu. apply db_insert_appends in Hins.
  destruct Hins as (E1 & _ & Hfree).
  unfold unique_hashes in *. rewrite E1, map_app. simpl.
  apply NoDup_snoc; [assumption|].
  intros Hin. apply in_map_iff in Hin. destruct Hin as [x [Hx Hin]].
  assert (Hex : existsb (has_hash (new_file_hash d)) (documents b) = true).
  { apply existsb_exists. exists x. split; [assumption|].
    unfold has_hash. rewrite Hx. simpl. apply String.eqb_refl. }
  congruence.
Qed.

Lemma after_commits_unique {A : Arith} (W : world)
    (ds : list new_document) (b : database) :
  unique_hashes b -> unique_hashes (after_commits W ds b).
Proof.
  revert b. induction ds as [|d ds IH]; intros b Hu; simpl; [assumption|].
  destruct (db_insert W d b) as [[i b']|] eqn:E.
  - apply IH. eapply db_insert_unique; eassumption.
  - now apply IH.
Qed.

(** X2: the orchestrator keeps the table free of duplicate hashes: if no
    two stored documents share a [file_hash] before a run, none do after
    it, whatever concurrent requests committed meanwhile and whichever
    branch the run took. *)
Theorem hashes_stay_unique {A : Arith} (W : world) (C : config) (f : file)
    (text : string) (aiSummary0 : option string) (s : state) :
  unique_hashes (db s) ->
  exists r s',
    processDocumentWithRAG W C f text aiSummary0 s = (Ok r, s')
    /\ unique_hashes (db s').
Proof.
  intros Hu.
  destruct (process_shape W C f text aiSummary0 s)
    as (r & s' & t & nd & H1 & _ & _ & _ & H5 & H6 & _).
  exists r, s'. split; [assumption|].
  pose proof (after_commits_unique W (committed_before_scan W) Hu) as Hu1.
  pose proof (after_commits_unique W (committed_before_insert W) Hu1) as Hu2.
  destruct (inserts_of (branch_of r)) as [|[|n]] eqn:E.
  - destruct (H5 eq_refl) as [->|[->| ->]]; assumption.
  - destruct (H6 eq_refl) as [i Hins].
    eapply db_insert_unique; eassumption.
  - destruct (branch_of r); discriminate.
Qed.

Lemma hashes_stay_unique_witness :
  unique_hashes (db (start [doc_c; doc_a]))
  /\ exists r s',
       processDocumentWithRAG (world_race (upload "n.pdf" "n")) config0
         (upload "n.pdf" "n") "text" (Some "mine"%string)
         (start [doc_c; doc_a])
       = (Ok r, s')
       /\ unique_hashes (db s').
Proof.
  assert (Hu : unique_hashes (db (start [doc_c; doc_a]))).
  { unfold unique_hashes. simpl.
    constructor; [|constructor; [|constructor]]; simpl; intuition.
    discriminate. }
  split; [exact Hu|].
  apply (@hashes_stay_unique binary64 (world_race (upload "n.pdf" "n"))
           config0 (upload "n.pdf" "n") "text" (Some "mine"%string)
           (start [doc_c; doc_a]) Hu).
Defined.

Lemma getDocumentByHash_run {A : Arith} (W : world) (hash : string)
    (s : state) :
  getDocumentByHash W hash s
  = (if query_fails W QDocumentByHash then Throw "Database query error"
     else Ok (find (has_hash hash) (documents (db s))),
     {| db := db s; trace := trace s ++ [EvHashLookup hash] |}).
Proof.
  unfold getDocumentByHash. run_monad. simpl.
  destruct (query_fails W QDocumentByHash); reflexivity.
Qed.

(** X3: insert and lookup round trip. After [insertDocument] accepted a
    document, [getDocumentByHash] on its hash returns one row, the one just
    stored: it has the id returned and the file name, hash, size, type,
    text, summary and model name given; the lookup of any other hash
    answers as before the insert. (Nothing is said of the [embedding]
    column: it is written through [JSON.stringify] and read back parsed.) *)
Theorem insert_then_lookup {A : Arith} (W : world) (d : new_document)
    (s s1 : state) (insertId : Z) :
  insertDocument W d s = (Ok insertId, s1) ->
  query_fails W QDocumentByHash = false ->
  (exists stored,
     fst (getDocumentByHash W (new_file_hash d) s1) = Ok (Some stored)
     /\ In stored (documents (db s1))
     /\ ~ In stored (documents (db s))
     /\ doc_id stored = insertId
     /\ filename stored = new_filename d
     /\ file_hash stored = new_file_hash d
     /\ file_size stored = new_file_size d
     /\ mime_type stored = new_mime_type d
     /\ extracted_text stored = new_extracted_text d
     /\ ai_summary stored = new_ai_summary d
     /\ embedding_model stored = new_embedding_model d)
  /\ forall other,
       String.eqb (new_file_hash d) other = false ->
       fst (getDocumentByHash W other s1)
       = fst (getDocumentByHash W other s).
Proof.
  rewrite insertDocument_run.
  destruct (query_fails W QInsertDocument); [discriminate|].
  destruct (db_insert W d (db s)) as [[i b']|] eqn:Hins; [|discriminate].
  intros Hrun Hq. injection Hrun as <- <-.
  rewrite !getDocumentByHash_run. rewrite Hq. simpl.
  unfold db_insert in Hins.
  destruct (existsb (has_hash (new_file_hash d)) (documents (db s))) eqn:E;
    [discriminate|].
  injection Hins as <- <-. simpl. split.
  - exists (row_of W d (auto_increment (db s))).
    split.
    { f_equal. apply find_after_append; [assumption|].
      unfold has_hash. simpl. apply String.eqb_refl. }
    split; [apply in_or_app; right; now left|].
    split.
    { intros Hin.
      assert (Hex : existsb (has_hash (new_file_hash d)) (documents (db s))
                    = true).
      { apply existsb_exists. eexists. split; [exact Hin|].
        unfold has_hash. simpl. apply String.eqb_refl. }
      congruence. }
    repeat split.
  - intros other Hother. rewrite !getDocumentByHash_run, Hq. simpl.
    f_equal. apply find_append_other. unfold has_hash. simpl. exact Hother.
Qed.

Lemma insert_then_lookup_witness :
  let d := racing (upload "n.pdf" "n") "mine" in
  let s := start [doc_c] in
  let s1 := snd (insertDocument world0 d s) in
  insertDocument world0 d s = (Ok 10, s1)
  /\ query_fails world0 QDocumentByHash = false
  /\ exists stored,
       fst (getDocumentByHash world0 (new_file_hash d) s1)
       = Ok (Some stored)
       /\ In stored (documents (db s1))
       /\ ~ In stored (documents (db s))
       /\ doc_id stored = 10
       /\ filename stored = new_filename d
       /\ file_hash stored = new_file_hash d
       /\ file_size stored = new_file_size d
       /\ mime_type stored = new_mime_type d
       /\ extracted_text stored = new_extracted_text d
       /\ ai_summary stored = new_ai_summary d
       /\ embedding_model stored = new_embedding_model d.
Proof.
  intros d s s1. split; [reflexivity|]. split; [reflexivity|].
  apply (proj1 (@insert_then_lookup binary64 world0 d s s1 10
                  eq_refl eq_refl)).
Defined.

(** X4: a second upload of the same bytes, after a run that stored a row
    for them, is answered as an exact match with the summary that row
    holds, and the second run changes nothing in the table. After a
    no-match run the second answer is the first one; after a similar match
    it is the first answer behind the [[Similar to: ...]] annotation. *)
Theorem reupload_returns_stored {A : Arith} (W W2 : world) (C C2 : config)
    (f : file) (text text2 : string) (a a2 : option string)
    (s s1 s2 : state) (r1 : rag_result) :
  processDocumentWithRAG W C f text a s = (Ok r1, s1) ->
  inserts_of (branch_of r1) = 1%nat ->
  db s2 = db s1 ->
  RAG_ENABLED C2 = true ->
  query_fails W2 QDocumentByHash = false ->
  sha256_hex W2 (buffer f) = sha256_hex W (buffer f) ->
  exists r2 stored,
    processDocumentWithRAG W2 C2 f text2 a2 s2
    = (Ok r2,
       {| db := db s2;
          trace := trace s2 ++ [EvHashLookup (sha256_hex W (buffer f))] |})
    /\ branch_of r2 = ExactMatch
    /\ aiSummary r2 = Some stored
    /\ (branch_of r1 = NoMatchStored -> aiSummary r1 = Some stored)
    /\ (branch_of r1 = SimilarMatch ->
        exists matched first_answer,
          aiSummary r1 = Some first_answer
          /\ stored = similar_annotation matched first_answer).
Proof.
  intros Hrun Hone Hdb Hon Hq Hsha.
  destruct (process_shape W C f text a s)
    as (r & s' & t & nd & H1 & _ & _ & H4 & _ & H6 & H7 & H8 & _).
  rewrite Hrun in H1. injection H1 as <- <-.
  destruct (H6 Hone) as [i Hins].
  pose proof (db_insert_appends _ _ _ Hins) as (E1 & _ & Hfree).
  assert (Hfind : find (has_hash (sha256_hex W2 (buffer f)))
                    (documents (db s2))
                  = Some (row_of W nd
                            (auto_increment
                               (after_commits W (committed_before_insert W)
                                  (after_commits W (committed_before_scan W)
                                     (db s)))))).
  { rewrite Hsha, Hdb, E1. rewrite H4 in Hfree.
    apply find_after_append; [assumption|].
    unfold has_hash. simpl. rewrite H4. apply String.eqb_refl. }
  rewrite (process_exact_hit W2 C2 f text2 a2 s2 Hon Hq Hfind).
  rewrite Hsha. eexists. exists (new_ai_summary nd).
  split; [reflexivity|]. split; [reflexivity|]. split; [reflexivity|].
  split.
  - intros Hb. destruct (H7 Hb) as [Ha Hr]. congruence.
  - intros Hb. destruct (H8 Hb) as [best [Hr Hn]].
    exists (sim_filename best), (sim_ai_summary best). now split.
Qed.

Lemma reupload_returns_stored_witness :
  let f := upload "n.pdf" "n" in
  let s := start [doc_c; doc_a] in
  let run1 :=
    processDocumentWithRAG world0 config0 f "text" (Some "mine"%string) s in
  let s1 := snd run1 in
  inserts_of (branch_of
                (match fst run1 with
                 | Ok r => r
                 | Throw _ => plain_result None
                 end)) = 1%nat
  /\ exists r2 stored,
       processDocumentWithRAG world0 config0 f "text" None s1
       = (Ok r2,
          {| db := db s1;
             trace := trace s1
                      ++ [EvHashLookup (sha256_hex world0 (buffer f))] |})
       /\ branch_of r2 = ExactMatch
       /\ aiSummary r2 = Some stored.
Proof.
  intros f s run1 s1. split; [reflexivity|].
  destruct (@reupload_returns_stored binary64 world0 world0 config0 config0
              f "text" "text" (Some "mine"%string) None s s1 s1
              (match fst run1 with
               | Ok r => r
               | Throw _ => plain_result None
               end)
              eq_refl eq_refl eq_refl eq_refl eq_refl eq_refl)
    as (r2 & stored & H1 & H2 & H3 & _).
  exists r2, stored. repeat split; assumption.
Defined.

(** X5: the PDF branch of the handler calls the generation model exactly
    once per request, as its first call, whatever RAG finds and whatever
    fails: since [processDocumentWithRAG] catches every failure itself, the
    handler's own fallback (a second generation) never runs. *)
Theorem analyze_generates_once {A : Arith} (W : world) (C : config)
    (f : file) (text : string) (s : state) :
  exists t,
    trace (snd (analyze W C f text s)) = trace s ++ EvGenerate text :: t
    /\ Forall (fun e => is_generate e = false) t.
Proof.
  unfold analyze, analyze_rag.
  destruct (env_RAG_ENABLED C).
  - unfold summarizeLongText, try_catch, bind, emit, ret.
    destruct (process_shape W C f text (Some (summarize W 0 text))
                {| db := db s; trace := trace s ++ [EvGenerate text] |})
      as (r & s' & t & nd & H1 & H2 & [rest H3] & _).
    rewrite H1. exists t. split.
    + destruct (isFromRAG r); [destruct (aiSummary r)|]; simpl;
        rewrite H2; simpl; now rewrite <- app_assoc.
    + assert (Hall : Forall (fun e => is_generate e = false) (t ++ rest)).
      { rewrite <- H3. repeat constructor. }
      apply Forall_app in Hall. tauto.
  - unfold summarizeLongText, bind, emit, ret. simpl.
    exists []. split; [reflexivity | constructor].
Qed.

(** ** The settings *)

Lemma assoc_upsert_same (key value : string)
    (rows : list (string * string)) :
  assoc key (upsert key value rows) = Some value.
Proof.
  induction rows as [|[k v] rows IH]; simpl.
  - now rewrite String.eqb_refl.
  - destruct (String.eqb k key) eqn:E; simpl; rewrite E; [reflexivity|].
    exact IH.
Qed.

Lemma assoc_upsert_other (key value other : string)
    (rows : list (string * string)) :
  String.eqb key other = false ->
  assoc other (upsert key value rows) = assoc other rows.
Proof.
  intros Hne. induction rows as [|[k v] rows IH]; simpl.
  - now rewrite Hne.
  - destruct (String.eqb k key) eqn:E; simpl.
    + apply String.eqb_eq in E. subst k. now rewrite Hne.
    + destruct (String.eqb k other); [reflexivity | exact IH].
Qed.

Lemma upsert_keys (key value : string) (rows : list (string * string)) :
  map fst (upsert key value rows)
  = if existsb (String.eqb key) (map fst rows) then map fst rows
    else map fst rows ++ [key].
Proof.
  induction rows as [|[k v] rows IH]; simpl; [reflexivity|].
  rewrite (String.eqb_sym key k).
  destruct (String.eqb k key); simpl; [reflexivity|].
  rewrite IH. now destruct (existsb (String.eqb key) (map fst rows)).
Qed.

(** X6: settings round trip. After [updateRagSetting key value] went
    through, [getRagSetting key] returns [value] and every other key
    reads as before; the documents are untouched, and a table with one row
    per key still has one row per key. *)
Theorem update_then_get_setting {A : Arith} (W : world)
    (key value : string) (s s1 : state) :
  updateRagSetting W key value s = (Ok tt, s1) ->
  fst (getRagSetting W key s1) = Ok (Some value)
  /\ (forall other,
         String.eqb key other = false ->
         fst (getRagSetting W other s1) = fst (getRagSetting W other s))
  /\ documents (db s1) = documents (db s)
  /\ (NoDup (map fst (rag_settings (db s))) ->
      NoDup (map fst (rag_settings (db s1)))).
Proof.
  unfold updateRagSetting, getRagSetting. run_monad.
  destruct (query_fails W QRagSetting) eqn:Hq; simpl; [discriminate|].
  intros Hrun. injection Hrun as <-. simpl.
  split; [now rewrite assoc_upsert_same|]. split.
  - intros other Hne. now rewrite assoc_upsert_other.
  - split; [reflexivity|]. intros Hnd. rewrite upsert_keys.
    destruct (existsb (String.eqb key) (map fst (rag_settings (db s))))
      eqn:E; [assumption|].
    apply NoDup_snoc; [assumption|].
    intros Hin.
    assert (Hex : existsb (String.eqb key) (map fst (rag_settings (db s)))
                  = true).
    { apply existsb_exists. exists key. split; [assumption|].
      apply String.eqb_refl. }
    congruence.
Qed.

Lemma update_then_get_setting_witness :
  let s := start [doc_a] in
  let s1 := snd (updateRagSetting world0 "similarity_threshold" "0" s) in
  updateRagSetting world0 "similarity_threshold" "0" s = (Ok tt, s1)
  /\ fst (getRagSetting world0 "similarity_threshold" s1)
     = Ok (Some "0"%string).
Proof.
  intros s s1. split; [reflexivity|].
  apply (proj1 (@update_then_get_setting binary64 world0
                  "similarity_threshold" "0" s s1 eq_refl)).
Defined.

(** ** More on the score and the search *)

Lemma SFmul_comm (prec emax : Z) (x y : spec_float) :
  SFmul prec emax x y = SFmul prec emax y x.
Proof.
  destruct x as [sx|sx| |sx mx ex], y as [sy|sy| |sy my ey]; simpl;
    try reflexivity; try (now rewrite xorb_comm).
  now rewrite xorb_comm, Pos.mul_comm, Z.add_comm.
Qed.

Section CosineSymmetry.
Context {A : Arith}.
Hypothesis mul_comm : forall x y : num, num_mul x y = num_mul y x.

Lemma cosine_loop_swap (a b : list num) (d m1 m2 : num) :
  fold_left cosine_step (combine b a) (d, m2, m1)
  = let '(d', m1', m2') := fold_left cosine_step (combine a b) (d, m1, m2)
    in (d', m2', m1').
Proof.
  revert b d m1 m2. induction a as [|x a IH]; intros [|y b] d m1 m2;
    simpl; try reflexivity.
  rewrite (mul_comm y x). apply IH.
Qed.

Lemma cosine_swap (u v : jsvalue num) :
  calculateCosineSimilarity u v = calculateCosineSimilarity v u.
Proof.
  destruct u as [a|], v as [b|]; simpl; try reflexivity.
  rewrite (Nat.eqb_sym (length b) (length a)).
  destruct (Nat.eqb (length a) (length b)); simpl; [|reflexivity].
  unfold cosine_loop. rewrite (cosine_loop_swap a b).
  destruct (fold_left cosine_step (combine a b)
              (num_zero, num_zero, num_zero)) as [[d m1] m2].
  rewrite (orb_comm (num_seq m2 num_zero)).
  now rewrite (mul_comm (num_sqrt m2)).
Qed.
End CosineSymmetry.

(** X7: on the doubles the program computes with, the score is symmetric
    bit for bit: [calculateCosineSimilarity(a, b)] and
    [calculateCosineSimilarity(b, a)] are the same number (or both NaN),
    for all arguments, arrays or not, rounding and overflow included. *)
Theorem cosine_symmetric_on_doubles (u v : jsvalue (@num binary64)) :
  @calculateCosineSimilarity binary64 u v
  = @calculateCosineSimilarity binary64 v u.
Proof.
  apply cosine_swap. intros x y. apply SFmul_comm.
Qed.

(** X8: without a row above 0.95 and with a limit no smaller than the
    number of rows, the search is complete: every stored row whose score
    reaches the threshold is in the result. *)
Theorem search_complete_without_cutoff {A : Arith}
    (embedding0 : jsvalue num) (threshold : num) (limit : Z)
    (rows : list document) (d : document) :
  Forall (fun x => triggers embedding0 threshold x = false) rows ->
  Z.of_nat (length rows) <= limit ->
  In d rows ->
  num_ge (score_of embedding0 d) threshold = true ->
  In (similar_of d (score_of embedding0 d))
    (findSimilarDocuments_rows embedding0 threshold (JInt limit) rows).
Proof.
  intros Hnone Hlimit Hd Hkept. rewrite rows_unfold. unfold rank.
  rewrite scan_never_stops by assumption.
  assert (Hall : slice0 (stable_sort sorts_after
                           (scan_full embedding0 threshold rows []))
                   (JInt limit)
                 = stable_sort sorts_after
                     (scan_full embedding0 threshold rows [])).
  { unfold slice0.
    assert (Hlen : (length (stable_sort sorts_after
                              (scan_full embedding0 threshold rows []))
                    <= length rows)%nat).
    { rewrite stable_sort_length, scan_full_filter, length_map.
      apply filter_length_le. }
    destruct (limit <? 0) eqn:E; [apply Z.ltb_lt in E; lia|].
    apply firstn_all2. lia. }
  rewrite Hall. apply stable_sort_In. rewrite scan_full_filter.
  apply in_map_iff. exists d. split; [reflexivity|].
  apply filter_In. split; assumption.
Qed.

Lemma search_complete_without_cutoff_witness :
  let rows := [doc_w; doc_c; doc_a; doc_b] in
  Forall (fun x => triggers query_vec c085 x = false) rows
  /\ Z.of_nat (length rows) <= 5
  /\ In doc_b rows
  /\ @num_ge binary64 (score_of query_vec doc_b) c085 = true
  /\ In (similar_of doc_b (score_of query_vec doc_b))
       (findSimilarDocuments_rows query_vec c085 (JInt 5) rows).
Proof.
  intros rows.
  assert (H1 : Forall (fun x => triggers query_vec c085 x = false) rows)
    by (repeat constructor).
  assert (H2 : Z.of_nat (length rows) <= 5) by (simpl; lia).
  assert (H3 : In doc_b rows) by (simpl; tauto).
  assert (H4 : @num_ge binary64 (score_of query_vec doc_b) c085 = true)
    by reflexivity.
  split; [exact H1|]. split; [exact H2|]. split; [exact H3|].
  split; [exact H4|].
  apply (@search_complete_without_cutoff binary64 query_vec c085 5 rows
           doc_b H1 H2 H3 H4).
Defined.

(** X9: the early exit hides everything older. When a row of the scan (the
    rows come newest first) is kept with a score above 0.95 and no row
    before it is, every entry returned comes from that row or a row before
    it: no row after it is evaluated, however well it scores. *)
Theorem nothing_returned_past_cutoff {A : Arith}
    (embedding0 : jsvalue num) (threshold : num) (limit : jsint)
    (pre post : list document) (d : document) (r : similar) :
  Forall (fun x => triggers embedding0 threshold x = false) pre ->
  triggers embedding0 threshold d = true ->
  In r (findSimilarDocuments_rows embedding0 threshold limit
          (pre ++ d :: post)) ->
  exists x, In x (pre ++ [d]) /\ r = similar_of x (score_of embedding0 x).
Proof.
  intros Hpre Hd Hr. rewrite rows_unfold in Hr.
  eapply subseq_In in Hr; [|apply slice0_subseq].
  unfold rank in Hr. apply stable_sort_In in Hr.
  rewrite (@scan_stops A embedding0 threshold pre post d Hpre Hd) in Hr.
  apply in_app_or in Hr. destruct Hr as [Hr|[<-|[]]].
  - rewrite scan_full_filter in Hr. apply in_map_iff in Hr.
    destruct Hr as [x [<- Hx]]. apply filter_In in Hx.
    exists x. split; [|reflexivity]. apply in_or_app. left. tauto.
  - exists d. split; [|reflexivity]. apply in_or_app. right. now left.
Qed.

Lemma nothing_returned_past_cutoff_witness :
  let e := similar_of doc_e (score_of query_vec doc_e) in
  Forall (fun x => triggers query_vec c085 x = false) [doc_a]
  /\ triggers query_vec c085 doc_e = true
  /\ exists x, In x ([doc_a] ++ [doc_e])
               /\ e = similar_of x (score_of query_vec x).
Proof.
  intros e.
  assert (H1 : Forall (fun x => triggers query_vec c085 x = false) [doc_a])
    by (repeat constructor).
  split; [exact H1|]. split; [reflexivity|].
  assert (Hres : findSimilarDocuments_rows query_vec c085 (JInt 5)
                   ([doc_a] ++ doc_e :: [doc_b])
                 = [e; similar_of doc_a (score_of query_vec doc_a)])
    by reflexivity.
  apply (@nothing_returned_past_cutoff binary64 query_vec c085 (JInt 5)
           [doc_a] [doc_b] doc_e e H1 eq_refl).
  rewrite Hres. left. reflexivity.
Defined.

(** ** The orchestrator called without a summary *)






(** ** The text utilities of [server.js] *)

Lemma single_spaced_cons (c : Ascii.ascii) (l : text) :
  single_spaced l = true ->
  is_space c = false \/ starts_with_space l = false ->
  single_spaced (c :: l) = true.
Proof.
  intros Hl Hc. destruct l as [|c' l']; [reflexivity|].
  change (negb (is_space c && is_space c') && single_spaced (c' :: l')
          = true).
  rewrite Hl, andb_true_r. simpl in Hc.
  destruct Hc as [-> | ->]; [reflexivity|].
  now rewrite andb_false_r.
Qed.

Lemma single_spaced_tail (c : Ascii.ascii) (l : text) :
  single_spaced (c :: l) = true -> single_spaced l = true.
Proof.
  destruct l as [|c' l']; [reflexivity|].
  change (negb (is_space c && is_space c') && single_spaced (c' :: l') = true
          -> single_spaced (c' :: l') = true).
  intros H. now apply andb_true_iff in H.
Qed.

Lemma single_spaced_pair (c c' : Ascii.ascii) (l : text) :
  single_spaced (c :: c' :: l) = true ->
  is_space c = true -> is_space c' = false.
Proof.
  change (negb (is_space c && is_space c') && single_spaced (c' :: l) = true
          -> is_space c = true -> is_space c' = false).
  intros H Hc. apply andb_true_iff in H. destruct H as [H _].
  rewrite Hc in H. simpl in H. now destruct (is_space c').
Qed.

Lemma single_spaced_suffix (p m : text) :
  single_spaced (p ++ m) = true -> single_spaced m = true.
Proof.
  induction p as [|c p IH]; [trivial|].
  intros H. apply IH. exact (single_spaced_tail _ _ H).
Qed.

Lemma single_spaced_prefix (m q : text) :
  single_spaced (m ++ q) = true -> single_spaced m = true.
Proof.
  induction m as [|c m IH]; [reflexivity|].
  intros H. apply single_spaced_cons.
  - apply IH. exact (single_spaced_tail _ _ H).
  - destruct m as [|c' m']; [now right|].
    destruct (is_space c) eqn:Hc; [right|now left].
    exact (single_spaced_pair _ _ _ H Hc).
Qed.

Lemma squeeze_spaces_keeps (c : Ascii.ascii) (rest : text) (b : bool) :
  is_space c = false ->
  squeeze_spaces b (c :: rest) = c :: squeeze_spaces false rest.
Proof. intros H. simpl. now rewrite H. Qed.

Lemma squeeze_spaces_single (t : text) :
  forall b, single_spaced (squeeze_spaces b t) = true.
Proof.
  induction t as [|c rest IH]; intros b; [reflexivity|].
  destruct (is_space c) eqn:Hc.
  - destruct rest as [|c' r'].
    + simpl. rewrite Hc. reflexivity.
    + destruct (is_space c') eqn:Hc'.
      * change (squeeze_spaces b (c :: c' :: r'))
          with (if is_space c
                then if is_space c' then squeeze_spaces true (c' :: r')
                     else (if b then space else c)
                          :: squeeze_spaces false (c' :: r')
                else c :: squeeze_spaces false (c' :: r')).
        rewrite Hc, Hc'. apply IH.
      * change (squeeze_spaces b (c :: c' :: r'))
          with (if is_space c
                then if is_space c' then squeeze_spaces true (c' :: r')
                     else (if b then space else c)
                          :: squeeze_spaces false (c' :: r')
                else c :: squeeze_spaces false (c' :: r')).
        rewrite Hc, Hc'. apply single_spaced_cons; [apply IH|].
        right. rewrite squeeze_spaces_keeps by exact Hc'. exact Hc'.
  - rewrite squeeze_spaces_keeps by exact Hc.
    apply single_spaced_cons; [apply IH | now left].
Qed.

Lemma drop_spaces_suffix (t : text) :
  exists p, t = p ++ drop_spaces t.
Proof.
  induction t as [|c rest [p IH]]; [now exists []|].
  simpl. destruct (is_space c).
  - exists (c :: p). simpl. now rewrite <- IH.
  - now exists [].
Qed.

Lemma drop_spaces_head (t : text) :
  starts_with_space (drop_spaces t) = false.
Proof.
  induction t as [|c rest IH]; [reflexivity|].
  simpl. destruct (is_space c) eqn:Hc; [exact IH|]. simpl. exact Hc.
Qed.

Lemma drop_spaces_id (t : text) :
  starts_with_space t = false -> drop_spaces t = t.
Proof. destruct t as [|c rest]; [reflexivity|]. simpl. now intros ->. Qed.

Lemma trim_prefix_of_dropped (t : text) :
  exists q, drop_spaces t = trim t ++ q.
Proof.
  unfold trim. destruct (drop_spaces_suffix (rev (drop_spaces t))) as [p Hp].
  exists (rev p). rewrite <- rev_app_distr, <- Hp. now rewrite rev_involutive.
Qed.

Lemma trim_infix (t : text) :
  exists p q, t = p ++ trim t ++ q.
Proof.
  destruct (drop_spaces_suffix t) as [p Hp].
  destruct (trim_prefix_of_dropped t) as [q Hq].
  exists p, q. now rewrite <- Hq.
Qed.

Lemma trim_ends (t : text) : ends_with_space (trim t) = false.
Proof.
  unfold ends_with_space, trim. rewrite rev_involutive.
  apply drop_spaces_head.
Qed.

Lemma trim_starts (t : text) : starts_with_space (trim t) = false.
Proof.
  destruct (trim_prefix_of_dropped t) as [q Hq].
  pose proof (drop_spaces_head t) as H. rewrite Hq in H.
  destruct (trim t) as [|c r]; [reflexivity|]. exact H.
Qed.

Lemma trim_id (t : text) :
  starts_with_space t = false -> ends_with_space t = false -> trim t = t.
Proof.
  intros Hs He. unfold trim. rewrite (drop_spaces_id _ Hs).
  rewrite (drop_spaces_id _ He). apply rev_involutive.
Qed.

Lemma trim_length (t : text) : (length (trim t) <= length t)%nat.
Proof.
  destruct (trim_infix t) as (p & q & H).
  rewrite H at 2. rewrite !length_app. lia.
Qed.

Lemma trim_In (t : text) (c : Ascii.ascii) : In c (trim t) -> In c t.
Proof.
  destruct (trim_infix t) as (p & q & H). intros Hc.
  rewrite H. apply in_or_app. right. apply in_or_app. now left.
Qed.

Lemma trim_single (t : text) :
  single_spaced t = true -> single_spaced (trim t) = true.
Proof.
  destruct (trim_infix t) as (p & q & H). intros Ht. rewrite H in Ht.
  apply single_spaced_suffix in Ht. exact (single_spaced_prefix _ _ Ht).
Qed.

Lemma collapse_runs_length (p : Ascii.ascii -> bool) (rep : Ascii.ascii)
    (t : text) :
  (length (collapse_runs p rep t) <= length t)%nat.
Proof.
  induction t as [|c rest IH]; [simpl; lia|].
  simpl. destruct (p c).
  - destruct rest as [|c' r']; [simpl; lia|].
    destruct (p c'); simpl in *; lia.
  - simpl. lia.
Qed.

Lemma collapse_runs_In (p : Ascii.ascii -> bool) (rep : Ascii.ascii)
    (t : text) (x : Ascii.ascii) :
  In x (collapse_runs p rep t) ->
  (In x t /\ p x = false) \/ (x = rep /\ existsb p t = true).
Proof.
  induction t as [|c rest IH]; [intros []|].
  simpl. destruct (p c) eqn:Hc.
  - destruct rest as [|c' r'].
    + intros [<- | []]. now right.
    + destruct (p c').
      * intros H. destruct (IH H) as [[H1 H2] | [H1 _]]; [left|now right].
        split; [now right | exact H2].
      * intros [<- | H]; [now right|].
        destruct (IH H) as [[H1 H2] | [H1 _]]; [left|now right].
        split; [now right | exact H2].
  - intros [<- | H]; [left; split; [now left | exact Hc]|].
    destruct (IH H) as [[H1 H2] | [H1 H2]]; [left|right].
    + split; [now right | exact H2].
    + split; [exact H1 | exact H2].
Qed.

Lemma collapse_runs_none (p : Ascii.ascii -> bool) (rep : Ascii.ascii)
    (t : text) :
  forallb (fun c => negb (p c)) t = true -> collapse_runs p rep t = t.
Proof.
  induction t as [|c rest IH]; [reflexivity|].
  simpl. intros H. apply andb_true_iff in H. destruct H as [Hc Hr].
  destruct (p c); [discriminate|]. now rewrite IH.
Qed.

Lemma is_lf_space (c : Ascii.ascii) : is_lf c = true -> is_space c = true.
Proof.
  unfold is_lf. intros H. apply Ascii.eqb_eq in H. now subst c.
Qed.

Lemma collapse_lf_id (t : text) :
  single_spaced t = true -> collapse_runs is_lf (code 10) t = t.
Proof.
  induction t as [|c rest IH]; [reflexivity|].
  intros H. pose proof (single_spaced_tail _ _ H) as Hr.
  simpl. destruct (is_lf c) eqn:Hc.
  - assert (c = code 10) as Hc10 by (now apply Ascii.eqb_eq).
    destruct rest as [|c' r']; [now rewrite Hc10|].
    pose proof (single_spaced_pair _ _ _ H (is_lf_space _ Hc)) as Hc'.
    destruct (is_lf c') eqn:Hlf.
    + apply is_lf_space in Hlf. congruence.
    + rewrite (IH Hr). now rewrite Hc10.
  - now rewrite (IH Hr).
Qed.

Lemma remove_hyphen_breaks_length (t : text) :
  (length (remove_hyphen_breaks t) <= length t)%nat.
Proof.
  assert (H : forall n (t : text), (length t <= n)%nat ->
                (length (remove_hyphen_breaks t) <= length t)%nat).
  { clear t. induction n as [|n IH]; intros t Hn.
    - destruct t; [simpl; lia | simpl in Hn; lia].
    - destruct t as [|c [|c' r']]; [simpl; lia | simpl; lia |].
      change (remove_hyphen_breaks (c :: c' :: r'))
        with (if is_hyphen c && is_lf c' then remove_hyphen_breaks r'
              else c :: remove_hyphen_breaks (c' :: r')).
      destruct (is_hyphen c && is_lf c').
      + specialize (IH r'). simpl in *. lia.
      + specialize (IH (c' :: r')). simpl in *. lia. }
  exact (H (length t) t (le_n _)).
Qed.

Lemma remove_hyphen_breaks_In (t : text) (x : Ascii.ascii) :
  In x (remove_hyphen_breaks t) -> In x t.
Proof.
  assert (H : forall n (t : text), (length t <= n)%nat ->
                In x (remove_hyphen_breaks t) -> In x t).
  { clear t. induction n as [|n IH]; intros t Hn.
    - destruct t; [intros [] | simpl in Hn; lia].
    - destruct t as [|c [|c' r']]; [intros [] | trivial |].
      change (remove_hyphen_breaks (c :: c' :: r'))
        with (if is_hyphen c && is_lf c' then remove_hyphen_breaks r'
              else c :: remove_hyphen_breaks (c' :: r')).
      destruct (is_hyphen c && is_lf c').
      + intros Hx. right. right. apply IH; [simpl in *; lia | exact Hx].
      + intros [<- | Hx]; [now left|].
        right. apply IH; [simpl in *; lia | exact Hx]. }
  exact (H (length t) t (le_n _)).
Qed.

Lemma remove_hyphen_breaks_none (t : text) :
  has_hyphen_break t = false -> remove_hyphen_breaks t = t.
Proof.
  induction t as [|c rest IH]; [reflexivity|].
  destruct rest as [|c' r']; [reflexivity|].
  change (has_hyphen_break (c :: c' :: r'))
    with ((is_hyphen c && is_lf c') || has_hyphen_break (c' :: r')).
  change (remove_hyphen_breaks (c :: c' :: r'))
    with (if is_hyphen c && is_lf c' then remove_hyphen_breaks r'
          else c :: remove_hyphen_breaks (c' :: r')).
  intros H. apply orb_false_iff in H. destruct H as [-> H].
  now rewrite (IH H).
Qed.

Lemma squeeze_spaces_length (t : text) :
  forall b, (length (squeeze_spaces b t) <= length t)%nat.
Proof.
  induction t as [|c rest IH]; intros b; [simpl; lia|].
  simpl. destruct (is_space c).
  - destruct rest as [|c' r']; [simpl; lia|].
    destruct (is_space c').
    + specialize (IH true). simpl in *. lia.
    + specialize (IH false). simpl in *. lia.
  - specialize (IH false). simpl. lia.
Qed.

Lemma squeeze_spaces_In (t : text) (x : Ascii.ascii) :
  forall b, In x (squeeze_spaces b t) -> In x t \/ x = space.
Proof.
  induction t as [|c rest IH]; intros b; [intros []|].
  simpl. destruct (is_space c).
  - destruct rest as [|c' r'].
    + destruct b; intros [<- | []]; [now right | left; now left].
    + destruct (is_space c').
      * intros H. destruct (IH _ H) as [H1 | H1]; [left; now right|now right].
      * intros [Hx | H].
        -- destruct b; [now right | left; now left].
        -- destruct (IH _ H) as [H1 | H1]; [left; now right|now right].
  - intros [<- | H]; [left; now left|].
    destruct (IH _ H) as [H1 | H1]; [left; now right|now right].
Qed.

Lemma squeeze_spaces_id (t : text) :
  single_spaced t = true -> squeeze_spaces false t = t.
Proof.
  induction t as [|c rest IH]; [reflexivity|].
  intros H. pose proof (single_spaced_tail _ _ H) as Hr.
  simpl. destruct (is_space c) eqn:Hc.
  - destruct rest as [|c' r']; [reflexivity|].
    rewrite (single_spaced_pair _ _ _ H Hc). now rewrite (IH Hr).
  - now rewrite (IH Hr).
Qed.

Lemma remove_cr_In (t : text) (x : Ascii.ascii) :
  In x (remove_cr t) -> In x t /\ is_cr x = false.
Proof.
  unfold remove_cr. intros H. apply filter_In in H. destruct H as [H1 H2].
  split; [exact H1|]. now destruct (is_cr x).
Qed.

Lemma remove_cr_none (t : text) :
  forallb (fun c => negb (is_cr c)) t = true -> remove_cr t = t.
Proof.
  unfold remove_cr. induction t as [|c rest IH]; [reflexivity|].
  simpl. intros H. apply andb_true_iff in H. destruct H as [-> H].
  now rewrite (IH H).
Qed.

Lemma remove_cr_length (t : text) :
  (length (remove_cr t) <= length t)%nat.
Proof. apply filter_length_le. Qed.

(** A stage-by-stage form of [normalizeExtractedText]. *)
Lemma normalize_stages (raw : text) :
  normalizeExtractedText raw
  = trim
      (squeeze_spaces false
         (collapse_runs is_lf (code 10)
            (remove_hyphen_breaks
               (collapse_runs is_tab_or_ff space (remove_cr raw))))).
Proof. destruct raw; reflexivity. Qed.

Lemma existsb_lf_In (t : text) :
  existsb is_lf t = true -> In (code 10) t.
Proof.
  intros H. apply existsb_exists in H. destruct H as (c & Hc & Hlf).
  apply Ascii.eqb_eq in Hlf. now subst c.
Qed.

Lemma normalize_In (raw : text) (c : Ascii.ascii) :
  In c (normalizeExtractedText raw) ->
  (In c raw \/ c = space) /\ is_cr c = false /\ is_tab_or_ff c = false.
Proof.
  assert (Hspace : (In space raw \/ space = space)
                   /\ is_cr space = false /\ is_tab_or_ff space = false)
    by (split; [now right | split; reflexivity]).
  assert (Hstage : forall x,
             In x (remove_hyphen_breaks
                     (collapse_runs is_tab_or_ff space (remove_cr raw))) ->
             x = space
             \/ (In x raw /\ is_cr x = false /\ is_tab_or_ff x = false)).
  { intros x H. apply remove_hyphen_breaks_In in H.
    apply collapse_runs_In in H. destruct H as [[H Htab] | [H _]];
      [|now left].
    apply remove_cr_In in H. right. tauto. }
  rewrite normalize_stages. intros H.
  apply trim_In in H.
  apply squeeze_spaces_In in H. destruct H as [H | ->]; [|exact Hspace].
  apply collapse_runs_In in H. destruct H as [[H _] | [-> H]].
  - destruct (Hstage _ H) as [-> | H']; [exact Hspace|]. tauto.
  - apply existsb_lf_In in H.
    destruct (Hstage _ H) as [H' | H']; [discriminate H'|]. tauto.
Qed.

Lemma normalize_length (raw : text) :
  (length (normalizeExtractedText raw) <= length raw)%nat.
Proof.
  rewrite normalize_stages.
  eapply Nat.le_trans; [apply trim_length|].
  eapply Nat.le_trans; [apply squeeze_spaces_length|].
  eapply Nat.le_trans; [apply collapse_runs_length|].
  eapply Nat.le_trans; [apply remove_hyphen_breaks_length|].
  eapply Nat.le_trans; [apply collapse_runs_length|].
  apply remove_cr_length.
Qed.

(** X10: what [normalizeExtractedText] returns is clean, whatever it is
    given: no two whitespace characters in a row (so no blank line and no
    double space), no whitespace at either end, no carriage return, tab or
    form feed; it is never longer than the input, and each of its
    characters is a character of the input or a space. *)
Theorem normalized_text_is_clean (raw : text) :
  let t := normalizeExtractedText raw in
  single_spaced t = true
  /\ starts_with_space t = false
  /\ ends_with_space t = false
  /\ (length t <= length raw)%nat
  /\ forall c, In c t ->
       (In c raw \/ c = space)
       /\ is_cr c = false /\ is_tab_or_ff c = false.
Proof.
  cbv zeta. split; [|split; [|split; [|split]]].
  - rewrite normalize_stages. apply trim_single, squeeze_spaces_single.
  - rewrite normalize_stages. apply trim_starts.
  - rewrite normalize_stages. apply trim_ends.
  - apply normalize_length.
  - apply normalize_In.
Qed.

Lemma forallb_weaken {T : Type} (p q : T -> bool) (l : list T) :
  (forall x, p x = true -> q x = true) ->
  forallb p l = true -> forallb q l = true.
Proof.
  intros Hpq H. apply forallb_forall. intros x Hx.
  apply Hpq. revert x Hx. now apply forallb_forall.
Qed.

Lemma normalize_fixed (raw : text) :
  forallb (fun c => negb (is_cr c || is_tab_or_ff c)) raw = true ->
  has_hyphen_break raw = false ->
  single_spaced raw = true ->
  starts_with_space raw = false ->
  ends_with_space raw = false ->
  normalizeExtractedText raw = raw.
Proof.
  intros Hchars Hhyphen Hsingle Hstart Hend.
  rewrite normalize_stages.
  rewrite remove_cr_none.
  2:{ revert Hchars. apply forallb_weaken. intros x.
      now destruct (is_cr x). }
  rewrite (collapse_runs_none is_tab_or_ff).
  2:{ revert Hchars. apply forallb_weaken. intros x.
      destruct (is_cr x), (is_tab_or_ff x); simpl; congruence. }
  rewrite (remove_hyphen_breaks_none _ Hhyphen).
  rewrite (collapse_lf_id _ Hsingle).
  rewrite (squeeze_spaces_id _ Hsingle).
  exact (trim_id _ Hstart Hend).
Qed.

(** X11: a text that is already clean goes through unchanged: without
    carriage return, tab or form feed, without a hyphen before a line
    feed, with no two whitespace characters in a row and none at either
    end, [normalizeExtractedText] returns its argument. *)
Theorem clean_text_is_unchanged (raw : text) :
  forallb (fun c => negb (is_cr c || is_tab_or_ff c)) raw = true ->
  has_hyphen_break raw = false ->
  single_spaced raw = true ->
  starts_with_space raw = false ->
  ends_with_space raw = false ->
  normalizeExtractedText raw = raw.
Proof.
  intros Hchars Hhyphen Hsingle Hstart Hend.
  now apply normalize_fixed.
Qed.

Lemma clean_text_is_unchanged_witness :
  normalizeExtractedText (text_of_string "Bilan 2024. Voir page 3")
  = text_of_string "Bilan 2024. Voir page 3".
Proof.
  apply (clean_text_is_unchanged (text_of_string "Bilan 2024. Voir page 3"));
    reflexivity.
Defined.

(** X12: normalising twice changes nothing more, as long as the first pass
    left no hyphen in front of a line feed (it can leave one: after
    [a--] and two line feeds the first pass gives [a-], a line feed and
    what follows, which a second pass would join). *)
Theorem normalize_twice (raw : text) :
  has_hyphen_break (normalizeExtractedText raw) = false ->
  normalizeExtractedText (normalizeExtractedText raw)
  = normalizeExtractedText raw.
Proof.
  intros Hhyphen. apply normalize_fixed.
  - apply forallb_forall. intros c Hc.
    destruct (normalize_In raw c Hc) as (_ & -> & ->). reflexivity.
  - exact Hhyphen.
  - rewrite normalize_stages. apply trim_single, squeeze_spaces_single.
  - rewrite normalize_stages. apply trim_starts.
  - rewrite normalize_stages. apply trim_ends.
Qed.

Lemma normalize_twice_witness :
  normalizeExtractedText
    (normalizeExtractedText (text_of_string "  Bilan   2024.  "))
  = normalizeExtractedText (text_of_string "  Bilan   2024.  ").
Proof.
  apply (normalize_twice (text_of_string "  Bilan   2024.  ")). reflexivity.
Defined.

(** *** [splitIntoSentenceChunks] *)

Lemma split_pieces_lengths (t : text) :
  forall b piece,
    Forall (fun p => (length p <= length piece + length t)%nat)
      (split_pieces b piece t).
Proof.
  induction t as [|c rest IH]; intros b piece.
  - simpl. constructor; [|constructor]. rewrite length_rev. lia.
  - simpl.
    destruct (b && is_space c).
    { eapply Forall_impl; [|apply IH]. simpl. intros; lia. }
    destruct (is_sentence_end c
              && match rest with c' :: _ => is_space c' | [] => false end).
    + constructor.
      * rewrite length_app, length_rev. simpl. lia.
      * eapply Forall_impl; [|apply IH]. simpl. intros; lia.
    + eapply Forall_impl; [|apply IH]. simpl. intros; lia.
Qed.

Lemma split_sentences_lengths (t : text) :
  Forall (fun p => (length p <= length t)%nat) (split_sentences t).
Proof. exact (split_pieces_lengths t false []). Qed.

Lemma split_pieces_first (t : text) :
  forall b piece,
    exists p ps, split_pieces b piece t = (rev piece ++ p) :: ps.
Proof.
  induction t as [|c rest IH]; intros b piece.
  - exists [], []. simpl. now rewrite app_nil_r.
  - simpl.
    destruct (b && is_space c); [apply IH|].
    destruct (is_sentence_end c
              && match rest with c' :: _ => is_space c' | [] => false end).
    + exists [c]. eexists. reflexivity.
    + destruct (IH false (c :: piece)) as (p & ps & H).
      exists (c :: p), ps. rewrite H. simpl. now rewrite <- app_assoc.
Qed.

Lemma split_sentences_first (c : Ascii.ascii) (rest : text) :
  is_space c = false ->
  exists p ps, split_sentences (c :: rest) = (c :: p) :: ps.
Proof.
  intros Hc. unfold split_sentences. simpl.
  destruct (is_sentence_end c
            && match rest with c' :: _ => is_space c' | [] => false end).
  - exists []. eexists. reflexivity.
  - destruct (split_pieces_first rest false [c]) as (p & ps & H).
    exists p, ps. exact H.
Qed.

Lemma visible_app (a b : text) : visible (a ++ b) = visible a ++ visible b.
Proof. apply filter_app. Qed.

Lemma visible_cons (c : Ascii.ascii) (t : text) :
  visible (c :: t) = visible [c] ++ visible t.
Proof. exact (visible_app [c] t). Qed.

Lemma split_pieces_visible (t : text) :
  forall b piece,
    visible (concat (split_pieces b piece t))
    = visible (rev piece) ++ visible t.
Proof.
  induction t as [|c rest IH]; intros b piece.
  - simpl. now rewrite !app_nil_r.
  - simpl split_pieces.
    destruct (b && is_space c) eqn:Hskip.
    { rewrite IH. apply andb_true_iff in Hskip. destruct Hskip as [_ Hc].
      unfold visible at 3. simpl. now rewrite Hc. }
    destruct (is_sentence_end c
              && match rest with c' :: _ => is_space c' | [] => false end).
    + simpl concat. rewrite visible_app, IH. simpl rev at 2.
      rewrite visible_app. simpl app at 2.
      rewrite (visible_cons c rest). now rewrite <- !app_assoc.
    + rewrite IH. simpl rev. rewrite visible_app.
      rewrite (visible_cons c rest). now rewrite <- !app_assoc.
Qed.

Lemma split_sentences_visible (t : text) :
  visible (concat (split_sentences t)) = visible t.
Proof. exact (split_pieces_visible t false []). Qed.

Lemma slice_split (t : text) (m : Z) :
  slice0 t (JInt m) ++ slice_from t m = t.
Proof. unfold slice0, slice_from. apply firstn_skipn. Qed.

Lemma drop_spaces_nil (t : text) :
  drop_spaces t = [] -> forall x, In x t -> is_space x = true.
Proof.
  induction t as [|c rest IH]; [intros _ x []|].
  simpl. destruct (is_space c) eqn:Hc; [|discriminate].
  intros H x [<- | Hx]; [exact Hc | now apply IH].
Qed.

Lemma trim_nil (t : text) :
  trim t = [] -> forall x, In x t -> is_space x = true.
Proof.
  unfold trim. intros H.
  assert (H1 : drop_spaces (rev (drop_spaces t)) = []).
  { rewrite <- (rev_involutive (drop_spaces (rev (drop_spaces t)))).
    now rewrite H. }
  assert (H2 : drop_spaces t = []).
  { pose proof (drop_spaces_head t) as Hh.
    destruct (drop_spaces t) as [|c r] eqn:E; [reflexivity|].
    simpl in Hh. rewrite (drop_spaces_nil _ H1 c) in Hh; [discriminate|].
    apply in_rev. rewrite rev_involutive. now left. }
  exact (drop_spaces_nil _ H2).
Qed.

Lemma trim_after_space (s : text) : trim (space :: s) = trim s.
Proof. reflexivity. Qed.

Section ChunkFacts.
Variable SUMMARY_MAX_CHUNKS : Z.
Variable maxChars : Z.

Let fits (c : text) : Prop := Z.of_nat (length (trim c)) <= maxChars.
Let good (c : text) : Prop := fits c /\ c <> [].

Lemma longer_than_max_false (t : text) :
  longer_than_max maxChars t = false <-> Z.of_nat (length t) <= maxChars.
Proof. unfold longer_than_max. rewrite Z.ltb_ge. reflexivity. Qed.

Lemma longer_than_max_true (t : text) :
  longer_than_max maxChars t = true <-> maxChars < Z.of_nat (length t).
Proof. unfold longer_than_max. rewrite Z.ltb_lt. reflexivity. Qed.

Lemma short_fits (c : text) :
  Z.of_nat (length c) <= maxChars -> fits c.
Proof. unfold fits. pose proof (trim_length c). lia. Qed.

Lemma nonempty_true (c : text) : nonempty c = true <-> c <> [].
Proof. destruct c; simpl; split; congruence. Qed.

Lemma hard_split_returns (fuel : nat) :
  forall chunks current,
    1 <= maxChars ->
    (length current <= fuel)%nat ->
    Forall good chunks ->
    exists chunks' current',
      hard_split maxChars fuel chunks current = Some (chunks', current')
      /\ Forall good chunks'
      /\ Z.of_nat (length current') <= maxChars.
Proof.
  induction fuel as [|fuel IH]; intros chunks current Hmax Hfuel Hchunks.
  - destruct current; [|simpl in Hfuel; lia].
    exists chunks, []. simpl.
    replace (longer_than_max maxChars []) with false
      by (symmetry; apply longer_than_max_false; simpl; lia).
    repeat split; [exact Hchunks | simpl; lia].
  - simpl. destruct (longer_than_max maxChars current) eqn:Hlong.
    + apply longer_than_max_true in Hlong.
      assert (Hslice : slice0 current (JInt maxChars)
                       = firstn (Z.to_nat maxChars) current).
      { unfold slice0. replace (maxChars <? 0) with false
          by (symmetry; apply Z.ltb_ge; lia).
        f_equal. lia. }
      assert (Hrest : slice_from current maxChars
                      = skipn (Z.to_nat maxChars) current).
      { unfold slice_from. replace (maxChars <? 0) with false
          by (symmetry; apply Z.ltb_ge; lia).
        f_equal. lia. }
      apply IH; [exact Hmax | |].
      * rewrite Hrest, length_skipn. lia.
      * apply Forall_app. split; [exact Hchunks|].
        constructor; [|constructor]. split.
        -- apply short_fits. rewrite Hslice, length_firstn. lia.
        -- intros E. apply (f_equal (@length _)) in E.
           rewrite Hslice, length_firstn in E. simpl in E. lia.
    + exists chunks, current.
      apply longer_than_max_false in Hlong. now repeat split.
Qed.

Lemma joined_fits (current s : text) :
  longer_than_max maxChars (trim (current ++ space :: s)) = false ->
  fits ((if nonempty current then current ++ [space] else []) ++ s).
Proof.
  intros H. apply longer_than_max_false in H. unfold fits.
  destruct current as [|c r].
  - simpl app in *. now rewrite trim_after_space in H.
  - simpl nonempty. cbv iota. now rewrite <- app_assoc.
Qed.

Lemma chunk_sentences_returns (fuel : nat) (sentences : list text) :
  forall chunks current,
    1 <= maxChars ->
    Forall (fun s => (length s <= fuel)%nat) sentences ->
    Forall good chunks ->
    fits current ->
    exists chunks' current',
      chunk_sentences SUMMARY_MAX_CHUNKS maxChars fuel sentences
        chunks current
      = Some (chunks', current')
      /\ Forall good chunks'
      /\ fits current'.
Proof.
  induction sentences as [|s rest IH];
    intros chunks current Hmax Hlen Hchunks Hcurrent.
  - exists chunks, current. now repeat split.
  - inversion Hlen as [|? ? Hs Hrest]; subst.
    simpl.
    destruct (longer_than_max maxChars (trim (current ++ space :: s)))
      eqn:Hjoin; simpl.
    + assert (Hchunks1 : Forall good
                (if nonempty current then chunks ++ [current] else chunks)).
      { destruct (nonempty current) eqn:Hne; [|exact Hchunks].
        apply Forall_app. split; [exact Hchunks|].
        constructor; [|constructor].
        split; [exact Hcurrent | now apply nonempty_true]. }
      destruct (@hard_split_returns fuel _ s Hmax Hs Hchunks1)
        as (chunks2 & current2 & -> & Hchunks2 & Hcurrent2).
      destruct (enough_chunks SUMMARY_MAX_CHUNKS chunks2).
      * exists chunks2, current2.
        repeat split; [exact Hchunks2 | now apply short_fits].
      * apply IH; [exact Hmax | exact Hrest | exact Hchunks2 |].
        now apply short_fits.
    + pose proof (joined_fits _ _ Hjoin) as Hjoined.
      destruct (enough_chunks SUMMARY_MAX_CHUNKS chunks).
      * eexists. eexists. repeat split; [exact Hchunks | exact Hjoined].
      * apply IH; [exact Hmax | exact Hrest | exact Hchunks | exact Hjoined].
Qed.

Lemma splitIntoSentenceChunks_returns (fuel : nat) (t : text) :
  1 <= maxChars ->
  (length t <= fuel)%nat ->
  exists chunks,
    splitIntoSentenceChunks SUMMARY_MAX_CHUNKS maxChars fuel t = Some chunks
    /\ Forall fits chunks
    /\ (t <> [] -> Forall (fun c => c <> []) chunks).
Proof.
  intros Hmax Hfuel. unfold splitIntoSentenceChunks.
  destruct (longer_than_max maxChars t) eqn:Hlong; simpl.
  - assert (Hsent : Forall (fun s => (length s <= fuel)%nat)
                      (split_sentences t)).
    { eapply Forall_impl; [|apply split_sentences_lengths].
      simpl. intros; lia. }
    assert (Hempty : fits []) by (unfold fits; simpl; lia).
    destruct (@chunk_sentences_returns fuel _ [] [] Hmax Hsent (Forall_nil good)
                Hempty)
      as (chunks & current & -> & Hchunks & Hcurrent).
    eexists. split; [reflexivity|].
    assert (Hall : Forall good
              (if nonempty current
                  && negb (enough_chunks SUMMARY_MAX_CHUNKS chunks)
               then chunks ++ [current] else chunks)).
    { destruct (nonempty current) eqn:Hne; simpl; [|exact Hchunks].
      destruct (enough_chunks SUMMARY_MAX_CHUNKS chunks); simpl;
        [exact Hchunks|].
      apply Forall_app. split; [exact Hchunks|].
      constructor; [|constructor].
      split; [exact Hcurrent | now apply nonempty_true]. }
    split; [|intros _]; (eapply Forall_impl; [|exact Hall]);
      intros c [H1 H2]; assumption.
  - apply longer_than_max_false in Hlong.
    exists [t]. split; [reflexivity|]. split.
    + constructor; [now apply short_fits | constructor].
    + intros Ht. constructor; [exact Ht | constructor].
Qed.

Lemma hard_split_loops (fuel : nat) :
  forall chunks current,
    maxChars <= 0 -> current <> [] ->
    hard_split maxChars fuel chunks current = None.
Proof.
  induction fuel as [|fuel IH]; intros chunks current Hmax Hne.
  - simpl. replace (longer_than_max maxChars current) with true;
      [reflexivity|].
    symmetry. apply longer_than_max_true.
    destruct current; [congruence | simpl; lia].
  - simpl. replace (longer_than_max maxChars current) with true.
    2:{ symmetry. apply longer_than_max_true.
        destruct current; [congruence | simpl; lia]. }
    apply IH; [exact Hmax|].
    intros E. apply (f_equal (@length _)) in E.
    unfold slice_from in E. rewrite length_skipn in E. simpl in E.
    assert (0 < length current)%nat
      by (destruct current; [congruence | simpl; lia]).
    destruct (maxChars <? 0) eqn:Hneg.
    + apply Z.ltb_lt in Hneg. lia.
    + apply Z.ltb_ge in Hneg. lia.
Qed.

Lemma hard_split_noop (fuel : nat) (chunks : list text) (s : text) :
  longer_than_max maxChars s = false ->
  hard_split maxChars fuel chunks s = Some (chunks, s).
Proof. intros H. destruct fuel; simpl; now rewrite H. Qed.

Lemma enough_chunks_false (chunks : list text) :
  enough_chunks SUMMARY_MAX_CHUNKS chunks = false
  <-> Z.of_nat (length chunks) < SUMMARY_MAX_CHUNKS.
Proof. unfold enough_chunks. rewrite Z.leb_gt. reflexivity. Qed.

Lemma enough_chunks_true (chunks : list text) :
  enough_chunks SUMMARY_MAX_CHUNKS chunks = true
  <-> SUMMARY_MAX_CHUNKS <= Z.of_nat (length chunks).
Proof. unfold enough_chunks. rewrite Z.leb_le. reflexivity. Qed.

Lemma chunk_sentences_count (fuel : nat) (sentences : list text) :
  forall chunks current,
    forallb (fun s => negb (longer_than_max maxChars s)) sentences = true ->
    Z.of_nat (length chunks) < SUMMARY_MAX_CHUNKS ->
    exists chunks' current',
      chunk_sentences SUMMARY_MAX_CHUNKS maxChars fuel sentences
        chunks current
      = Some (chunks', current')
      /\ Z.of_nat (length chunks') <= SUMMARY_MAX_CHUNKS.
Proof.
  induction sentences as [|s rest IH]; intros chunks current Hshort Hcount.
  - exists chunks, current. split; [reflexivity | lia].
  - simpl in Hshort. apply andb_true_iff in Hshort.
    destruct Hshort as [Hs Hrest]. apply negb_true_iff in Hs.
    simpl.
    destruct (longer_than_max maxChars (trim (current ++ space :: s)));
      simpl.
    + rewrite (@hard_split_noop fuel _ s Hs).
      set (chunks1 := if nonempty current then chunks ++ [current]
                      else chunks).
      assert (H1 : Z.of_nat (length chunks1) <= SUMMARY_MAX_CHUNKS).
      { subst chunks1. destruct (nonempty current); [|lia].
        rewrite length_app. simpl. lia. }
      destruct (enough_chunks SUMMARY_MAX_CHUNKS chunks1) eqn:He.
      * exists chunks1, s. split; [reflexivity | exact H1].
      * apply enough_chunks_false in He. now apply IH.
    + destruct (enough_chunks SUMMARY_MAX_CHUNKS chunks).
      * eexists. eexists. split; [reflexivity | lia].
      * now apply IH.
Qed.

Lemma hard_split_visible (fuel : nat) :
  forall chunks current chunks' current',
    hard_split maxChars fuel chunks current = Some (chunks', current') ->
    visible (concat chunks') ++ visible current'
    = visible (concat chunks) ++ visible current.
Proof.
  induction fuel as [|fuel IH]; intros chunks current chunks' current'.
  - simpl. destruct (longer_than_max maxChars current); [discriminate|].
    intros H. now inversion H.
  - simpl. destruct (longer_than_max maxChars current).
    + intros H. rewrite (IH _ _ _ _ H).
      rewrite concat_app, visible_app. simpl concat. rewrite app_nil_r.
      rewrite <- app_assoc, <- visible_app. now rewrite slice_split.
    + intros H. now inversion H.
Qed.

Lemma visible_joined (current s : text) :
  visible ((if nonempty current then current ++ [space] else []) ++ s)
  = visible current ++ visible s.
Proof.
  destruct current as [|c r]; [reflexivity|].
  simpl nonempty. cbv iota. rewrite !visible_app. now rewrite app_nil_r.
Qed.

Lemma visible_pushed (chunks : list text) (current : text) :
  visible (concat (if nonempty current then chunks ++ [current]
                   else chunks))
  = visible (concat chunks) ++ visible current.
Proof.
  destruct current as [|c r]; simpl nonempty; cbv iota.
  - simpl. now rewrite app_nil_r.
  - rewrite concat_app, visible_app. simpl concat. now rewrite app_nil_r.
Qed.

Lemma chunk_sentences_visible (fuel : nat) (sentences : list text) :
  forall chunks current chunks' current',
    chunk_sentences SUMMARY_MAX_CHUNKS maxChars fuel sentences
      chunks current
    = Some (chunks', current') ->
    exists dropped,
      visible (concat chunks) ++ visible current
        ++ visible (concat sentences)
      = visible (concat chunks') ++ visible current' ++ dropped
      /\ (Z.of_nat (length chunks') < SUMMARY_MAX_CHUNKS -> dropped = []).
Proof.
  induction sentences as [|s rest IH];
    intros chunks current chunks' current'.
  - simpl. intros H. inversion H; subst. exists []. now split.
  - simpl chunk_sentences. simpl concat. rewrite visible_app.
    destruct (longer_than_max maxChars (trim (current ++ space :: s)));
      simpl negb; cbv iota.
    + destruct (hard_split maxChars fuel
                  (if nonempty current then chunks ++ [current] else chunks)
                  s) as [[chunks2 current2]|] eqn:Hhard; [|discriminate].
      apply hard_split_visible in Hhard. rewrite visible_pushed in Hhard.
      destruct (enough_chunks SUMMARY_MAX_CHUNKS chunks2) eqn:He.
      * intros H. inversion H; subst.
        exists (visible (concat rest)). split.
        -- rewrite !app_assoc. f_equal. rewrite <- !app_assoc.
           rewrite <- app_assoc in Hhard. now rewrite Hhard.
        -- apply enough_chunks_true in He. lia.
      * intros H. destruct (IH _ _ _ _ H) as (dropped & Hsum & Hnone).
        exists dropped. split; [|exact Hnone].
        rewrite <- Hsum. rewrite !app_assoc. f_equal.
        rewrite <- !app_assoc. rewrite <- app_assoc in Hhard.
        now rewrite Hhard.
    + destruct (enough_chunks SUMMARY_MAX_CHUNKS chunks) eqn:He.
      * intros H. inversion H; subst.
        exists (visible (concat rest)). split.
        -- rewrite visible_joined. now rewrite <- !app_assoc.
        -- apply enough_chunks_true in He. lia.
      * intros H. destruct (IH _ _ _ _ H) as (dropped & Hsum & Hnone).
        exists dropped. split; [|exact Hnone].
        rewrite <- Hsum. rewrite visible_joined. now rewrite <- !app_assoc.
Qed.
End ChunkFacts.

(** X13: with a chunk size of at least one character the splitting always
    ends (the hard-split loop takes at most as many turns as the text has
    characters) and every chunk, surrounding whitespace apart, is within
    the chunk size; a text that is not empty gives no empty chunk. *)
Theorem chunks_within_size (SUMMARY_MAX_CHUNKS maxChars : Z) (fuel : nat)
    (t : text) :
  1 <= maxChars ->
  (length t <= fuel)%nat ->
  exists chunks,
    splitIntoSentenceChunks SUMMARY_MAX_CHUNKS maxChars fuel t = Some chunks
    /\ Forall (fun c => Z.of_nat (length (trim c)) <= maxChars) chunks
    /\ (t <> [] -> Forall (fun c => c <> []) chunks).
Proof.
  intros Hmax Hfuel.
  exact (@splitIntoSentenceChunks_returns SUMMARY_MAX_CHUNKS maxChars fuel t
           Hmax Hfuel).
Qed.

Lemma chunks_within_size_witness :
  exists chunks,
    splitIntoSentenceChunks 6 10 40
      (text_of_string "Un. Deux!  Trois? Quatre.Cinq. Six.")
    = Some chunks
    /\ Forall (fun c => Z.of_nat (length (trim c)) <= 10) chunks
    /\ (text_of_string "Un. Deux!  Trois? Quatre.Cinq. Six." <> [] ->
        Forall (fun c => c <> []) chunks).
Proof.
  apply (@chunks_within_size 6 10 40
           (text_of_string "Un. Deux!  Trois? Quatre.Cinq. Six."));
    [lia | simpl; lia].
Defined.

(** X14: a chunk size of zero or below (the environment variable
    [SUMMARY_CHUNK_CHARS] set to 0, say) makes the function loop for ever
    on every text that starts with a character other than whitespace: the
    hard-split loop cuts off nothing, or less than it leaves. *)
Theorem nonpositive_size_never_returns (SUMMARY_MAX_CHUNKS maxChars : Z)
    (c : Ascii.ascii) (rest : text) :
  maxChars <= 0 ->
  is_space c = false ->
  forall fuel,
    splitIntoSentenceChunks SUMMARY_MAX_CHUNKS maxChars fuel (c :: rest)
    = None.
Proof.
  intros Hmax Hc fuel. unfold splitIntoSentenceChunks.
  replace (longer_than_max maxChars (c :: rest)) with true
    by (symmetry; apply longer_than_max_true; simpl length; lia).
  simpl negb. cbv iota.
  destruct (@split_sentences_first c rest Hc) as (p & ps & ->).
  simpl chunk_sentences.
  replace (longer_than_max maxChars (trim (space :: c :: p))) with true.
  - simpl negb. cbv iota. simpl nonempty. cbv iota.
    rewrite hard_split_loops; [reflexivity | exact Hmax | discriminate].
  - symmetry. apply longer_than_max_true.
    destruct (trim (space :: c :: p)) as [|x r] eqn:E; [|simpl length; lia].
    pose proof (@trim_nil _ E c) as Hsp.
    rewrite Hsp in Hc; [discriminate | right; now left].
Qed.

Lemma nonpositive_size_never_returns_witness :
  splitIntoSentenceChunks 6 0 1000 (text_of_string "Bilan 2024.") = None.
Proof.
  apply (@nonpositive_size_never_returns 6 0 (code 66)
           (text_of_string "ilan 2024.")); [lia | reflexivity].
Defined.

Lemma splitIntoSentenceChunks_count (SUMMARY_MAX_CHUNKS maxChars : Z)
    (fuel : nat) (t : text) :
  1 <= SUMMARY_MAX_CHUNKS ->
  forallb (fun s => negb (longer_than_max maxChars s)) (split_sentences t)
  = true ->
  exists chunks,
    splitIntoSentenceChunks SUMMARY_MAX_CHUNKS maxChars fuel t = Some chunks
    /\ Z.of_nat (length chunks) <= SUMMARY_MAX_CHUNKS.
Proof.
  intros Hmax Hshort. unfold splitIntoSentenceChunks.
  destruct (longer_than_max maxChars t); simpl negb; cbv iota.
  - destruct (@chunk_sentences_count SUMMARY_MAX_CHUNKS maxChars fuel
                (split_sentences t) [] [] Hshort)
      as (chunks & current & -> & Hcount); [simpl; lia|].
    eexists. split; [reflexivity|].
    destruct (nonempty current); simpl andb; cbv iota; [|exact Hcount].
    destruct (enough_chunks SUMMARY_MAX_CHUNKS chunks) eqn:He;
      simpl negb; cbv iota; [exact Hcount|].
    apply enough_chunks_false in He. rewrite length_app. simpl. lia.
  - exists [t]. split; [reflexivity | simpl; lia].
Qed.

(** X15: when no sentence of the text is longer than the chunk size (no
    hard split takes place) and the limit is at least one, the function
    returns, needing no turn of the hard-split loop, and gives at most
    [SUMMARY_MAX_CHUNKS] chunks. *)
Theorem chunks_within_limit (SUMMARY_MAX_CHUNKS maxChars : Z) (fuel : nat)
    (t : text) :
  1 <= SUMMARY_MAX_CHUNKS ->
  forallb (fun s => negb (longer_than_max maxChars s)) (split_sentences t)
  = true ->
  exists chunks,
    splitIntoSentenceChunks SUMMARY_MAX_CHUNKS maxChars fuel t = Some chunks
    /\ Z.of_nat (length chunks) <= SUMMARY_MAX_CHUNKS.
Proof.
  intros Hmax Hshort.
  destruct (@splitIntoSentenceChunks_count SUMMARY_MAX_CHUNKS maxChars fuel t
              Hmax Hshort) as (chunks & Hsplit & Hcount).
  exists chunks. split; [exact Hsplit | exact Hcount].
Qed.

Lemma chunks_within_limit_witness :
  exists chunks,
    splitIntoSentenceChunks 2 10 0
      (text_of_string "Un. Deux!  Trois? Quatre. Cinq. Six.")
    = Some chunks
    /\ Z.of_nat (length chunks) <= 2.
Proof.
  apply (@chunks_within_limit 2 10 0
           (text_of_string "Un. Deux!  Trois? Quatre. Cinq. Six."));
    [lia | reflexivity].
Defined.

(** X16: chunking loses text only at the end, and only when the limit on
    the number of chunks is reached. Whitespace apart, the chunks put
    together are a leading part of the text, in order and without
    repetition; when fewer than [SUMMARY_MAX_CHUNKS] chunks come back,
    they are the whole text. *)
Theorem chunks_keep_the_text (SUMMARY_MAX_CHUNKS maxChars : Z) (fuel : nat)
    (t : text) (chunks : list text) :
  splitIntoSentenceChunks SUMMARY_MAX_CHUNKS maxChars fuel t = Some chunks ->
  exists dropped,
    visible t = visible (concat chunks) ++ dropped
    /\ (Z.of_nat (length chunks) < SUMMARY_MAX_CHUNKS -> dropped = []).
Proof.
  unfold splitIntoSentenceChunks.
  destruct (longer_than_max maxChars t); simpl negb; cbv iota.
  - destruct (chunk_sentences SUMMARY_MAX_CHUNKS maxChars fuel
                (split_sentences t) [] [])
      as [[chunks1 current1]|] eqn:Hloop; [|discriminate].
    destruct (@chunk_sentences_visible _ _ _ _ _ _ _ _ Hloop)
      as (dropped & Hsum & Hnone).
    rewrite split_sentences_visible in Hsum. simpl in Hsum.
    intros H. inversion H; subst chunks; clear H.
    destruct (nonempty current1) eqn:Hne; simpl andb; cbv iota.
    + destruct (enough_chunks SUMMARY_MAX_CHUNKS chunks1) eqn:He;
        simpl negb; cbv iota.
      * exists (visible current1 ++ dropped). split; [exact Hsum|].
        apply enough_chunks_true in He. lia.
      * exists dropped. split.
        -- rewrite concat_app, visible_app. simpl concat.
           rewrite app_nil_r, <- app_assoc. exact Hsum.
        -- apply enough_chunks_false in He. intros _. apply Hnone. exact He.
    + destruct current1; [|discriminate]. exists dropped.
      split; [exact Hsum | exact Hnone].
  - intros H. inversion H. exists []. split; [|reflexivity].
    simpl. now rewrite !app_nil_r.
Qed.

Lemma chunks_keep_the_text_witness :
  exists dropped,
    visible (text_of_string "Un. Deux!  Trois? Quatre.Cinq. Six.")
    = visible (concat (map text_of_string
                         ["Un. Deux!"%string; "Trois?"%string;
                          "Quatre.Cin"%string; "q. Six."%string]))
      ++ dropped
    /\ (Z.of_nat (length (map text_of_string
                            ["Un. Deux!"%string; "Trois?"%string;
                             "Quatre.Cin"%string; "q. Six."%string]))
        < 6 ->
        dropped = []).
Proof.
  apply (@chunks_keep_the_text 6 10 40
           (text_of_string "Un. Deux!  Trois? Quatre.Cinq. Six.")).
  reflexivity.
Defined.

(** ** The calls to the generation service *)

Lemma generateText_nonempty (post_text : string -> text -> option (option text))
    (model : string) (prompt : text) :
  generateText post_text model prompt <> [].
Proof.
  unfold generateText.
  destruct (post_text model prompt) as [[response|]|]; try discriminate.
  destruct response; simpl; discriminate.
Qed.

Lemma summarize_chunks_result
    (post_text : string -> text -> option (option text))
    (buildPdfSummaryPrompt : text -> text -> text)
    (mergePrompt_of : list text -> text)
    (model : string) (instruction : text) (chunks : list text) :
  fst (summarize_chunks post_text buildPdfSummaryPrompt mergePrompt_of
         model instruction chunks) <> []
  /\ (length (snd (summarize_chunks post_text buildPdfSummaryPrompt
                     mergePrompt_of model instruction chunks))
      <= length chunks + 1)%nat.
Proof.
  unfold summarize_chunks.
  destruct chunks as [|c1 [|c2 rest]]; simpl fst; simpl snd.
  - split; [apply generateText_nonempty | simpl; lia].
  - split; [apply generateText_nonempty | simpl; lia].
  - split; [apply generateText_nonempty|].
    simpl. rewrite length_app, length_map. simpl. lia.
Qed.

(** X17: summarising a text whose sentences all fit the chunk size costs
    at most [SUMMARY_MAX_CHUNKS + 1] requests to the generation model (one
    per chunk and one to merge), and what comes back is never the empty
    string, whatever the model answers and whether or not it fails. *)
Theorem summary_requests_bounded
    (post_text : string -> text -> option (option text))
    (SUMMARY_CHUNK_CHARS SUMMARY_MAX_CHUNKS : Z)
    (buildPdfSummaryPrompt : text -> text -> text)
    (mergePrompt_of : list text -> text)
    (fuel : nat) (model : string) (fullText instruction : text) :
  1 <= SUMMARY_MAX_CHUNKS ->
  forallb (fun s => negb (longer_than_max SUMMARY_CHUNK_CHARS s))
    (split_sentences fullText) = true ->
  exists result prompts,
    summarize_text post_text SUMMARY_CHUNK_CHARS SUMMARY_MAX_CHUNKS
      buildPdfSummaryPrompt mergePrompt_of fuel model fullText instruction
    = Some (result, prompts)
    /\ result <> []
    /\ Z.of_nat (length prompts) <= SUMMARY_MAX_CHUNKS + 1.
Proof.
  intros Hmax Hshort. unfold summarize_text.
  destruct (@splitIntoSentenceChunks_count SUMMARY_MAX_CHUNKS
              SUMMARY_CHUNK_CHARS fuel fullText Hmax Hshort)
    as (chunks & -> & Hcount).
  destruct (summarize_chunks_result post_text buildPdfSummaryPrompt
              mergePrompt_of model instruction chunks) as [Hres Hlen].
  destruct (summarize_chunks post_text buildPdfSummaryPrompt mergePrompt_of
              model instruction chunks) as [result prompts].
  exists result, prompts. simpl in Hres, Hlen.
  split; [reflexivity|]. split; [exact Hres | lia].
Qed.

Lemma summary_requests_bounded_witness :
  exists result prompts,
    summarize_text (fun _ _ => None) 10 2 (fun chunk _ => chunk)
      (fun partials => concat partials) 0 "llama3.2:1b"
      (text_of_string "Un. Deux!  Trois? Quatre. Cinq. Six.") []
    = Some (result, prompts)
    /\ result <> []
    /\ Z.of_nat (length prompts) <= 2 + 1.
Proof.
  apply (@summary_requests_bounded (fun _ _ => None) 10 2
           (fun chunk _ => chunk) (fun partials => concat partials) 0
           "llama3.2:1b"
           (text_of_string "Un. Deux!  Trois? Quatre. Cinq. Six.") []);
    [lia | reflexivity].
Defined.

Lemma image_error_usable : usable image_error = true.
Proof. reflexivity. Qed.

(** X18: [describeImage] never returns a blank description. It asks the
    given model once; the fallback model is asked, once, only when that
    answer failed or was blank and the given model is not the fallback
    model itself; an answer of the first model that is not blank is
    returned as it is. *)
Theorem description_never_blank
    (post_image : string -> text -> text -> Z -> option (option text))
    (IMG_FALLBACK_MODEL : option string)
    (model : string) (prompt base64Image : text) :
  let result :=
    describeImage post_image IMG_FALLBACK_MODEL model prompt base64Image in
  let fallback := fallbackModel IMG_FALLBACK_MODEL in
  usable (fst result) = true
  /\ (snd result = [model]
      \/ (snd result = [model; fallback]
          /\ model <> fallback
          /\ forall response,
               post_image model prompt base64Image 120
               = Some (Some response) ->
               usable response = false))
  /\ (forall response,
        post_image model prompt base64Image 120 = Some (Some response) ->
        usable response = true ->
        result = (response, [model])).
Proof.
  cbv zeta. unfold describeImage, describe_fallback.
  destruct (post_image model prompt base64Image 120)
    as [[response|]|] eqn:Hfirst.
  - destruct (usable response) eqn:Hu.
    + simpl. split; [exact Hu|]. split; [now left|].
      intros r Hr _. now inversion Hr.
    + destruct (String.eqb model (fallbackModel IMG_FALLBACK_MODEL))
        eqn:Hsame; simpl negb; cbv iota.
      * simpl. split; [apply image_error_usable|]. split; [now left|].
        intros r Hr Hr'. inversion Hr; subst. congruence.
      * apply String.eqb_neq in Hsame.
        assert (Hfirst' : forall r, Some (Some response) = Some (Some r) ->
                                    usable r = false)
          by (intros r Hr; inversion Hr; now subst).
        destruct (post_image (fallbackModel IMG_FALLBACK_MODEL) prompt
                    base64Image 160) as [[second|]|];
          [destruct (usable second) eqn:Hu2|..]; simpl;
          (split; [first [exact Hu2 | apply image_error_usable]|]);
          (split; [right; now repeat split|]);
          intros r Hr Hr'; rewrite (Hfirst' r Hr) in Hr'; discriminate.
  - destruct (String.eqb model (fallbackModel IMG_FALLBACK_MODEL))
      eqn:Hsame; simpl negb; cbv iota.
    + simpl. split; [apply image_error_usable|]. split; [now left|].
      intros r Hr. discriminate.
    + apply String.eqb_neq in Hsame.
      destruct (post_image (fallbackModel IMG_FALLBACK_MODEL) prompt
                  base64Image 160) as [[second|]|];
        [destruct (usable second) eqn:Hu2|..]; simpl;
        (split; [first [exact Hu2 | apply image_error_usable]|]);
        (split; [right; repeat split; [exact Hsame | discriminate]|]);
        intros r Hr; discriminate.
  - destruct (String.eqb model (fallbackModel IMG_FALLBACK_MODEL))
      eqn:Hsame; simpl negb; cbv iota.
    + simpl. split; [apply image_error_usable|]. split; [now left|].
      intros r Hr. discriminate.
    + apply String.eqb_neq in Hsame.
      destruct (post_image (fallbackModel IMG_FALLBACK_MODEL) prompt
                  base64Image 160) as [[second|]|];
        [destruct (usable second) eqn:Hu2|..]; simpl;
        (split; [first [exact Hu2 | apply image_error_usable]|]);
        (split; [right; repeat split; [exact Hsame | discriminate]|]);
        intros r Hr; discriminate.
Qed.

(** ** The search endpoint *)

Lemma generateEmbedding_run {A : Arith} (W : world) (text : string)
    (s : state) :
  generateEmbedding W text s
  = (match ollama_embeddings W text with
     | Some (JArray v) => Ok (JArray v)
     | _ => Throw "Failed to generate embedding"
     end,
     {| db := db s; trace := trace s ++ [EvEmbedding text] |}).
Proof.
  unfold generateEmbedding, bind, emit, ret, throw. simpl.
  destruct (ollama_embeddings W text) as [[v|]|]; reflexivity.
Qed.

(** What [rag_search_steps] comes to once the text is there. *)
Lemma rag_search_with_text {A : Arith} (W : world) (num_05 : num)
    (extract : file -> outcome string) (f : file)
    (threshold_field limit_field : option string) (s : state)
    (text : string) :
  extraction extract f s = (Ok text, s) ->
  rag_search_steps W num_05 extract f threshold_field limit_field s
  = if too_short text then
      (Ok (SearchRefused 400
             "Pas assez de texte extrait pour effectuer une recherche de similarité."),
       s)
    else
      match ollama_embeddings W text with
      | Some (JArray v) =>
          let results :=
            if query_fails W QAllDocuments then []
            else findSimilarDocuments_rows (JArray v)
                   (search_threshold W num_05 threshold_field)
                   (search_limit W limit_field)
                   (select_all_documents (documents (db s))) in
          (Ok (SearchFound (originalname f) (String.length text)
                 (length v) results (length results)),
           {| db := db s;
              trace := trace s ++ [EvEmbedding text; EvScan] |})
      | _ =>
          (Throw "Failed to generate embedding",
           {| db := db s; trace := trace s ++ [EvEmbedding text] |})
      end.
Proof.
  intros Hext. unfold rag_search_steps, bind. rewrite Hext.
  destruct (too_short text); [reflexivity|].
  rewrite generateEmbedding_run.
  destruct (ollama_embeddings W text) as [[v|]|]; try reflexivity.
  rewrite findSimilarDocuments_run. unfold ret. simpl.
  now rewrite <- app_assoc.
Qed.

Lemma extraction_outcomes {A : Arith} (extract : file -> outcome string)
    (f : file) (s : state) :
  (exists text, extraction extract f s = (Ok text, s))
  \/ (exists message, extraction extract f s = (Throw message, s)).
Proof.
  unfold extraction.
  destruct (String.eqb (mimetype f) "application/pdf"
            || String.prefix "image/" (mimetype f)).
  - destruct (extract f) as [text|message].
    + left. exists text. reflexivity.
    + right. exists message. reflexivity.
  - left. eexists. reflexivity.
Qed.

Ltac no_call :=
  simpl; split; [reflexivity|]; exists []; rewrite app_nil_r;
  split; [reflexivity|]; split; [now left|];
  split; [intros; reflexivity | intros; discriminate].

(** X19: the search endpoint only reads. Whatever the request and
    whatever fails, the store is left as it was, and the calls made are at
    most one embedding request followed by at most one scan: no insert, no
    generation. A refusal with status 400 costs no call at all, and an
    answer with results comes after exactly one embedding and one scan,
    its [total_results] being the number of results. *)
Theorem search_only_reads {A : Arith} (W : world) (num_05 : num)
    (extract : file -> outcome string) (uploaded : option file)
    (threshold_field limit_field : option string) (s : state) :
  let answer :=
    fst (rag_search W num_05 extract uploaded threshold_field limit_field
           s) in
  let s' :=
    snd (rag_search W num_05 extract uploaded threshold_field limit_field
           s) in
  db s' = db s
  /\ exists t,
       trace s' = trace s ++ t
       /\ (t = []
           \/ exists text,
                t = [EvEmbedding text] \/ t = [EvEmbedding text; EvScan])
       /\ (forall message, answer = SearchRefused 400 message -> t = [])
       /\ (forall name len dim results total,
             answer = SearchFound name len dim results total ->
             total = length results
             /\ exists text, t = [EvEmbedding text; EvScan]).
Proof.
  cbv zeta. unfold rag_search.
  destruct uploaded as [f|].
  2:{ no_call. }
  destruct (negb (includes "pdf" (mimetype f))
            && negb (String.prefix "image/" (mimetype f))).
  { no_call. }
  destruct (extraction_outcomes extract f s) as [[text Hext] | [m Hext]].
  - rewrite (@rag_search_with_text _ W num_05 extract f threshold_field
             limit_field s text Hext).
    destruct (too_short text).
    { no_call. }
    destruct (ollama_embeddings W text) as [[v|]|]; simpl.
    + split; [reflexivity|]. exists [EvEmbedding text; EvScan].
      split; [reflexivity|]. split; [right; exists text; now right|].
      split; [discriminate|].
      intros name len dim results total H. inversion H; subst.
      split; [reflexivity | now exists text].
    + split; [reflexivity|]. exists [EvEmbedding text].
      split; [reflexivity|]. split; [right; exists text; now left|].
      split; [intros message H; inversion H | discriminate].
    + split; [reflexivity|]. exists [EvEmbedding text].
      split; [reflexivity|]. split; [right; exists text; now left|].
      split; [intros message H; inversion H | discriminate].
  - unfold rag_search_steps, bind. rewrite Hext. simpl.
    split; [reflexivity|]. exists []. rewrite app_nil_r.
    split; [reflexivity|]. split; [now left|].
    split; [intros message H; inversion H | discriminate].
Qed.

(** X20: a database outage is invisible to the caller of the search
    endpoint. When the text was extracted and embedded but the query for
    the documents fails, the answer is a success with no results, the same
    as for a store that holds nothing similar. *)
Theorem search_outage_is_silent {A : Arith} (W : world) (num_05 : num)
    (extract : file -> outcome string) (f : file)
    (threshold_field limit_field : option string) (s : state)
    (text : string) (v : list num) :
  mimetype f = "application/pdf"%string ->
  extract f = Ok text ->
  too_short text = false ->
  ollama_embeddings W text = Some (JArray v) ->
  query_fails W QAllDocuments = true ->
  fst (rag_search W num_05 extract (Some f) threshold_field limit_field s)
  = SearchFound (originalname f) (String.length text) (length v) [] 0.
Proof.
  intros Hmime Hext Hlong Hemb Hfail. unfold rag_search.
  rewrite Hmime. simpl andb. cbv iota.
  assert (Hext' : extraction extract f s = (Ok text, s)).
  { unfold extraction. rewrite Hmime. simpl orb. cbv iota.
    now rewrite Hext. }
  rewrite (@rag_search_with_text _ W num_05 extract f threshold_field
             limit_field s text Hext').
  rewrite Hlong, Hemb. cbv zeta. now rewrite Hfail.
Qed.

Lemma search_outage_is_silent_witness :
  fst (rag_search world_outage c05 extract_report
         (Some (upload "q.pdf" "q")) None None (start [doc_a; doc_e]))
  = SearchFound "q.pdf" 65 2 [] 0.
Proof.
  apply (@search_outage_is_silent binary64 world_outage c05 extract_report
           (upload "q.pdf" "q") None None (start [doc_a; doc_e])
           report_text [d 1; d 0]); reflexivity.
Defined.

(** X21: what the search endpoint returns are stored documents that match
    the upload. An answer with results means that text was extracted from
    the uploaded file and the embedding service returned an array for that
    text; the results are then what [findSimilarDocuments] gives for that
    array (nothing, when the documents cannot be read), with the threshold
    and the limit of the request. So every result is a row of the
    [documents] table with its score against the embedding of the uploaded
    text, that score is at least the threshold of the request, 0.5 when
    the request names none, and a request that names no limit gets at most
    ten results. *)
Theorem search_results_are_stored_matches {A : Arith} (W : world)
    (num_05 : num) (extract : file -> outcome string)
    (uploaded : option file) (threshold_field limit_field : option string)
    (s : state) (name : string) (len dim : nat) (results : list similar)
    (total : nat) :
  fst (rag_search W num_05 extract uploaded threshold_field limit_field s)
  = SearchFound name len dim results total ->
  exists f text v,
    uploaded = Some f
    /\ extract f = Ok text
    /\ ollama_embeddings W text = Some (JArray v)
    /\ name = originalname f
    /\ len = String.length text
    /\ dim = length v
    /\ results
       = (if query_fails W QAllDocuments then []
          else findSimilarDocuments_rows (JArray v)
                 (search_threshold W num_05 threshold_field)
                 (search_limit W limit_field)
                 (select_all_documents (documents (db s))))
    /\ (forall r, In r results ->
          exists doc,
            In doc (documents (db s))
            /\ r = similar_of doc (score_of (JArray v) doc)
            /\ num_ge (score_of (JArray v) doc)
                 (search_threshold W num_05 threshold_field) = true)
    /\ (threshold_field = None ->
        Forall (fun r => num_ge (similarity_score r) num_05 = true) results)
    /\ (limit_field = None -> (length results <= 10)%nat).
Proof.
  unfold rag_search.
  destruct uploaded as [f|]; [|discriminate].
  destruct (negb (includes "pdf" (mimetype f))
            && negb (String.prefix "image/" (mimetype f)));
    [discriminate|].
  assert (Hcases :
            (exists text, extract f = Ok text
                          /\ extraction extract f s = (Ok text, s))
            \/ extraction extract f s = (Ok ""%string, s)
            \/ exists m, extraction extract f s = (Throw m, s)).
  { unfold extraction.
    destruct (String.eqb (mimetype f) "application/pdf"
              || String.prefix "image/" (mimetype f)).
    - destruct (extract f) as [text|m].
      + left. exists text. split; reflexivity.
      + right. right. exists m. reflexivity.
    - right. left. reflexivity. }
  destruct Hcases as [[text [Hext Hrun]] | [Hrun | [m Hrun]]].
  - rewrite (@rag_search_with_text _ W num_05 extract f threshold_field
               limit_field s text Hrun).
    destruct (too_short text); [discriminate|].
    destruct (ollama_embeddings W text) as [[v|]|] eqn:Hemb;
      [|discriminate..].
    cbv zeta. simpl fst. intros H. inversion H; subst; clear H.
    exists f, text, v.
    assert (Hall : forall r,
               In r (if query_fails W QAllDocuments then []
                     else findSimilarDocuments_rows (JArray v)
                            (search_threshold W num_05 threshold_field)
                            (search_limit W limit_field)
                            (select_all_documents (documents (db s)))) ->
               exists doc,
                 In doc (documents (db s))
                 /\ r = similar_of doc (score_of (JArray v) doc)
                 /\ num_ge (score_of (JArray v) doc)
                      (search_threshold W num_05 threshold_field) = true).
    { intros r Hr. destruct (query_fails W QAllDocuments); [destruct Hr|].
      apply result_from_rows in Hr. destruct Hr as (doc & Hdoc & -> & Hge).
      exists doc. split; [exact (proj1 (select_all_In _ _) Hdoc)|].
      split; [reflexivity | exact Hge]. }
    split; [reflexivity|]. split; [exact Hext|].
    split; [first [exact Hemb | reflexivity]|].
    do 4 (split; [reflexivity|]).
    split; [exact Hall|]. split.
    + intros ->. apply Forall_forall. intros r Hr.
      destruct (Hall r Hr) as (doc & _ & -> & Hge). exact Hge.
    + intros ->. destruct (query_fails W QAllDocuments); [simpl; lia|].
      pose proof (@slice0_length _
                    (rank (JArray v)
                       (search_threshold W num_05 threshold_field)
                       (select_all_documents (documents (db s)))) 10)
        as Hlen.
      rewrite rows_unfold. simpl search_limit. lia.
  - rewrite (@rag_search_with_text _ W num_05 extract f threshold_field
               limit_field s ""%string Hrun).
    replace (too_short "") with true by reflexivity. discriminate.
  - unfold rag_search_steps, bind. rewrite Hrun. discriminate.
Qed.

Lemma search_results_are_stored_matches_witness :
  exists f text v,
    Some (upload "q.pdf" "q") = Some f
    /\ extract_report f = Ok text
    /\ ollama_embeddings world0 text = Some (JArray v)
    /\ "q.pdf"%string = originalname f
    /\ 65%nat = String.length text
    /\ 2%nat = length v
    /\ [similar_of doc_e (score_of query_vec doc_e);
        similar_of doc_a (score_of query_vec doc_a);
        similar_of doc_c (score_of query_vec doc_c)]
       = (if query_fails world0 QAllDocuments then []
          else findSimilarDocuments_rows (JArray v)
                 (search_threshold world0 c05 None)
                 (search_limit world0 None)
                 (select_all_documents
                    (documents (db (start [doc_a; doc_e; doc_c])))))
    /\ (forall r,
          In r [similar_of doc_e (score_of query_vec doc_e);
                similar_of doc_a (score_of query_vec doc_a);
                similar_of doc_c (score_of query_vec doc_c)] ->
          exists doc,
            In doc (documents (db (start [doc_a; doc_e; doc_c])))
            /\ r = similar_of doc (score_of (JArray v) doc)
            /\ num_ge (score_of (JArray v) doc)
                 (search_threshold world0 c05 None) = true)
    /\ (@None string = None ->
        Forall (fun r => num_ge (similarity_score r) c05 = true)
          [similar_of doc_e (score_of query_vec doc_e);
           similar_of doc_a (score_of query_vec doc_a);
           similar_of doc_c (score_of query_vec doc_c)])
    /\ (@None string = None ->
        (length [similar_of doc_e (score_of query_vec doc_e);
                 similar_of doc_a (score_of query_vec doc_a);
                 similar_of doc_c (score_of query_vec doc_c)] <= 10)%nat).
Proof.
  apply (@search_results_are_stored_matches binary64 world0 c05
           extract_report (Some (upload "q.pdf" "q")) None None
           (start [doc_a; doc_e; doc_c]) "q.pdf" 65 2
           [similar_of doc_e (score_of query_vec doc_e);
            similar_of doc_a (score_of query_vec doc_a);
            similar_of doc_c (score_of query_vec doc_c)] 3).
  reflexivity.
Defined.
